(** * github-backup: a shallow embedding of [main.go] and its properties

    The program lists the repositories of GitHub accounts (with the [gh]
    command line tool and with the public REST API for starred repositories)
    and mirrors them with [git clone --mirror].

    The embedding follows the source function by function.  Go strings are
    byte sequences and are modelled by [string]; the package-level counter
    [reponum] is a 64-bit [int]; the [repos] slices, which the code grows with
    [append] while it ranges over them, live in an explicit store of backing
    arrays; external commands, HTTP requests, printing and logging are events
    of a trace, the answers of the outside world being given by an oracle. *)

From Stdlib Require Import ZArith Ascii String Lia.
From stdpp Require Import base list strings.

Open Scope string_scope.

(** ** The Go library functions used by the program *)

(** [strings]: [Split] and [TrimSpace]. *)
Module GoStrings.

Definition TAB : ascii := ascii_of_N 9.
Definition LF : ascii := ascii_of_N 10.
Definition COMMA : ascii := ascii_of_N 44.
Definition DQUOTE : ascii := ascii_of_N 34.

(** [strings.Split(s, sep)] for a one-byte separator, which is what the three
    call sites of the program pass (a comma, a line feed, a tab).  The result
    is never empty: [Split "" sep] is [[""]]. *)
Fixpoint Split (s : string) (sep : ascii) : list string :=
  match s with
  | EmptyString => [EmptyString]
  | String c s' =>
      if Ascii.eqb c sep then EmptyString :: Split s' sep
      else match Split s' sep with
           | w :: ws => String c w :: ws
           | [] => [String c EmptyString]
           end
  end.

(** White space as [unicode.IsSpace] sees it, on the UTF-8 bytes of a Go
    string: the six ASCII characters, and the encodings of U+0085, U+00A0,
    U+1680, U+2000..U+200A, U+2028, U+2029, U+202F, U+205F and U+3000. *)
Definition asciiSpace (c : ascii) : bool :=
  match N_of_ascii c with
  | 9 | 10 | 11 | 12 | 13 | 32 => true
  | _ => false
  end%N.

Definition space2 (c1 c2 : ascii) : bool :=
  match N_of_ascii c1, N_of_ascii c2 with
  | 194, 133 | 194, 160 => true
  | _, _ => false
  end%N.

Definition space3 (c1 c2 c3 : ascii) : bool :=
  match N_of_ascii c1, N_of_ascii c2, N_of_ascii c3 with
  | 225, 154, 128 => true
  | 226, 128, n => (128 <=? n)%N && (n <=? 138)%N
                   || (n =? 168)%N || (n =? 169)%N || (n =? 175)%N
  | 226, 129, 159 => true
  | 227, 128, 128 => true
  | _, _, _ => false
  end%N.

(** Drops the leading white-space runes; [sp2] and [sp3] recognise the
    two-byte and three-byte ones, so that the same function serves on the
    reversed string. *)
Fixpoint trimLeading (sp2 : ascii -> ascii -> bool)
    (sp3 : ascii -> ascii -> ascii -> bool) (s : string) : string :=
  match s with
  | EmptyString => s
  | String c1 s1 =>
      if asciiSpace c1 then trimLeading sp2 sp3 s1
      else match s1 with
           | EmptyString => s
           | String c2 s2 =>
               if sp2 c1 c2 then trimLeading sp2 sp3 s2
               else match s2 with
                    | EmptyString => s
                    | String c3 s3 =>
                        if sp3 c1 c2 c3 then trimLeading sp2 sp3 s3 else s
                    end
           end
  end.

Definition TrimLeft (s : string) : string := trimLeading space2 space3 s.

Definition TrimRight (s : string) : string :=
  String.rev
    (trimLeading (fun a b => space2 b a) (fun a b c => space3 c b a)
       (String.rev s)).

(** [strings.TrimSpace]: leading and trailing white space removed. *)
Definition TrimSpace (s : string) : string := TrimRight (TrimLeft s).

End GoStrings.

Import GoStrings.

(** [encoding/json]: the values of JSON and the reading of a JSON text, as
    [json.Unmarshal] does it: the text is checked whole first (any text that
    is not one JSON value is a syntax error), strings are unquoted with their
    escapes decoded and ill-formed UTF-8 replaced, and arrays and objects
    nest at most [maxNestingDepth] deep. *)
Module GoJson.

Local Unset Elimination Schemes.

Inductive value :=
| Null
| Bool (b : bool)
| Number (lit : string)
| Str (s : string)
| Array (vs : list value)
| Object (members : list (string * value)).

Local Set Elimination Schemes.

Definition maxNestingDepth : N := 10000.

Definition isWhite (c : ascii) : bool :=
  match N_of_ascii c with
  | 32 | 9 | 13 | 10 => true
  | _ => false
  end%N.

Fixpoint skipWhite (s : string) : string :=
  match s with
  | String c r => if isWhite c then skipWhite r else s
  | EmptyString => s
  end.

Definition isDigit (c : ascii) : bool :=
  (48 <=? N_of_ascii c)%N && (N_of_ascii c <=? 57)%N.

Definition hexval (c : ascii) : option N :=
  let n := N_of_ascii c in
  if (48 <=? n)%N && (n <=? 57)%N then Some (n - 48)%N
  else if (97 <=? n)%N && (n <=? 102)%N then Some (n - 87)%N
  else if (65 <=? n)%N && (n <=? 70)%N then Some (n - 55)%N
  else None.

(** [getu4]: the value of four hexadecimal digits. *)
Definition getu4 (a b c d : ascii) : option N :=
  match hexval a, hexval b, hexval c, hexval d with
  | Some x, Some y, Some z, Some w => Some (x * 4096 + y * 256 + z * 16 + w)%N
  | _, _, _, _ => None
  end.

Definition byte (n : N) : ascii := ascii_of_N n.

(** [utf8.EncodeRune] for a code point below 0x110000 that is not a
    surrogate. *)
Definition encodeRune (r : N) : string :=
  if (r <? 128)%N then String (byte r) ""
  else if (r <? 2048)%N then
    String (byte (192 + r / 64)) (String (byte (128 + r mod 64)) "")
  else if (r <? 65536)%N then
    String (byte (224 + r / 4096))
      (String (byte (128 + (r / 64) mod 64)) (String (byte (128 + r mod 64)) ""))
  else
    String (byte (240 + r / 262144))
      (String (byte (128 + (r / 4096) mod 64))
         (String (byte (128 + (r / 64) mod 64))
            (String (byte (128 + r mod 64)) ""))).

Definition replacementChar : N := 65533.

Definition isCont (c : ascii) : bool :=
  (128 <=? N_of_ascii c)%N && (N_of_ascii c <=? 191)%N.

Definition between (lo hi : N) (c : ascii) : bool :=
  (lo <=? N_of_ascii c)%N && (N_of_ascii c <=? hi)%N.

(** The number of continuation bytes of the well-formed UTF-8 sequence that
    starts with the byte [c1] followed by [s]; [None] when [utf8.DecodeRune]
    answers [RuneError] there. *)
Definition runeTail (c1 : ascii) (s : string) : option nat :=
  let n := N_of_ascii c1 in
  match s with
  | String c2 s2 =>
      if (194 <=? n)%N && (n <=? 223)%N then
        if isCont c2 then Some 1%nat else None
      else
        let second :=
          if (n =? 224)%N then between 160 191 c2
          else if (n =? 237)%N then between 128 159 c2
          else if (n =? 240)%N then between 144 191 c2
          else if (n =? 244)%N then between 128 143 c2
          else isCont c2 in
        match s2 with
        | String c3 s3 =>
            if (224 <=? n)%N && (n <=? 239)%N then
              if second && isCont c3 then Some 2%nat else None
            else if (240 <=? n)%N && (n <=? 244)%N then
              match s3 with
              | String c4 _ =>
                  if second && isCont c3 && isCont c4 then Some 3%nat else None
              | EmptyString => None
              end
            else None
        | EmptyString => None
        end
  | EmptyString => None
  end.

(** The scanner's string state together with [unquote]: reads the bytes after
    an opening quote up to the closing one.  [pending] counts the continuation
    bytes, already checked, that are copied as they are; [acc] is the decoded
    text so far, reversed.  The result is the decoded text and the input after
    the closing quote. *)
Fixpoint scanString (pending : nat) (acc : string) (s : string)
  : option (string * string) :=
  match s with
  | EmptyString => None
  | String c r =>
      match pending with
      | S k => scanString k (String c acc) r
      | O =>
          let n := N_of_ascii c in
          if (n =? 34)%N then Some (String.rev acc, r)
          else if (n <? 32)%N then None
          else if (n =? 92)%N then
            match r with
            | EmptyString => None
            | String e r1 =>
                match N_of_ascii e with
                | 34 | 92 | 47 => scanString 0 (String e acc) r1
                | 98 => scanString 0 (String (byte 8) acc) r1
                | 102 => scanString 0 (String (byte 12) acc) r1
                | 110 => scanString 0 (String (byte 10) acc) r1
                | 114 => scanString 0 (String (byte 13) acc) r1
                | 116 => scanString 0 (String (byte 9) acc) r1
                | 117 =>
                    match r1 with
                    | String h1 (String h2 (String h3 (String h4 r2))) =>
                        match getu4 h1 h2 h3 h4 with
                        | None => None
                        | Some rr =>
                            if (55296 <=? rr)%N && (rr <=? 57343)%N then
                              match r2 with
                              | String b (String u (String g1 (String g2
                                  (String g3 (String g4 r3))))) =>
                                  match
                                    (if (N_of_ascii b =? 92)%N
                                        && (N_of_ascii u =? 117)%N
                                     then getu4 g1 g2 g3 g4 else None)
                                  with
                                  | Some rr1 =>
                                      if (rr <? 56320)%N && (56320 <=? rr1)%N
                                         && (rr1 <=? 57343)%N
                                      then
                                        scanString 0
                                          (String.rev_app
                                             (encodeRune
                                                (65536 + (rr - 55296) * 1024
                                                 + (rr1 - 56320)))
                                             acc) r3
                                      else
                                        scanString 0
                                          (String.rev_app
                                             (encodeRune replacementChar) acc)
                                          r2
                                  | None =>
                                      scanString 0
                                        (String.rev_app
                                           (encodeRune replacementChar) acc) r2
                                  end
                              | _ =>
                                  scanString 0
                                    (String.rev_app
                                       (encodeRune replacementChar) acc) r2
                              end
                            else
                              scanString 0
                                (String.rev_app (encodeRune rr) acc) r2
                        end
                    | _ => None
                    end
                | _ => None
                end%N
            end
          else if (n <? 128)%N then scanString 0 (String c acc) r
          else
            match runeTail c r with
            | Some k => scanString k (String c acc) r
            | None =>
                scanString 0 (String.rev_app (encodeRune replacementChar) acc) r
            end
      end
  end.

(** The digits at the head of [s], and what follows them. *)
Fixpoint spanDigits (s : string) : string * string :=
  match s with
  | String c r =>
      if isDigit c then let (d, r') := spanDigits r in (String c d, r')
      else (EmptyString, s)
  | EmptyString => (EmptyString, s)
  end.

Definition nonEmptyDigits (s : string) : option (string * string) :=
  match spanDigits s with
  | (EmptyString, _) => None
  | (d, r) => Some (d, r)
  end.

(** A number without its sign: an integer part without leading zero, an
    optional fraction and an optional exponent.  The result is the literal and
    the input after it. *)
Definition scanNumber (s : string) : option (string * string) :=
  match s with
  | EmptyString => None
  | String c r =>
      if isDigit c then
        let (int, r1) :=
          if (N_of_ascii c =? 48)%N then (String c "", r)
          else let (d, r') := spanDigits r in (String c d, r') in
        let frac :=
          match r1 with
          | String p r2 =>
              if (N_of_ascii p =? 46)%N then
                match nonEmptyDigits r2 with
                | Some (d, r3) => Some (String p d, r3)
                | None => None
                end
              else Some ("", r1)
          | EmptyString => Some ("", r1)
          end in
        match frac with
        | None => None
        | Some (f, r3) =>
            match r3 with
            | String e r4 =>
                if (N_of_ascii e =? 101)%N || (N_of_ascii e =? 69)%N then
                  let (sign, r5) :=
                    match r4 with
                    | String g r5 =>
                        if (N_of_ascii g =? 43)%N || (N_of_ascii g =? 45)%N
                        then (String g "", r5) else ("", r4)
                    | EmptyString => ("", r4)
                    end in
                  match nonEmptyDigits r5 with
                  | Some (d, r6) => Some (int ++ f ++ String e sign ++ d, r6)
                  | None => None
                  end
                else Some (int ++ f, r3)
            | EmptyString => Some (int ++ f, r3)
            end
        end
      else None
  end.

(** [s] without the prefix [p], when it starts with it. *)
Fixpoint stripPrefix (p s : string) : option string :=
  match p, s with
  | EmptyString, _ => Some s
  | String a p', String b s' =>
      if Ascii.eqb a b then stripPrefix p' s' else None
  | String _ _, EmptyString => None
  end.

(** The scanner and the value builder of [encoding/json], as a recursive
    descent on the text.  [fuel] bounds the recursion and [depth] is the number
    of arrays and objects that are open. *)
Fixpoint parseValue (fuel : nat) (depth : N) (s : string) {struct fuel}
  : option (value * string) :=
  match fuel with
  | O => None
  | S fuel' =>
      match skipWhite s with
      | EmptyString => None
      | String c r =>
          match N_of_ascii c with
          | 91 =>
              if (maxNestingDepth <=? depth)%N then None
              else
                match skipWhite r with
                | EmptyString => None
                | String c' r' =>
                    if (N_of_ascii c' =? 93)%N then Some (Array [], r')
                    else
                      match parseElements fuel' (depth + 1) r with
                      | Some (vs, r'') => Some (Array vs, r'')
                      | None => None
                      end
                end
          | 123 =>
              if (maxNestingDepth <=? depth)%N then None
              else
                match skipWhite r with
                | EmptyString => None
                | String c' r' =>
                    if (N_of_ascii c' =? 125)%N then Some (Object [], r')
                    else
                      match parseMembers fuel' (depth + 1) r with
                      | Some (ms, r'') => Some (Object ms, r'')
                      | None => None
                      end
                end
          | 34 =>
              match scanString 0 "" r with
              | Some (str, r') => Some (Str str, r')
              | None => None
              end
          | 45 =>
              match scanNumber r with
              | Some (lit, r') => Some (Number (String c lit), r')
              | None => None
              end
          | 116 =>
              match stripPrefix "rue" r with
              | Some r' => Some (Bool true, r')
              | None => None
              end
          | 102 =>
              match stripPrefix "alse" r with
              | Some r' => Some (Bool false, r')
              | None => None
              end
          | 110 =>
              match stripPrefix "ull" r with
              | Some r' => Some (Null, r')
              | None => None
              end
          | _ =>
              match scanNumber (String c r) with
              | Some (lit, r') => Some (Number lit, r')
              | None => None
              end
          end%N
      end
  end
with parseElements (fuel : nat) (depth : N) (s : string) {struct fuel}
  : option (list value * string) :=
  match fuel with
  | O => None
  | S fuel' =>
      match parseValue fuel' depth s with
      | None => None
      | Some (v, r) =>
          match skipWhite r with
          | EmptyString => None
          | String c r' =>
              if (N_of_ascii c =? 44)%N then
                match parseElements fuel' depth r' with
                | Some (vs, r'') => Some (v :: vs, r'')
                | None => None
                end
              else if (N_of_ascii c =? 93)%N then Some ([v], r')
              else None
          end
      end
  end
with parseMembers (fuel : nat) (depth : N) (s : string) {struct fuel}
  : option (list (string * value) * string) :=
  match fuel with
  | O => None
  | S fuel' =>
      match skipWhite s with
      | EmptyString => None
      | String q r0 =>
          if (N_of_ascii q =? 34)%N then
            match scanString 0 "" r0 with
            | None => None
            | Some (key, r1) =>
                match skipWhite r1 with
                | EmptyString => None
                | String colon r2 =>
                    if (N_of_ascii colon =? 58)%N then
                      match parseValue fuel' depth r2 with
                      | None => None
                      | Some (v, r3) =>
                          match skipWhite r3 with
                          | EmptyString => None
                          | String c r4 =>
                              if (N_of_ascii c =? 44)%N then
                                match parseMembers fuel' depth r4 with
                                | Some (ms, r5) => Some ((key, v) :: ms, r5)
                                | None => None
                                end
                              else if (N_of_ascii c =? 125)%N
                              then Some ([(key, v)], r4)
                              else None
                          end
                      end
                    else None
                end
            end
          else None
      end
  end.

(** The whole text is one value, with white space around it at most. *)
Definition parse (text : string) : option value :=
  match parseValue (2 * String.length text + 2) 0 text with
  | Some (v, r) =>
      match skipWhite r with
      | EmptyString => Some v
      | String _ _ => None
      end
  | None => None
  end.

End GoJson.

(** [json.Unmarshal] into a [[]starsData]. *)
Module GoJsonDecode.

Import GoJson.

(** The two kinds of error [json.Unmarshal] reports. *)
Inductive jsonError := SyntaxError | UnmarshalTypeError.

(** The element type of the decoded array (declared inside [getStars]):
    [type starsData struct { FullName string `json:"full_name,omitempty"` }]. *)
Record starsData := mkStarsData { FullName : string }.

Definition asciiLower (c : ascii) : ascii :=
  let n := N_of_ascii c in
  if (65 <=? n)%N && (n <=? 90)%N then ascii_of_N (n + 32) else c.

Fixpoint foldName (s : string) : string :=
  match s with
  | String c r => String (asciiLower c) (foldName r)
  | EmptyString => EmptyString
  end.

(** A member of a JSON object stored into the struct: the key is matched
    against the field name without regard to case; a string value is stored,
    [null] leaves the field as it is, any other value is a type error; members
    with another key are ignored. *)
Definition storeMember (d : option starsData) (m : string * value)
  : option starsData :=
  match d with
  | None => None
  | Some d0 =>
      if String.eqb (foldName (fst m)) "full_name" then
        match snd m with
        | Str s => Some (mkStarsData s)
        | Null => Some d0
        | _ => None
        end
      else Some d0
  end.

(** One element of the array decoded into the zero value of the struct. *)
Definition decodeElement (v : value) : option starsData :=
  match v with
  | Object ms => foldl storeMember (Some (mkStarsData "")) ms
  | Null => Some (mkStarsData "")
  | _ => None
  end.

Fixpoint decodeElements (vs : list value) : option (list starsData) :=
  match vs with
  | [] => Some []
  | v :: vs' =>
      match decodeElement v, decodeElements vs' with
      | Some d, Some ds => Some (d :: ds)
      | _, _ => None
      end
  end.

(** [json.Unmarshal(body, &jsonData)] with [jsonData] a nil [[]starsData]. *)
Definition Unmarshal (body : string) : list starsData + jsonError :=
  match parse body with
  | None => inr SyntaxError
  | Some (Array vs) =>
      match decodeElements vs with
      | Some ds => inl ds
      | None => inr UnmarshalTypeError
      end
  | Some Null => inl []
  | Some _ => inr UnmarshalTypeError
  end.

End GoJsonDecode.

Import GoJsonDecode.

(** [flag]: the parsing of the command line by [flag.Parse], for a set of
    string and boolean flags.  A flag is [-name], [--name], [-name=value] or,
    if it is not boolean, [-name value]; the parsing stops before the first
    argument that is not a flag and after [--]; [-h] and [-help], when no
    flag has that name, ask for the usage. *)
Module GoFlag.

(** What a flag does with its value to the variables [S] of the program. *)
Inductive Value (S : Type) : Type :=
| StringVar (set : string -> S -> S)
| BoolVar (set : bool -> S -> S).

Arguments StringVar {S} set.
Arguments BoolVar {S} set.

(** The errors of the parsing, with what their messages name. *)
Inductive flagError : Type :=
| BadSyntax (arg : string)
| NotDefined (name : string)
| InvalidBool (value name : string)
| NeedsArgument (name : string).

(** The result of [Parse]: the variables and the arguments that remain, or
    the usage was asked for ([ErrHelp]), or an error. *)
Inductive Result (S : Type) : Type :=
| Parsed (s : S) (rest : list string)
| ErrHelp
| Failed (e : flagError).

Arguments Parsed {S} s rest.
Arguments ErrHelp {S}.
Arguments Failed {S} e.

(** [strconv.ParseBool], which sets a boolean flag. *)
Definition ParseBool (s : string) : option bool :=
  if existsb (String.eqb s) ["1"; "t"; "T"; "TRUE"; "true"; "True"]
  then Some true
  else if existsb (String.eqb s) ["0"; "f"; "F"; "FALSE"; "false"; "False"]
  then Some false
  else None.

(** A string cut at its first [=]. *)
Fixpoint cutEqual (s : string) : option (string * string) :=
  match s with
  | "" => None
  | String c s' =>
      if (c =? "=")%char then Some ("", s')
      else
        match cutEqual s' with
        | Some (a, v) => Some (String c a, v)
        | None => None
        end
  end.

(** One argument of the command line, as [parseOne] reads it: not a flag
    (shorter than two bytes, or not starting with [-]), the terminator [--],
    a flag with its name and, after [=], its value, or bad syntax (no name,
    or a name that starts with [-] or [=]).  The [=] is looked for from the
    second byte of the name. *)
Inductive Token : Type :=
| NonFlag
| Terminator
| Bad
| FlagArg (name : string) (value : option string).

Definition classify (s : string) : Token :=
  match s with
  | String c0 (String c1 s') =>
      if negb (c0 =? "-")%char then NonFlag
      else if (c1 =? "-")%char && (String.length s' =? 0)%nat then Terminator
      else
        match (if (c1 =? "-")%char then s' else String c1 s') with
        | "" => Bad
        | String n0 name' =>
            if (n0 =? "-")%char || (n0 =? "=")%char then Bad
            else
              match cutEqual name' with
              | Some (a, v) => FlagArg (String n0 a) (Some v)
              | None => FlagArg (String n0 name') None
              end
        end
  | _ => NonFlag
  end.

(** [Parse]: the flags are read one by one and set in turn, a later one
    overriding an earlier one.  A boolean flag without [=value] is set to
    true and takes no value from the next argument; any other flag without
    [=value] takes the next argument, whatever it is, as its value. *)
Fixpoint Parse {S : Type} (formal : string -> option (Value S)) (s : S)
    (args : list string) : Result S :=
  match args with
  | [] => Parsed s []
  | a :: rest =>
      match classify a with
      | NonFlag => Parsed s args
      | Terminator => Parsed s rest
      | Bad => Failed (BadSyntax a)
      | FlagArg name value =>
          match formal name with
          | None =>
              if String.eqb name "help" || String.eqb name "h" then ErrHelp
              else Failed (NotDefined name)
          | Some (BoolVar set) =>
              match value with
              | Some v =>
                  match ParseBool v with
                  | Some b => Parse formal (set b s) rest
                  | None => Failed (InvalidBool v name)
                  end
              | None => Parse formal (set true s) rest
              end
          | Some (StringVar set) =>
              match value with
              | Some v => Parse formal (set v s) rest
              | None =>
                  match rest with
                  | v :: rest' => Parse formal (set v s) rest'
                  | [] => Failed (NeedsArgument name)
                  end
              end
          end
      end
  end.

End GoFlag.

(** ** The state of the process and the outside world *)

(** Go's [int] on a 64-bit platform: the value of an arithmetic result. *)
Definition wrap64 (z : Z) : Z := ((z + 2 ^ 63) mod 2 ^ 64 - 2 ^ 63)%Z.

(** An [error]: one that the outside world reports (by [os/exec], [net/http]
    or the reading of a body), with its text, or one of [json.Unmarshal]. *)
Inductive error :=
| ExternalError (msg : string)
| JsonError (e : jsonError).

(** What the program asks of the outside world. *)
Inductive Call :=
| CmdOutput (name : string) (args : list string)
| CmdRun (name : string) (args : list string)
| HttpGet (url : string)
| ReadAll (url : string).

(** The answer to a call: the error when there is one, else the data (the
    standard output of a command, the body of a response). *)
Inductive Response :=
| Success (data : string)
| Failure (err : error).

(** An argument of a formatted print. *)
Inductive Arg :=
| AInt (n : Z)
| AStr (s : string)
| AErr (e : error).

(** What an observer of the process sees, in order: the external calls with
    their results, the calls of [fmt.Printf] (standard output), of
    [log.Printf] and of [log.Fatal] (standard error), each print with its
    format and its arguments. *)
Inductive Event :=
| ECall (c : Call) (r : Response)
| EPrintf (format : string) (args : list Arg)
| ELogPrintf (format : string) (args : list Arg)
| ELogFatal (args : list Arg).

(** The outside world answers a call knowing all that happened before. *)
Definition World := list Event -> Call -> Response.

(** [reponum] is the package-level counter; [heap] holds the backing arrays
    of the slices that the program grows with [append]. *)
Record State := mkState {
  reponum : Z;
  heap : list (list string);
  trace : list Event
}.

Definition initState : State := mkState 0 [] [].

(** A computation returns or ends the process ([log.Fatal] exits with
    status 1, a run-time panic with status 2). *)
Inductive Outcome (A : Type) :=
| Return (a : A)
| Exit (status : Z).

Arguments Return {A} a.
Arguments Exit {A} status.

Definition M (A : Type) : Type := State -> Outcome A * State.

Definition ret {A : Type} (a : A) : M A := fun st => (Return a, st).

Definition bind {A B : Type} (m : M A) (k : A -> M B) : M B :=
  fun st =>
    match m st with
    | (Return a, st') => k a st'
    | (Exit c, st') => (Exit c, st')
    end.

Notation "x <- m ;; k" := (bind m (fun x => k))
  (at level 100, m at next level, right associativity).
Notation "m ;;; k" := (bind m (fun _ => k))
  (at level 100, right associativity).

Definition emit (e : Event) : M unit :=
  fun st => (Return tt, mkState (reponum st) (heap st) (trace st ++ [e])%list).

Definition panic {A : Type} : M A := fun st => (Exit 2, st).

(** [log.Fatal(args)]: the message, then [os.Exit(1)]. *)
Definition logFatal {A : Type} (args : list Arg) : M A :=
  fun st =>
    (Exit 1,
     mkState (reponum st) (heap st) (trace st ++ [ELogFatal args])%list).

Definition exitStatus {A : Type} (o : Outcome A) : Z :=
  match o with
  | Return _ => 0
  | Exit c => c
  end.

(** *** Slices *)

(** A slice header: the backing array, if any, and the length.  The program
    never reslices, so the capacity is the length of the backing array. *)
Record slice := mkSlice { ptr : option nat; len : nat }.

Definition nilSlice : slice := mkSlice None 0.

Definition backing (h : list (list string)) (s : slice) : list string :=
  match ptr s with
  | Some p => default [] (h !! p)
  | None => []
  end.

Definition cap (h : list (list string)) (s : slice) : nat :=
  length (backing h s).

(** The elements of a slice. *)
Definition elems (h : list (list string)) (s : slice) : list string :=
  take (len s) (backing h s).

(** [s[i]]. *)
Definition index (s : slice) (i : nat) : M string :=
  fun st =>
    if (i <? len s)%nat then
      match backing (heap st) s !! i with
      | Some x => (Return x, st)
      | None => (Exit 2, st)
      end
    else (Exit 2, st).

(** ** The program *)

(** [inSlise] returns true if string [el] exists in the string slice [ar]. *)
Fixpoint inSlise (el : string) (ar : list string) : bool :=
  match ar with
  | [] => false
  | a :: ar' => if String.eqb (TrimSpace a) el then true else inSlise el ar'
  end.

(** The test of [cloneRepos]: all if the [limit] slice is empty, or if [repo]
    exists in the [limit] slice. *)
Definition included (repo : string) (limit : list string) : bool :=
  (length limit =? 0)%nat || inSlise repo limit.

Definition progressFormat : string := "repo %3d: %s" ++ String LF "".

Definition mainCloneArgs (repo dir : string) : list string :=
  ["clone"; "--mirror"; "git@github.com:" ++ repo ++ ".git";
   dir ++ "/" ++ repo ++ ".git"].

Definition wikiCloneArgs (repo dir : string) : list string :=
  ["clone"; "--mirror"; "git@github.com:" ++ repo ++ ".wiki.git";
   dir ++ "/" ++ repo ++ ".wiki.git"].

Definition ghListArgs (user maxrepo : string) : list string :=
  ["repo"; "list"; user; "-L"; maxrepo].

Definition starredURL (user maxrepo : string) : string :=
  "https://api.github.com/users/" ++ user ++ "/starred?page=1&per_page="
    ++ maxrepo.

Record Flags := mkFlags {
  userslist : string;
  limitslist : string;
  output : string;
  stars : bool;
  starsonly : bool;
  maxrepo : string
}.

(** The flags that [main] declares, and their default values. *)
Definition defaultFlags : Flags := mkFlags "" "" "repos" false false "1000".

Definition commandLine (name : string) : option (GoFlag.Value Flags) :=
  if String.eqb name "users" then
    Some (GoFlag.StringVar (fun v fl =>
            mkFlags v (limitslist fl) (output fl) (stars fl) (starsonly fl)
              (maxrepo fl)))
  else if String.eqb name "limit" then
    Some (GoFlag.StringVar (fun v fl =>
            mkFlags (userslist fl) v (output fl) (stars fl) (starsonly fl)
              (maxrepo fl)))
  else if String.eqb name "output" then
    Some (GoFlag.StringVar (fun v fl =>
            mkFlags (userslist fl) (limitslist fl) v (stars fl) (starsonly fl)
              (maxrepo fl)))
  else if String.eqb name "stars" then
    Some (GoFlag.BoolVar (fun b fl =>
            mkFlags (userslist fl) (limitslist fl) (output fl) b (starsonly fl)
              (maxrepo fl)))
  else if String.eqb name "starsonly" then
    Some (GoFlag.BoolVar (fun b fl =>
            mkFlags (userslist fl) (limitslist fl) (output fl) (stars fl) b
              (maxrepo fl)))
  else if String.eqb name "maxrepo" then
    Some (GoFlag.StringVar (fun v fl =>
            mkFlags (userslist fl) (limitslist fl) (output fl) (stars fl)
              (starsonly fl) v))
  else None.

Section Program.

(** How many spare elements [append] allocates when it has to grow a slice of
    the given new length (the growth policy of the Go run time), and the
    outside world. *)
Variable slack : nat -> nat.
Variable world : World.

(** An external call: the world answers, the call and its answer are
    recorded. *)
Definition call (c : Call) : M Response :=
  fun st =>
    let r := world (trace st) c in
    (Return r,
     mkState (reponum st) (heap st) (trace st ++ [ECall c r])%list).

(** The array that [append] allocates when the capacity does not suffice:
    the elements, the new one, and the spare capacity. *)
Definition grown (h : list (list string)) (s : slice) (x : string)
  : list string :=
  (elems h s ++ x :: replicate (slack (S (len s))) "")%list.

(** [append(s, x)]: in place when the capacity allows it, which writes into
    the backing array that other slice headers may share; into a new, larger
    array otherwise, the old one being left as it is. *)
Definition append (s : slice) (x : string) : M slice :=
  fun st =>
    match ptr s with
    | Some p =>
        if (len s <? cap (heap st) s)%nat then
          (Return (mkSlice (Some p) (S (len s))),
           mkState (reponum st)
             (<[p := <[len s := x]> (backing (heap st) s)]> (heap st))
             (trace st))
        else
          (Return (mkSlice (Some (length (heap st))) (S (len s))),
           mkState (reponum st) (heap st ++ [grown (heap st) s x])%list
             (trace st))
    | None =>
        (Return (mkSlice (Some (length (heap st))) (S (len s))),
         mkState (reponum st) (heap st ++ [grown (heap st) s x])%list
           (trace st))
    end.

(** [reponum++]. *)
Definition incrReponum : M unit :=
  fun st =>
    (Return tt, mkState (wrap64 (reponum st + 1)) (heap st) (trace st)).

Definition getReponum : M Z := fun st => (Return (reponum st), st).

(** The body of the loop of [cloneRepos] for one [repo]; [repos] is the local
    variable of that name, which the body reassigns. *)
Definition cloneRepos_body (repo : string) (repos : slice)
    (limit : list string) (dir : string) : M slice :=
  if negb (included repo limit) then ret repos
  else
    incrReponum ;;;
    n <- getReponum ;;
    emit (EPrintf progressFormat [AInt n; AStr repo]) ;;;
    repos' <- append repos repo ;;
    r <- call (CmdOutput "git" (mainCloneArgs repo dir)) ;;
    match r with
    | Failure err => logFatal [AErr err]
    | Success _ =>
        _ <- call (CmdRun "git" (wikiCloneArgs repo dir)) ;;
        ret repos'
    end.

(** [for _, repo := range repos { ... }]: the range expression is evaluated
    once, at loop entry ([rng]); the element of each round is read from its
    backing array when the round starts. *)
Fixpoint cloneRepos_range (idx : list nat) (rng repos : slice)
    (limit : list string) (dir : string) : M slice :=
  match idx with
  | [] => ret repos
  | i :: idx' =>
      repo <- index rng i ;;
      repos' <- cloneRepos_body repo repos limit dir ;;
      cloneRepos_range idx' rng repos' limit dir
  end.

(** [cloneRepos] from a list of full repo names.  The result [cloned] is
    never assigned: the function returns the nil slice. *)
Definition cloneRepos (repos : slice) (limit : list string) (dir : string)
  : M slice :=
  let cloned := nilSlice in
  _ <- cloneRepos_range (seq 0 (len repos)) repos repos limit dir ;;
  ret cloned.

(** The loop of [getRepos] over the lines of the output of [gh]. *)
Fixpoint getRepos_parse (strs : list string) (repos : slice) : M slice :=
  match strs with
  | [] => ret repos
  | line :: strs' =>
      if (String.length line =? 0)%nat then getRepos_parse strs' repos
      else
        match Split line TAB with
        | w :: _ =>
            repos' <- append repos w ;;
            getRepos_parse strs' repos'
        | [] => panic
        end
  end.

(** [getRepos] gets the list of repositories and clones it. *)
Definition getRepos (dir user maxrepo : string) (limit : list string)
  : M slice :=
  r <- call (CmdOutput "gh" (ghListArgs user maxrepo)) ;;
  match r with
  | Failure err => logFatal [AErr err]
  | Success out =>
      repos <- getRepos_parse (Split out LF) nilSlice ;;
      _ <- cloneRepos repos limit dir ;;
      ret repos
  end.

(** The loop of [getStars] over the decoded array. *)
Fixpoint getStars_collect (jsonData : list starsData) (repos : slice)
  : M slice :=
  match jsonData with
  | [] => ret repos
  | d :: jsonData' =>
      repos' <- append repos (FullName d) ;;
      getStars_collect jsonData' repos'
  end.

(** [getStars] gets the list of starred repositories and clones it. *)
Definition getStars (dir user maxrepo : string) (limit : list string)
  : M slice :=
  resp <- call (HttpGet (starredURL user maxrepo)) ;;
  match resp with
  | Failure err =>
      emit (ELogPrintf "Can't get starred repos of %s: %s"
              [AStr user; AErr err]) ;;;
      ret nilSlice
  | Success _ =>
      body <- call (ReadAll (starredURL user maxrepo)) ;;
      match body with
      | Failure err =>
          emit (ELogPrintf "Can't read response body: %s" [AErr err]) ;;;
          ret nilSlice
      | Success body =>
          match Unmarshal body with
          | inr err =>
              emit (ELogPrintf
                      ("Can't parse response body to json: %s"
                         ++ String LF "%s")
                      [AErr (JsonError err); AStr body]) ;;;
              ret nilSlice
          | inl jsonData =>
              repos <- getStars_collect jsonData nilSlice ;;
              _ <- cloneRepos repos limit dir ;;
              ret repos
          end
      end
  end.

(** The body of the loop of [main] for one [user]. *)
Definition main_body (fl : Flags) (limit : list string) (user : string)
  : M unit :=
  (if negb (starsonly fl)
   then _ <- getRepos (output fl) (TrimSpace user) (maxrepo fl) limit ;; ret tt
   else ret tt) ;;;
  (if stars fl || starsonly fl
   then _ <- getStars (output fl) (TrimSpace user) (maxrepo fl) limit ;; ret tt
   else ret tt).

Fixpoint main_loop (fl : Flags) (limit : list string) (users : list string)
  : M unit :=
  match users with
  | [] => ret tt
  | user :: users' =>
      main_body fl limit user ;;;
      main_loop fl limit users'
  end.

(** The users and the limit as [main] parses them from the flags. *)
Definition parseUsers (fl : Flags) : list string := Split (userslist fl) COMMA.

Definition parseLimit (fl : Flags) : list string :=
  if negb (String.length (TrimSpace (limitslist fl)) =? 0)%nat
  then Split (limitslist fl) COMMA
  else [].

(** [main], after [flag.Parse] has filled the flags. *)
Definition main (fl : Flags) : M unit :=
  main_loop fl (parseLimit fl) (parseUsers fl).

(** [os.Exit(c)]. *)
Definition osExit {A : Type} (c : Z) : M A := fun st => (Exit c, st).

(** [main] from its first statement, on the arguments of the command line
    ([os.Args[1:]]): the flags are declared and parsed, then [main] goes on
    as above with their values.  The flag set of the command line exits on
    error: with status 0 when the usage was asked for, with status 2 on any
    other error, before anything else is done.  (What package [flag] then
    writes to standard error, the error and the usage, is not an event of
    the trace; the error is the one of [GoFlag.Parse].) *)
Definition main_of_args (args : list string) : M unit :=
  match GoFlag.Parse commandLine defaultFlags args with
  | GoFlag.Parsed fl _ => main fl
  | GoFlag.ErrHelp => osExit 0
  | GoFlag.Failed _ => osExit 2
  end.

End Program.

(** ** The program on sequences

    The same control flow with the slices replaced by the sequences of their
    elements: what the process does to the outside world does not depend on
    where the slices live.  The refinement lemmas below relate the two. *)

(** The first tab-delimited field of a line of [gh repo list]. *)
Definition firstField (line : string) : string :=
  match Split line TAB with
  | w :: _ => w
  | [] => ""
  end.

(** The repository names in the output of [gh repo list]: the first field of
    each line that is not empty. *)
Definition parsedRepos (out : string) : list string :=
  map firstField
    (List.filter (fun line => negb (String.length line =? 0)%nat)
       (Split out LF)).

Section Sequences.

Variable world : World.

Definition cloneOne (repo : string) (limit : list string) (dir : string)
  : M unit :=
  if negb (included repo limit) then ret tt
  else
    incrReponum ;;;
    n <- getReponum ;;
    emit (EPrintf progressFormat [AInt n; AStr repo]) ;;;
    r <- call world (CmdOutput "git" (mainCloneArgs repo dir)) ;;
    match r with
    | Failure err => logFatal [AErr err]
    | Success _ =>
        _ <- call world (CmdRun "git" (wikiCloneArgs repo dir)) ;;
        ret tt
    end.

Fixpoint cloneSeq (repos : list string) (limit : list string) (dir : string)
  : M unit :=
  match repos with
  | [] => ret tt
  | repo :: repos' => cloneOne repo limit dir ;;; cloneSeq repos' limit dir
  end.

Definition ownedSeq (dir user maxrepo : string) (limit : list string)
  : M (list string) :=
  r <- call world (CmdOutput "gh" (ghListArgs user maxrepo)) ;;
  match r with
  | Failure err => logFatal [AErr err]
  | Success out =>
      cloneSeq (parsedRepos out) limit dir ;;;
      ret (parsedRepos out)
  end.

Definition starredSeq (dir user maxrepo : string) (limit : list string)
  : M (list string) :=
  resp <- call world (HttpGet (starredURL user maxrepo)) ;;
  match resp with
  | Failure err =>
      emit (ELogPrintf "Can't get starred repos of %s: %s"
              [AStr user; AErr err]) ;;;
      ret []
  | Success _ =>
      body <- call world (ReadAll (starredURL user maxrepo)) ;;
      match body with
      | Failure err =>
          emit (ELogPrintf "Can't read response body: %s" [AErr err]) ;;;
          ret []
      | Success body =>
          match Unmarshal body with
          | inr err =>
              emit (ELogPrintf
                      ("Can't parse response body to json: %s"
                         ++ String LF "%s")
                      [AErr (JsonError err); AStr body]) ;;;
              ret []
          | inl jsonData =>
              cloneSeq (map FullName jsonData) limit dir ;;;
              ret (map FullName jsonData)
          end
      end
  end.

Definition bodySeq (fl : Flags) (limit : list string) (user : string)
  : M unit :=
  (if negb (starsonly fl)
   then _ <- ownedSeq (output fl) (TrimSpace user) (maxrepo fl) limit ;; ret tt
   else ret tt) ;;;
  (if stars fl || starsonly fl
   then _ <- starredSeq (output fl) (TrimSpace user) (maxrepo fl) limit ;;
        ret tt
   else ret tt).

Fixpoint loopSeq (fl : Flags) (limit : list string) (users : list string)
  : M unit :=
  match users with
  | [] => ret tt
  | user :: users' => bodySeq fl limit user ;;; loopSeq fl limit users'
  end.

Definition mainSeq (fl : Flags) : M unit :=
  loopSeq fl (parseLimit fl) (parseUsers fl).

End Sequences.

(** *** Reading a trace *)

(** The state without the store of backing arrays. *)
Definition forget (st : State) : State :=
  mkState (reponum st) [] (trace st).

Definition void {A : Type} (o : Outcome A) : Outcome unit :=
  match o with
  | Return _ => Return tt
  | Exit c => Exit c
  end.

(** The progress record that an event prints, if any: counter and
    repository. *)
Definition progressOf (e : Event) : option (Z * string) :=
  match e with
  | EPrintf _ [AInt n; AStr repo] => Some (n, repo)
  | _ => None
  end.

(** The arguments of [git] when the event is an invocation of it through
    [Output()]: these are the mirror clones of the main repositories. *)
Definition mainCloneOf (e : Event) : option (list string) :=
  match e with
  | ECall (CmdOutput "git" args) _ => Some args
  | _ => None
  end.

(** The same for [Run()]: the mirror clones of the wikis. *)
Definition wikiCloneOf (e : Event) : option (list string) :=
  match e with
  | ECall (CmdRun "git" args) _ => Some args
  | _ => None
  end.

Inductive Discovery :=
| Owned (user : string)
| Starred (url : string).

(** The discovery that an event starts, if any. *)
Definition discoveryOf (e : Event) : option Discovery :=
  match e with
  | ECall (CmdOutput "gh" ["repo"; "list"; user; "-L"; _]) _ =>
      Some (Owned user)
  | ECall (HttpGet url) _ => Some (Starred url)
  | _ => None
  end.

Definition progress (t : list Event) : list (Z * string) :=
  omap progressOf t.

Definition mainClones (t : list Event) : list (list string) :=
  omap mainCloneOf t.

Definition wikiClones (t : list Event) : list (list string) :=
  omap wikiCloneOf t.

Definition discoveries (t : list Event) : list Discovery :=
  omap discoveryOf t.

(** The trace with the results of the wiki clones blanked. *)
Definition eraseWiki (e : Event) : Event :=
  match e with
  | ECall (CmdRun name args) _ => ECall (CmdRun name args) (Success "")
  | _ => e
  end.

(** *** Worlds for the examples *)

(** Every call succeeds: [gh] prints [ghout], the response body is [body]. *)
Definition worldOK (ghout body : string) : World :=
  fun _ c =>
    match c with
    | CmdOutput "gh" _ => Success ghout
    | ReadAll _ => Success body
    | _ => Success ""
    end.

(** As [worldOK], but no repository has a wiki. *)
Definition worldNoWiki (ghout body : string) : World :=
  fun _ c =>
    match c with
    | CmdRun _ _ => Failure (ExternalError "exit status 128")
    | _ => worldOK ghout body [] c
    end.

(** As [worldOK], but the main clones fail. *)
Definition worldCloneFails (ghout body : string) : World :=
  fun _ c =>
    match c with
    | CmdOutput "git" _ => Failure (ExternalError "exit status 128")
    | _ => worldOK ghout body [] c
    end.

(** [gh] fails. *)
Definition worldGhFails : World :=
  fun _ c =>
    match c with
    | CmdOutput "gh" _ => Failure (ExternalError "exit status 1")
    | _ => Success ""
    end.

(** The HTTP request fails. *)
Definition worldHttpFails : World :=
  fun _ c =>
    match c with
    | HttpGet _ => Failure (ExternalError "no such host")
    | _ => Success ""
    end.

(** The body of the response cannot be read. *)
Definition worldReadFails : World :=
  fun _ c =>
    match c with
    | ReadAll _ => Failure (ExternalError "unexpected EOF")
    | _ => Success ""
    end.

Definition quoted (s : string) : string :=
  String DQUOTE (s ++ String DQUOTE "").

(** The two inputs of the examples of the specification. *)
Definition ghOutputExample : string :=
  "a/b" ++ String TAB "public" ++ String LF "c/d" ++ String TAB "private"
    ++ String LF (String LF "").

Definition starredBodyExample : string :=
  "[{" ++ quoted "full_name" ++ ":" ++ quoted "x/y" ++ "},{"
    ++ quoted "other" ++ ":" ++ quoted "z" ++ "},{"
    ++ quoted "full_name" ++ ":" ++ quoted "p/q" ++ "}]".

Definition noSlack : nat -> nat := fun _ => 0%nat.
Definition doubling : nat -> nat := fun n => n.

Import GoJson.

Open Scope list_scope.

(** ** Notions used by the statements *)

(** [strings.Join(l, sep)] for a one-byte separator. *)
Fixpoint Join (l : list string) (sep : ascii) : string :=
  match l with
  | [] => EmptyString
  | [w] => w
  | w :: ws => (w ++ String sep (Join ws sep))%string
  end.

(** The byte [c] occurs in [s]. *)
Fixpoint occurs (c : ascii) (s : string) : bool :=
  match s with
  | EmptyString => false
  | String d s' => Ascii.eqb d c || occurs c s'
  end.

(** [h'] keeps the arrays of [h], unchanged below index [n]. *)
Definition agreeBelow (n : nat) (h h' : list (list string)) : Prop :=
  forall q a, h !! q = Some a ->
    exists a', h' !! q = Some a' /\ take n a' = take n a.

(** A slice is well formed when its length is within its capacity. *)
Definition wfSlice (h : list (list string)) (s : slice) : Prop :=
  (len s <= cap h s)%nat.

(** The outcome of a discovery, with the elements of the slice it returns. *)
Definition outElems (h : list (list string)) (o : Outcome slice)
  : Outcome (list string) :=
  match o with
  | Return s => Return (elems h s)
  | Exit c => Exit c
  end.

(** The state with more events in its trace. *)
Definition addEvents (st : State) (evs : list Event) : State :=
  mkState (reponum st) (heap st) (trace st ++ evs).

(** The progress record that [cloneRepos] prints. *)
Definition progressEvent (n : Z) (repo : string) : Event :=
  EPrintf progressFormat [AInt n; AStr repo].

(** The external calls of the program: the mirror clone of a repository, the
    mirror clone of its wiki, the listing by [gh]. *)
Definition mainCloneCall (repo dir : string) : Call :=
  CmdOutput "git" (mainCloneArgs repo dir).

Definition wikiCloneCall (repo dir : string) : Call :=
  CmdRun "git" (wikiCloneArgs repo dir).

Definition ghCall (user maxrepo : string) : Call :=
  CmdOutput "gh" (ghListArgs user maxrepo).

(** A behaviour: the counter before, the outcome, the counter after and the
    events added to the trace. *)
Definition Behaviour := Z -> Outcome unit -> Z -> list Event -> Prop.

(** Nothing happens. *)
Inductive skipRun : Behaviour :=
| Skip n : skipRun n (Return tt) n [].

(** A behaviour, then another one unless the first ends the process. *)
Inductive seqRun (R1 R2 : Behaviour) : Behaviour :=
| SeqExit n c n' evs :
    R1 n (Exit c) n' evs -> seqRun R1 R2 n (Exit c) n' evs
| SeqNext n n1 evs1 o n' evs2 :
    R1 n (Return tt) n1 evs1 -> R2 n1 o n' evs2 ->
    seqRun R1 R2 n o n' (evs1 ++ evs2).

(** A behaviour under a flag. *)
Definition optRun (b : bool) (R : Behaviour) : Behaviour :=
  if b then R else skipRun.

(** One round of the loop of [cloneRepos]. *)
Inductive cloneOneRun (limit : list string) (dir repo : string) : Behaviour :=
| CloneSkipped n :
    included repo limit = false ->
    cloneOneRun limit dir repo n (Return tt) n []
| CloneDone n out w :
    included repo limit = true ->
    cloneOneRun limit dir repo n (Return tt) (wrap64 (n + 1))
      [progressEvent (wrap64 (n + 1)) repo;
       ECall (mainCloneCall repo dir) (Success out);
       ECall (wikiCloneCall repo dir) w]
| CloneFatal n e :
    included repo limit = true ->
    cloneOneRun limit dir repo n (Exit 1) (wrap64 (n + 1))
      [progressEvent (wrap64 (n + 1)) repo;
       ECall (mainCloneCall repo dir) (Failure e);
       ELogFatal [AErr e]].

(** [cloneRepos] on a sequence of repositories. *)
Fixpoint cloneRun (limit : list string) (dir : string) (repos : list string)
  : Behaviour :=
  match repos with
  | [] => skipRun
  | repo :: repos' =>
      seqRun (cloneOneRun limit dir repo) (cloneRun limit dir repos')
  end.

(** [getRepos]: the listing fails, or it succeeds and its repositories are
    cloned. *)
Inductive ownedRun (dir user maxrepo : string) (limit : list string)
  : Behaviour :=
| OwnedFatal n e :
    ownedRun dir user maxrepo limit n (Exit 1) n
      [ECall (ghCall user maxrepo) (Failure e); ELogFatal [AErr e]]
| OwnedListed n out o n' evs :
    cloneRun limit dir (parsedRepos out) n o n' evs ->
    ownedRun dir user maxrepo limit n o n'
      (ECall (ghCall user maxrepo) (Success out) :: evs).

(** [getStars]: one of the three errors, or the repositories of the decoded
    array are cloned. *)
Inductive starredRun (dir user maxrepo : string) (limit : list string)
  : Behaviour :=
| StarredHttpError n e :
    starredRun dir user maxrepo limit n (Return tt) n
      [ECall (HttpGet (starredURL user maxrepo)) (Failure e);
       ELogPrintf "Can't get starred repos of %s: %s" [AStr user; AErr e]]
| StarredReadError n x e :
    starredRun dir user maxrepo limit n (Return tt) n
      [ECall (HttpGet (starredURL user maxrepo)) (Success x);
       ECall (ReadAll (starredURL user maxrepo)) (Failure e);
       ELogPrintf "Can't read response body: %s" [AErr e]]
| StarredJsonError n x body e :
    Unmarshal body = inr e ->
    starredRun dir user maxrepo limit n (Return tt) n
      [ECall (HttpGet (starredURL user maxrepo)) (Success x);
       ECall (ReadAll (starredURL user maxrepo)) (Success body);
       ELogPrintf
         ("Can't parse response body to json: %s" ++ String LF "%s")%string
         [AErr (JsonError e); AStr body]]
| StarredListed n x body jsonData o n' evs :
    Unmarshal body = inl jsonData ->
    cloneRun limit dir (map FullName jsonData) n o n' evs ->
    starredRun dir user maxrepo limit n o n'
      (ECall (HttpGet (starredURL user maxrepo)) (Success x)
         :: ECall (ReadAll (starredURL user maxrepo)) (Success body) :: evs).

(** A round of the loop of [main], the loop, and [main]. *)
Definition bodyRun (fl : Flags) (limit : list string) (user : string)
  : Behaviour :=
  seqRun
    (optRun (negb (starsonly fl))
       (ownedRun (output fl) (TrimSpace user) (maxrepo fl) limit))
    (optRun (stars fl || starsonly fl)
       (starredRun (output fl) (TrimSpace user) (maxrepo fl) limit)).

Fixpoint loopRun (fl : Flags) (limit : list string) (users : list string)
  : Behaviour :=
  match users with
  | [] => skipRun
  | user :: users' => seqRun (bodyRun fl limit user) (loopRun fl limit users')
  end.

Definition mainRun (fl : Flags) : Behaviour :=
  loopRun fl (parseLimit fl) (parseUsers fl).

(** A computation has a behaviour when each of its runs is one: it leaves the
    store of arrays alone, adds events to the trace, and counter, outcome and
    events are as the behaviour says. *)
Definition behaves {A : Type} (m : M A) (R : Behaviour) : Prop :=
  forall st, exists o n' evs,
    m st = (o, mkState n' (heap st) (trace st ++ evs))
    /\ R (reponum st) (void o) n' evs.

(** The events of a starred discovery before the clones: the HTTP request,
    the reading of the body and the log messages. *)
Definition isQuiet (e : Event) : bool :=
  match e with
  | ECall (HttpGet _) _ | ECall (ReadAll _) _ | ELogPrintf _ _ => true
  | _ => false
  end.

(** An invocation through [Output()] that failed. *)
Definition isFailedOutput (e : Event) : bool :=
  match e with
  | ECall (CmdOutput _ _) (Failure _) => true
  | _ => false
  end.

(** A run either returns without any failed [Output()], or exits with status
    1 right after the first one and the [log.Fatal] that reports it. *)
Inductive fatalShape : Outcome unit -> list Event -> Prop :=
| FatalNone evs :
    Forall (fun e => isFailedOutput e = false) evs ->
    fatalShape (Return tt) evs
| FatalLast evs name args e :
    Forall (fun e => isFailedOutput e = false) evs ->
    fatalShape (Exit 1)
      (evs ++ [ECall (CmdOutput name args) (Failure e); ELogFatal [AErr e]]).

(** The values that [k] increments give to a counter that starts at [n]. *)
Fixpoint countersFrom (n : Z) (k : nat) : list Z :=
  match k with
  | O => []
  | S k' => wrap64 (n + 1) :: countersFrom (wrap64 (n + 1)) k'
  end.

(** The counter after [k] increments. *)
Fixpoint bump (n : Z) (k : nat) : Z :=
  match k with
  | O => n
  | S k' => bump (wrap64 (n + 1)) k'
  end.

(** The counters printed are consecutive from the counter at the start, the
    counter at the end is the last of them, and the records printed are those
    of the main clones invoked. *)
Definition tallyInv (dir : string) (n : Z) (n' : Z) (evs : list Event)
  : Prop :=
  map fst (progress evs) = countersFrom n (length (progress evs))
  /\ n' = bump n (length (progress evs))
  /\ map (fun p => mainCloneArgs (snd p) dir) (progress evs) = mainClones evs.

(** The projection [f] of the events is a prefix of the plan, and the whole
    plan when the run returns. *)
Definition follows {X : Type} (f : Event -> option X) (plan : list X)
    (o : Outcome unit) (evs : list Event) : Prop :=
  omap f evs `prefix_of` plan /\ (o = Return tt -> omap f evs = plan).

(** The main clones that [cloneRepos] is to invoke. *)
Definition clonePlan (limit : list string) (dir : string)
    (repos : list string) : list (list string) :=
  map (fun repo => mainCloneArgs repo dir)
    (List.filter (fun repo => included repo limit) repos).

(** The discoveries that [main] is to start for an account: the owned one
    unless [starsonly], then the starred one if [stars] or [starsonly]. *)
Definition discoveryPlanFor (fl : Flags) (user : string) : list Discovery :=
  (if negb (starsonly fl) then [Owned (TrimSpace user)] else [])
  ++ (if stars fl || starsonly fl
      then [Starred (starredURL (TrimSpace user) (maxrepo fl))] else []).

(** The same for all the accounts of the flags, in order. *)
Definition discoveryPlan (fl : Flags) : list Discovery :=
  concat (map (discoveryPlanFor fl) (parseUsers fl)).

(** The calls of [Run()]: the wiki clones. *)
Definition isWikiCall (c : Call) : bool :=
  match c with
  | CmdRun _ _ => true
  | _ => false
  end.

(** Two worlds that answer alike every call but the wiki clones, whose results
    they let no other answer depend on. *)
Definition sameButWiki (w1 w2 : World) : Prop :=
  forall t1 t2 c,
    isWikiCall c = false ->
    map eraseWiki t1 = map eraseWiki t2 ->
    w1 t1 c = w2 t2 c.

(** Two states with the same counter and, up to the results of the wiki
    clones, the same trace. *)
Definition alike (st1 st2 : State) : Prop :=
  reponum st1 = reponum st2
  /\ map eraseWiki (trace st1) = map eraseWiki (trace st2).

(** Two runs with the same outcome that end in states alike. *)
Definition alikeRuns {A B : Type} (r1 : Outcome A * State)
    (r2 : Outcome B * State) : Prop :=
  void (fst r1) = void (fst r2) /\ alike (snd r1) (snd r2).

(** No mirror clone into [dir] fails. *)
Definition mainClonesSucceed (world : World) (dir : string) : Prop :=
  forall t repo, exists out, world t (mainCloneCall repo dir) = Success out.

(** No invocation through [Output()] fails: [gh] lists and [git] clones. *)
Definition outputsSucceed (world : World) : Prop :=
  forall t name args, exists out, world t (CmdOutput name args) = Success out.

(** A computation that returns from every state. *)
Definition returns {A : Type} (m : M A) : Prop :=
  forall st, exists a, fst (m st) = Return a.

(** Two accounts, their owned and their starred repositories. *)
Definition flagsExample : Flags :=
  mkFlags "u, v" "" "repos" true false "1000".

(** The wiki clones that [cloneRepos] is to invoke. *)
Definition wikiPlan (limit : list string) (dir : string)
    (repos : list string) : list (list string) :=
  map (fun repo => wikiCloneArgs repo dir)
    (List.filter (fun repo => included repo limit) repos).

(** A slice of two elements in an array of four: the rounds append in
    place. *)
Definition roomyState : State := mkState 0 [["a/b"; "c/d"; ""; ""]] [].
Definition twoRepos : slice := mkSlice (Some 0%nat) 2.

(** The three messages of [getStars]. *)
Definition httpErrorLog (user : string) (e : error) : Event :=
  ELogPrintf "Can't get starred repos of %s: %s" [AStr user; AErr e].

Definition readErrorLog (e : error) : Event :=
  ELogPrintf "Can't read response body: %s" [AErr e].

Definition jsonErrorLog (e : jsonError) (body : string) : Event :=
  ELogPrintf ("Can't parse response body to json: %s" ++ String LF "%s")%string
    [AErr (JsonError e); AStr body].

(** Two accounts, their starred repositories only. *)
Definition starsOnlyExample : Flags :=
  mkFlags "u,v" "" "repos" false true "1000".

(** A world in which a mirror clone fails when the same clone has been made
    before: its destination exists. *)
Definition alreadyCloned (t : list Event) (args : list string) : bool :=
  existsb
    (fun e =>
       match e with
       | ECall (CmdOutput "git" args') (Success _) => bool_decide (args' = args)
       | _ => false
       end) t.

Definition worldOnce : World :=
  fun t c =>
    match c with
    | CmdOutput "git" args =>
        if alreadyCloned t args
        then Failure (ExternalError "exit status 128")
        else Success ""
    | _ => Success ""
    end.

(** A slice in which a/b occurs twice. *)
Definition threeRepos : slice := mkSlice (Some 0%nat) 3.
Definition repeatedState : State := mkState 0 [["a/b"; "a/b"; "c/d"]] [].

Definition limitExample : Flags :=
  mkFlags "u" " a/b ,c/d" "repos" false false "1000".

(** The arguments [-users "u, v" -stars] of the command line. *)
Definition argsExample : list string := ["-users"; "u, v"; "-stars"]%string.

(** In a stretch of the trace, every invocation through [Run()] is the wiki
    clone of a repository and comes right after the progress record and the
    successful mirror clone of that repository. *)
Definition wikiAfterMain (dir : string) (evs : list Event) : Prop :=
  forall t1 name args w t2,
    evs = t1 ++ ECall (CmdRun name args) w :: t2 ->
    exists t0 n repo out,
      t1 = t0 ++ [progressEvent n repo;
                  ECall (mainCloneCall repo dir) (Success out)]
      /\ name = "git"%string /\ args = wikiCloneArgs repo dir.

(** In a stretch of the trace, every successful mirror clone is followed at
    once by the wiki clone of the same repository. *)
Definition mainBeforeWiki (dir : string) (evs : list Event) : Prop :=
  forall t1 repo out t2,
    evs = t1 ++ ECall (mainCloneCall repo dir) (Success out) :: t2 ->
    exists w t2', t2 = ECall (wikiCloneCall repo dir) w :: t2'.

(** A stretch without any invocation through [Run()] nor of [git]. *)
Definition noGit (evs : list Event) : Prop :=
  Forall (fun e => forall name args r,
            e <> ECall (CmdRun name args) r
            /\ e <> ECall (CmdOutput "git" args) r) evs.

(** The repositories that an event of the trace lists: the parsed output of a
    successful [gh repo list], the names of a body that was read and
    decoded. *)
Definition listedOf (e : Event) : list string :=
  match e with
  | ECall (CmdOutput "gh" _) (Success out) => parsedRepos out
  | ECall (ReadAll _) (Success body) =>
      match Unmarshal body with
      | inl jsonData => map FullName jsonData
      | inr _ => []
      end
  | _ => []
  end.

(** The mirror clones that the listings of a trace call for: for each listing
    in turn, its included repositories in order, repeated ones included. *)
Definition clonesDue (limit : list string) (dir : string) (t : list Event)
  : list (list string) :=
  concat (map (fun e => clonePlan limit dir (listedOf e)) t).

(** * Properties *)

(** ** The library functions *)

Lemma Split_not_nil s sep : Split s sep <> [].
Proof.
  destruct s as [|c s]; simpl; [done|].
  destruct (Ascii.eqb c sep); [done|]. by destruct (Split s sep).
Qed.

(** [Split] cuts at every separator and nowhere else: joining the pieces with
    the separator gives the string back, and no piece holds a separator. *)
Lemma Join_Split s sep : Join (Split s sep) sep = s.
Proof.
  induction s as [|c s IH]; simpl; [done|].
  destruct (Ascii.eqb c sep) eqn:E.
  - apply Ascii.eqb_eq in E as ->. rewrite <- IH at 2.
    pose proof (Split_not_nil s sep). by destruct (Split s sep).
  - pose proof (Split_not_nil s sep) as Hne. rewrite <- IH at 2.
    destruct (Split s sep) as [|w [|w' ws]]; done.
Qed.

Lemma Split_pieces s sep :
  Forall (fun w => occurs sep w = false) (Split s sep).
Proof.
  induction s as [|c s IH]; simpl; [by repeat constructor|].
  destruct (Ascii.eqb c sep) eqn:E.
  - by constructor.
  - destruct (Split s sep) as [|w ws]; [by repeat constructor; simpl; rewrite E|].
    apply Forall_cons in IH as [Hw Hws]. constructor; [|done].
    simpl. by rewrite E.
Qed.

Example Split_lines :
  Split ghOutputExample LF
  = [("a/b" ++ String TAB "public")%string;
     ("c/d" ++ String TAB "private")%string; ""; ""].
Proof. reflexivity. Qed.

Example Split_of_nothing : Split "" COMMA = [""].
Proof. reflexivity. Qed.

Example TrimSpace_both_ends :
  TrimSpace (String TAB "  a b " ++ String LF "")%string = "a b".
Proof. reflexivity. Qed.

(** A no-break space (C2 A0) in front and an en quad (E2 80 80) behind. *)
Example TrimSpace_unicode :
  TrimSpace (String (ascii_of_N 194) (String (ascii_of_N 160) "x")
               ++ String (ascii_of_N 226)
                    (String (ascii_of_N 128) (String (ascii_of_N 128) "")))%string
  = "x".
Proof. reflexivity. Qed.

Example TrimSpace_blank : TrimSpace "   " = "".
Proof. reflexivity. Qed.

Example parse_values :
  parse (" [1, -0.5e+10, true , null, [] , {}, [[[]]], {"
           ++ quoted "k" ++ " : [ ] } ] ")%string
  = Some (Array [Number "1"; Number "-0.5e+10"; Bool true; Null; Array [];
                 Object []; Array [Array [Array []]];
                 Object [("k", Array [])]]).
Proof. by vm_compute. Qed.

Example parse_refuses :
  parse "[1,]" = None /\ parse "01" = None /\ parse "1." = None
  /\ parse "" = None /\ parse "nul" = None /\ parse "[] x" = None
  /\ parse "-" = None /\ parse ("{" ++ quoted "a" ++ ":1,}")%string = None.
Proof. by vm_compute. Qed.

(** Escapes are decoded, a surrogate pair gives one code point (here U+1F600,
    F0 9F 98 80), a lone surrogate the replacement character (EF BF BD), and a
    byte that is not UTF-8 (here FF) as well. *)
Example parse_escapes :
  parse (quoted ("a\n\u00e9\ud83d\ude00\ud83dz\/"
                   ++ String (ascii_of_N 255) ""))%string
  = Some (Str ("a" ++ String LF
                 (String (ascii_of_N 195) (String (ascii_of_N 169)
                 (String (ascii_of_N 240) (String (ascii_of_N 159)
                 (String (ascii_of_N 152) (String (ascii_of_N 128)
                 (String (ascii_of_N 239) (String (ascii_of_N 191)
                 (String (ascii_of_N 189) ("z/"
                 ++ String (ascii_of_N 239) (String (ascii_of_N 191)
                 (String (ascii_of_N 189) "")))))))))))))%string).
Proof. by vm_compute. Qed.

Example Unmarshal_examples :
  Unmarshal "null" = inl []
  /\ Unmarshal "[]" = inl []
  /\ Unmarshal "[null]" = inl [mkStarsData ""]
  /\ Unmarshal ("[{" ++ quoted "Full_Name" ++ ":" ++ quoted "x/y" ++ ","
                  ++ quoted "full_name" ++ ":null}]")%string
     = inl [mkStarsData "x/y"]
  /\ Unmarshal ("[{" ++ quoted "full_name" ++ ":1}]")%string
     = inr UnmarshalTypeError
  /\ Unmarshal ("{" ++ quoted "message" ++ ":" ++ quoted "Not Found" ++ "}")%string
     = inr UnmarshalTypeError
  /\ Unmarshal "[3]" = inr UnmarshalTypeError
  /\ Unmarshal "" = inr SyntaxError
  /\ Unmarshal "<html>" = inr SyntaxError.
Proof. by vm_compute. Qed.

Example Parse_examples :
  GoFlag.Parse commandLine defaultFlags [] = GoFlag.Parsed defaultFlags []
  /\ GoFlag.Parse commandLine defaultFlags ["-users=u, v"; "-stars"]%string
     = GoFlag.Parsed (mkFlags "u, v" "" "repos" true false "1000") []
  /\ GoFlag.Parse commandLine defaultFlags
       ["-users"; "u"; "--stars=0"; "-starsonly"; "false"; "-limit"; "x"]%string
     = GoFlag.Parsed (mkFlags "u" "" "repos" false true "1000")
         ["false"; "-limit"; "x"]%string
  /\ GoFlag.Parse commandLine defaultFlags ["-users"; "-limit"]%string
     = GoFlag.Parsed (mkFlags "-limit" "" "repos" false false "1000") []
  /\ GoFlag.Parse commandLine defaultFlags ["--"; "-users"; "u"]%string
     = GoFlag.Parsed defaultFlags ["-users"; "u"]%string
  /\ GoFlag.Parse commandLine defaultFlags ["-"; "-users"; "u"]%string
     = GoFlag.Parsed defaultFlags ["-"; "-users"; "u"]%string
  /\ GoFlag.Parse commandLine defaultFlags ["-stars=maybe"]%string
     = GoFlag.Failed (GoFlag.InvalidBool "maybe" "stars")
  /\ GoFlag.Parse commandLine defaultFlags ["-users"]%string
     = GoFlag.Failed (GoFlag.NeedsArgument "users")
  /\ GoFlag.Parse commandLine defaultFlags ["-x"]%string
     = GoFlag.Failed (GoFlag.NotDefined "x")
  /\ GoFlag.Parse commandLine defaultFlags ["---x"]%string
     = GoFlag.Failed (GoFlag.BadSyntax "---x")
  /\ GoFlag.Parse commandLine defaultFlags ["-users"; "u"; "-h"]%string
     = GoFlag.ErrHelp
  /\ GoFlag.Parse commandLine defaultFlags ["--help=no"]%string
     = GoFlag.ErrHelp.
Proof. by vm_compute. Qed.

(** ** Slices and [append] *)

Lemma agreeBelow_refl n h : agreeBelow n h h.
Proof. intros q a Hq. eauto. Qed.

Lemma agreeBelow_trans n h1 h2 h3 :
  agreeBelow n h1 h2 -> agreeBelow n h2 h3 -> agreeBelow n h1 h3.
Proof.
  intros H12 H23 q a Hq.
  destruct (H12 q a Hq) as (a2 & Hq2 & E2).
  destruct (H23 q a2 Hq2) as (a3 & Hq3 & E3).
  exists a3. split; [done | congruence].
Qed.

Lemma agreeBelow_le n m h h' :
  (m <= n)%nat -> agreeBelow n h h' -> agreeBelow m h h'.
Proof.
  intros Hle H q a Hq. destruct (H q a Hq) as (a' & Hq' & E).
  exists a'. split; [done |].
  apply (f_equal (take m)) in E. rewrite !take_take in E.
  by replace (m `min` n)%nat with m in E by lia.
Qed.

Lemma agreeBelow_backing n h h' s i :
  agreeBelow n h h' -> (i < n)%nat -> is_Some (backing h s !! i) ->
  backing h' s !! i = backing h s !! i.
Proof.
  intros H Hi [x Hx]. unfold backing in *. 
  destruct (ptr s) as [p|]; [|done].
  destruct (h !! p) as [a|] eqn:Hp; [|done].
  destruct (H p a Hp) as (a' & Hp' & E). rewrite Hp'. simpl in *.
  rewrite <- (lookup_take_lt a' n i), <- (lookup_take_lt a n i) by done.
  by rewrite E.
Qed.

Lemma agreeBelow_elems h h' s :
  agreeBelow (len s) h h' -> wfSlice h s -> 
  elems h' s = elems h s /\ wfSlice h' s.
Proof.
  unfold wfSlice, elems, cap, backing. intros H Hwf.
  destruct (ptr s) as [p|]; [| done].
  destruct (h !! p) as [a|] eqn:Hp.
  - destruct (H p a Hp) as (a' & Hp' & E). rewrite Hp'. simpl in *.
    split; [done|]. apply (f_equal length) in E. rewrite !length_take in E. lia.
  - simpl in *. assert (len s = 0)%nat as -> by lia. split; [by rewrite !take_0 | lia].
Qed.

Section AppendFacts.
Variable slack : nat -> nat.

Lemma backing_insert h p a n :
  (p < length h)%nat -> backing (<[p:=a]> h) (mkSlice (Some p) n) = a.
Proof. intros Hp. unfold backing. simpl. by rewrite list_lookup_insert_eq. Qed.

Lemma backing_alloc h a n :
  backing (h ++ [a]) (mkSlice (Some (length h)) n) = a.
Proof. unfold backing. simpl. by rewrite lookup_app_r, Nat.sub_diag by lia. Qed.

Lemma agreeBelow_alloc n h a : agreeBelow n h (h ++ [a]).
Proof.
  intros q b Hq. exists b. split; [|done].
  rewrite lookup_app_l; [done | by eapply lookup_lt_Some].
Qed.

Lemma elems_grown h s x :
  wfSlice h s ->
  take (S (len s)) (grown slack h s x) = elems h s ++ [x]
  /\ (S (len s) <= length (grown slack h s x))%nat.
Proof.
  unfold wfSlice, grown, cap, elems. intros Hwf.
  assert (length (take (len s) (backing h s)) = len s) as Hl
    by (rewrite length_take; lia).
  split.
  - rewrite take_app_ge by lia. rewrite Hl.
    replace (S (len s) - len s)%nat with 1%nat by lia. done.
  - rewrite length_app, Hl. simpl. lia.
Qed.

Lemma append_spec s x st :
  exists s' h',
    append slack s x st = (Return s', mkState (reponum st) h' (trace st))
    /\ len s' = S (len s)
    /\ agreeBelow (len s) (heap st) h'
    /\ (wfSlice (heap st) s ->
        wfSlice h' s' /\ elems h' s' = elems (heap st) s ++ [x]).
Proof.
  unfold append. destruct (ptr s) as [p|] eqn:Hptr.
  - destruct (len s <? cap (heap st) s)%nat eqn:Hlt.
    + apply Nat.ltb_lt in Hlt. eexists _, _. split; [reflexivity|].
      split; [done|].
      assert (heap st !! p = Some (backing (heap st) s)) as Hp.
      { unfold cap, backing in *. rewrite Hptr in *.
        destruct (heap st !! p); [done | simpl in Hlt; lia]. }
      unfold cap in Hlt. set (a := backing (heap st) s) in *.
      assert (p < length (heap st))%nat as Hpl by (by eapply lookup_lt_Some).
      split.
      * intros q b Hq. destruct (decide (q = p)) as [->|Hne].
        -- rewrite list_lookup_insert_eq by done.
           eexists. split; [done|]. rewrite take_insert_ge by lia. congruence.
        -- rewrite list_lookup_insert_ne by done. eauto.
      * intros _. unfold wfSlice, elems, cap. rewrite backing_insert by done.
        simpl. rewrite length_insert. split; [lia|].
        erewrite take_S_r by (by apply list_lookup_insert_eq).
        by rewrite take_insert_ge by lia.
    + eexists _, _. split; [reflexivity|]. split; [done|].
      split; [apply agreeBelow_alloc|]. intros Hwf.
      unfold wfSlice, elems, cap. rewrite backing_alloc. simpl.
      destruct (elems_grown (heap st) s x Hwf). done.
  - eexists _, _. split; [reflexivity|]. split; [done|].
    split; [apply agreeBelow_alloc|]. intros Hwf.
    unfold wfSlice, elems, cap. rewrite backing_alloc. simpl.
    destruct (elems_grown (heap st) s x Hwf). done.
Qed.
End AppendFacts.

(** ** The program and the program on sequences *)

Lemma bind_run {A B : Type} (m : M A) (k : A -> M B) st o st' :
  m st = (o, st') ->
  bind m k st = match o with
                | Return a => k a st'
                | Exit c => (Exit c, st')
                end.
Proof. intros H. unfold bind. by rewrite H. Qed.

Section Refinement.
Variable slack : nat -> nat.
Variable world : World.

Lemma getRepos_parse_spec strs : forall repos st,
  wfSlice (heap st) repos ->
  exists s' h',
    getRepos_parse slack strs repos st
      = (Return s', mkState (reponum st) h' (trace st))
    /\ wfSlice h' s'
    /\ elems h' s' = elems (heap st) repos
         ++ map firstField
              (List.filter (fun line => negb (String.length line =? 0)%nat) strs)
    /\ agreeBelow (len repos) (heap st) h'.
Proof.
  induction strs as [|line strs IH]; intros repos st Hwf; simpl.
  - exists repos, (heap st). destruct st. simpl. rewrite app_nil_r.
    split; [done|]. split; [done|]. split; [done|]. apply agreeBelow_refl.
  - destruct (String.length line =? 0)%nat; simpl; [by apply IH|].
    unfold firstField. destruct (Split line TAB) as [|w ws] eqn:Hs.
    { by destruct (Split_not_nil line TAB). }
    destruct (append_spec slack repos w st) as (s1 & h1 & Happ & Hlen & Hag & Hel).
    destruct (Hel Hwf) as [Hwf1 Hel1].
    unfold bind. rewrite Happ.
    destruct (IH s1 (mkState (reponum st) h1 (trace st)) Hwf1)
      as (s' & h' & Hrun & Hwf' & Hel' & Hag').
    simpl in *. exists s', h'. split; [done|]. split; [done|]. split.
    + rewrite Hel', Hel1, <- app_assoc. done.
    + eapply agreeBelow_trans; [exact Hag|].
      eapply agreeBelow_le; [|exact Hag']. lia.
Qed.

Lemma getStars_collect_spec jsonData : forall repos st,
  wfSlice (heap st) repos ->
  exists s' h',
    getStars_collect slack jsonData repos st
      = (Return s', mkState (reponum st) h' (trace st))
    /\ wfSlice h' s'
    /\ elems h' s' = elems (heap st) repos ++ map FullName jsonData
    /\ agreeBelow (len repos) (heap st) h'.
Proof.
  induction jsonData as [|d ds IH]; intros repos st Hwf; simpl.
  - exists repos, (heap st). destruct st. simpl. rewrite app_nil_r.
    split; [done|]. split; [done|]. split; [done|]. apply agreeBelow_refl.
  - destruct (append_spec slack repos (FullName d) st)
      as (s1 & h1 & Happ & Hlen & Hag & Hel).
    destruct (Hel Hwf) as [Hwf1 Hel1].
    unfold bind. rewrite Happ.
    destruct (IH s1 (mkState (reponum st) h1 (trace st)) Hwf1)
      as (s' & h' & Hrun & Hwf' & Hel' & Hag').
    simpl in *. exists s', h'. split; [done|]. split; [done|]. split.
    + rewrite Hel', Hel1, <- app_assoc. done.
    + eapply agreeBelow_trans; [exact Hag|].
      eapply agreeBelow_le; [|exact Hag']. lia.
Qed.

Lemma cloneRepos_body_sim repo repos limit dir st :
  exists o st',
    cloneRepos_body slack world repo repos limit dir st = (o, st')
    /\ cloneOne world repo limit dir (forget st) = (void o, forget st')
    /\ agreeBelow (len repos) (heap st) (heap st')
    /\ (forall s, o = Return s -> (len repos <= len s)%nat).
Proof.
  unfold cloneRepos_body, cloneOne.
  destruct (included repo limit); simpl.
  2:{ eexists _, _. split; [reflexivity|]. split; [reflexivity|].
      split; [apply agreeBelow_refl|]. intros s [= <-]. lia. }
  unfold bind, incrReponum, getReponum, emit, call. simpl.
  match goal with |- context [append slack repos repo ?st1] =>
    destruct (append_spec slack repos repo st1)
      as (s1 & h1 & Happ & Hlen & Hag & _) end.
  rewrite Happ. simpl in *.
  match goal with |- context [world ?t ?c] => destruct (world t c) as [out|err] end.
  - simpl. eexists _, _. split; [reflexivity|]. split; [reflexivity|].
    split; [done|]. intros s [= <-]. lia.
  - simpl. unfold logFatal. simpl. eexists _, _. split; [reflexivity|].
    split; [reflexivity|]. split; [done|]. intros s [=].
Qed.

Lemma cloneRepos_range_sim limit dir l : forall i rng repos st,
  (forall j x, l !! j = Some x -> backing (heap st) rng !! (i + j)%nat = Some x) ->
  (i + length l = len rng)%nat ->
  (len rng <= len repos)%nat ->
  exists o st',
    cloneRepos_range slack world (seq i (length l)) rng repos limit dir st
      = (o, st')
    /\ cloneSeq world l limit dir (forget st) = (void o, forget st')
    /\ agreeBelow (len rng) (heap st) (heap st').
Proof.
  induction l as [|x l IH]; intros i rng repos st Hread Hlen Hle; simpl.
  - eexists _, _. split; [reflexivity|]. split; [reflexivity|].
    apply agreeBelow_refl.
  - simpl in Hlen. unfold bind at 1. unfold index.
    assert ((i <? len rng)%nat = true) as -> by (apply Nat.ltb_lt; lia).
    pose proof (Hread 0%nat x eq_refl) as H0. rewrite Nat.add_0_r in H0.
    rewrite H0.
    destruct (cloneRepos_body_sim x repos limit dir st)
      as (o1 & st1 & Hb & Hs & Hag & Hlen1).
    rewrite (bind_run _ _ _ _ _ Hb), (bind_run _ _ _ _ _ Hs).
    destruct o1 as [repos1|c]; simpl.
    + specialize (Hlen1 repos1 eq_refl).
      destruct (IH (S i) rng repos1 st1) as (o & st' & Hr & Hs' & Hag').
      * intros j y Hj. rewrite <- (Hread (S j) y Hj).
        replace (i + S j)%nat with (S i + j)%nat by lia.
        apply agreeBelow_backing with (n := len rng).
        -- eapply agreeBelow_le; [|exact Hag]. lia.
        -- apply lookup_lt_Some in Hj. lia.
        -- exists y. rewrite <- (Hread (S j) y Hj). f_equal. lia.
      * lia.
      * lia.
      * exists o, st'. split; [done|]. split; [done|].
        eapply agreeBelow_trans; [|exact Hag'].
        eapply agreeBelow_le; [|exact Hag]. lia.
    + eexists _, _. split; [reflexivity|]. split; [reflexivity|].
      eapply agreeBelow_le; [|exact Hag]. lia.
Qed.

Lemma bind_call {B : Type} c (k : Response -> M B) st :
  bind (call world c) k st
  = k (world (trace st) c)
      (mkState (reponum st) (heap st)
         (trace st ++ [ECall c (world (trace st) c)])).
Proof. reflexivity. Qed.

Lemma bind_emit {B : Type} e (k : unit -> M B) st :
  bind (emit e) k st
  = k tt (mkState (reponum st) (heap st) (trace st ++ [e])).
Proof. reflexivity. Qed.

Lemma cloneRepos_sim repos limit dir st :
  wfSlice (heap st) repos ->
  exists o st',
    cloneRepos slack world repos limit dir st = (o, st')
    /\ cloneSeq world (elems (heap st) repos) limit dir (forget st)
        = (void o, forget st')
    /\ agreeBelow (len repos) (heap st) (heap st')
    /\ (forall s, o = Return s -> s = nilSlice).
Proof.
  intros Hwf. unfold cloneRepos.
  assert (length (elems (heap st) repos) = len repos) as Hl.
  { unfold elems. rewrite length_take. unfold wfSlice, cap in Hwf. lia. }
  destruct (cloneRepos_range_sim limit dir (elems (heap st) repos) 0 repos
              repos st) as (o & st' & Hr & Hs & Hag).
  - intros j x Hj. simpl. unfold elems in Hj.
    apply lookup_take_Some in Hj. tauto.
  - simpl. done.
  - lia.
  - rewrite Hl in Hr. rewrite (bind_run _ _ _ _ _ Hr).
    destruct o as [s|c]; simpl in *.
    + eexists _, _. split; [reflexivity|]. split; [done|]. split; [done|].
      by intros ? [= <-].
    + eexists _, _. split; [reflexivity|]. split; [done|]. split; [done|].
      by intros ? [=].
Qed.

Lemma mirror_sim repos limit dir st l :
  wfSlice (heap st) repos -> elems (heap st) repos = l ->
  exists o st',
    (_ <- cloneRepos slack world repos limit dir ;; ret repos) st = (o, st')
    /\ (cloneSeq world l limit dir ;;; ret l) (forget st)
        = (outElems (heap st') o, forget st').
Proof.
  intros Hwf <-.
  destruct (cloneRepos_sim repos limit dir st Hwf)
    as (o & st' & Hr & Hs & Hag & _).
  rewrite (bind_run _ _ _ _ _ Hr), (bind_run _ _ _ _ _ Hs).
  destruct o as [s|c]; simpl.
  - eexists _, _. split; [reflexivity|]. unfold ret. simpl.
    by destruct (agreeBelow_elems _ _ _ Hag Hwf) as [-> _].
  - eexists _, _. split; [reflexivity|]. done.
Qed.

Lemma wfSlice_nil h : wfSlice h nilSlice.
Proof. unfold wfSlice. simpl. lia. Qed.

Lemma elems_nil h : elems h nilSlice = [].
Proof. done. Qed.

Lemma getRepos_sim dir user maxrepo limit st :
  exists o st',
    getRepos slack world dir user maxrepo limit st = (o, st')
    /\ ownedSeq world dir user maxrepo limit (forget st)
        = (outElems (heap st') o, forget st').
Proof.
  unfold getRepos, ownedSeq. rewrite !bind_call. simpl.
  destruct (world (trace st) _) as [out|err]; simpl.
  - match goal with |- context [bind (getRepos_parse slack ?strs nilSlice) _ ?st1] =>
      destruct (getRepos_parse_spec strs nilSlice st1 (wfSlice_nil _))
        as (s1 & h1 & Hp & Hwf1 & Hel1 & _) end.
    rewrite (bind_run _ _ _ _ _ Hp). simpl in *.
    match goal with |- context [bind (cloneRepos _ _ _ _ _) _ ?st2] =>
      destruct (mirror_sim s1 limit dir st2 (parsedRepos out) Hwf1 Hel1)
        as (o & st' & Hr & Hs) end.
    exists o, st'. split; [done|]. exact Hs.
  - unfold logFatal. simpl. eexists _, _. split; [reflexivity|]. done.
Qed.

Lemma getStars_sim dir user maxrepo limit st :
  exists o st',
    getStars slack world dir user maxrepo limit st = (o, st')
    /\ starredSeq world dir user maxrepo limit (forget st)
        = (outElems (heap st') o, forget st').
Proof.
  unfold getStars, starredSeq. rewrite !bind_call. simpl.
  destruct (world (trace st) _) as [x|err]; simpl.
  2:{ eexists _, _. split; [reflexivity|]. done. }
  rewrite !bind_call. simpl.
  destruct (world _ _) as [body|err]; simpl.
  2:{ eexists _, _. split; [reflexivity|]. done. }
  destruct (Unmarshal body) as [jsonData|err]; simpl.
  2:{ eexists _, _. split; [reflexivity|]. done. }
  match goal with |- context [bind (getStars_collect slack ?d nilSlice) _ ?st1] =>
    destruct (getStars_collect_spec d nilSlice st1 (wfSlice_nil _))
      as (s1 & h1 & Hp & Hwf1 & Hel1 & _) end.
  rewrite (bind_run _ _ _ _ _ Hp). simpl in *.
  match goal with |- context [bind (cloneRepos _ _ _ _ _) _ ?st2] =>
    destruct (mirror_sim s1 limit dir st2 (map FullName jsonData) Hwf1 Hel1)
      as (o & st' & Hr & Hs) end.
  exists o, st'. split; [done|]. exact Hs.
Qed.

Lemma main_body_sim fl limit user st :
  exists o st',
    main_body slack world fl limit user st = (o, st')
    /\ bodySeq world fl limit user (forget st) = (o, forget st').
Proof.
  unfold main_body, bodySeq.
  assert (exists o1 st1,
    (if negb (starsonly fl)
     then _ <- getRepos slack world (output fl) (TrimSpace user) (maxrepo fl)
                 limit ;; ret tt
     else ret tt) st = (o1, st1)
    /\ (if negb (starsonly fl)
        then _ <- ownedSeq world (output fl) (TrimSpace user) (maxrepo fl)
                    limit ;; ret tt
        else ret tt) (forget st) = (o1, forget st1)) as (o1 & st1 & H1 & H1').
  { destruct (negb (starsonly fl)).
    - destruct (getRepos_sim (output fl) (TrimSpace user) (maxrepo fl) limit st)
        as (o & st' & Hr & Hs).
      rewrite (bind_run _ _ _ _ _ Hr), (bind_run _ _ _ _ _ Hs).
      destruct o; simpl; eexists _, _; split; reflexivity.
    - eexists _, _. split; reflexivity. }
  rewrite (bind_run _ _ _ _ _ H1), (bind_run _ _ _ _ _ H1').
  destruct o1 as [[]|c].
  2:{ eexists _, _. split; reflexivity. }
  destruct (stars fl || starsonly fl).
  - destruct (getStars_sim (output fl) (TrimSpace user) (maxrepo fl) limit st1)
      as (o & st' & Hr & Hs).
    rewrite (bind_run _ _ _ _ _ Hr), (bind_run _ _ _ _ _ Hs).
    destruct o; simpl; eexists _, _; split; reflexivity.
  - eexists _, _. split; reflexivity.
Qed.

Lemma main_loop_sim fl limit users : forall st,
  exists o st',
    main_loop slack world fl limit users st = (o, st')
    /\ loopSeq world fl limit users (forget st) = (o, forget st').
Proof.
  induction users as [|u us IH]; intros st; simpl.
  - eexists _, _. split; reflexivity.
  - destruct (main_body_sim fl limit u st) as (o1 & st1 & H1 & H1').
    rewrite (bind_run _ _ _ _ _ H1), (bind_run _ _ _ _ _ H1').
    destruct o1 as [[]|c]; [apply IH|].
    eexists _, _. split; reflexivity.
Qed.

(** The process and its sequence-level description do the same to the
    outside world and to the counter. *)
Lemma main_sim fl st :
  mainSeq world fl (forget st)
  = (fst (main slack world fl st), forget (snd (main slack world fl st))).
Proof.
  unfold main, mainSeq.
  destruct (main_loop_sim fl (parseLimit fl) (parseUsers fl) st)
    as (o & st' & -> & ->). done.
Qed.

End Refinement.

(** ** The cases of the program on sequences *)

Section SeqCases.
Variable world : World.

Lemma cloneOne_skip repo limit dir st :
  included repo limit = false ->
  cloneOne world repo limit dir st = (Return tt, st).
Proof. intros H. unfold cloneOne. by rewrite H. Qed.

Lemma cloneOne_cases repo limit dir st :
  included repo limit = true ->
  let n := wrap64 (reponum st + 1) in
  let st1 := mkState n (heap st) (trace st) in
  (exists out w,
      cloneOne world repo limit dir st
      = (Return tt,
         addEvents st1 [progressEvent n repo;
                        ECall (mainCloneCall repo dir) (Success out);
                        ECall (wikiCloneCall repo dir) w]))
  \/ (exists e,
      cloneOne world repo limit dir st
      = (Exit 1,
         addEvents st1 [progressEvent n repo;
                        ECall (mainCloneCall repo dir) (Failure e);
                        ELogFatal [AErr e]])).
Proof.
  intros H n st1. unfold cloneOne. rewrite H. simpl.
  unfold bind, incrReponum, getReponum, emit, call, logFatal, addEvents. simpl.
  destruct (world _ _) as [out|e]; simpl; rewrite <- ?app_assoc; simpl.
  - left. eexists _, _. reflexivity.
  - right. eexists. reflexivity.
Qed.

Lemma ownedSeq_cases dir user maxrepo limit st :
  (exists out,
      ownedSeq world dir user maxrepo limit st
      = (cloneSeq world (parsedRepos out) limit dir ;;; ret (parsedRepos out))
          (addEvents st [ECall (ghCall user maxrepo) (Success out)]))
  \/ (exists e,
      ownedSeq world dir user maxrepo limit st
      = (Exit 1, addEvents st [ECall (ghCall user maxrepo) (Failure e);
                               ELogFatal [AErr e]])).
Proof.
  unfold ownedSeq. rewrite bind_call.
  destruct (world _ _) as [out|e].
  - left. by exists out.
  - right. exists e. unfold logFatal, addEvents. simpl. by rewrite <- app_assoc.
Qed.

Lemma starredSeq_cases dir user maxrepo limit st :
  let url := starredURL user maxrepo in
  (exists x body jsonData,
      Unmarshal body = inl jsonData /\
      starredSeq world dir user maxrepo limit st
      = (cloneSeq world (map FullName jsonData) limit dir ;;;
         ret (map FullName jsonData))
          (addEvents st [ECall (HttpGet url) (Success x);
                         ECall (ReadAll url) (Success body)]))
  \/ (exists evs,
      starredSeq world dir user maxrepo limit st = (Return [], addEvents st evs)
      /\ ((exists e, evs = [ECall (HttpGet url) (Failure e);
                           ELogPrintf "Can't get starred repos of %s: %s"
                             [AStr user; AErr e]])
          \/ (exists x e, evs = [ECall (HttpGet url) (Success x);
                                ECall (ReadAll url) (Failure e);
                                ELogPrintf "Can't read response body: %s"
                                  [AErr e]])
          \/ (exists x body e,
                Unmarshal body = inr e /\
                evs = [ECall (HttpGet url) (Success x);
                       ECall (ReadAll url) (Success body);
                       ELogPrintf
                         ("Can't parse response body to json: %s"
                            ++ String LF "%s")%string
                         [AErr (JsonError e); AStr body]]))).
Proof.
  intros url. unfold starredSeq. fold url. rewrite bind_call.
  destruct (world _ _) as [x|e].
  2:{ right. eexists. split; [|left; by eexists].
      rewrite bind_emit. unfold ret, addEvents. simpl. by rewrite <- app_assoc. }
  rewrite bind_call. simpl.
  destruct (world _ _) as [body|e].
  2:{ right. eexists. split; [|right; left; by eexists _, _].
      rewrite bind_emit. unfold ret, addEvents. simpl. by rewrite <- !app_assoc. }
  destruct (Unmarshal body) as [jsonData|e] eqn:Hu.
  - left. exists x, body, jsonData. split; [done|].
    unfold addEvents. by rewrite <- app_assoc.
  - right. eexists. split; [|right; right; by eexists _, _, _].
    rewrite bind_emit. unfold ret, addEvents. simpl. by rewrite <- !app_assoc.
Qed.

End SeqCases.

(** ** What a run can look like, whatever the outside world answers *)

Lemma behaves_seq {A B : Type} (m : M A) (k : A -> M B) R1 R2 :
  behaves m R1 -> (forall a, behaves (k a) R2) ->
  behaves (bind m k) (seqRun R1 R2).
Proof.
  intros H1 H2 st. destruct (H1 st) as (o1 & n1 & evs1 & Hm & HR1).
  rewrite (bind_run _ _ _ _ _ Hm). destruct o1 as [a|c]; simpl in *.
  - destruct (H2 a (mkState n1 (heap st) (trace st ++ evs1)))
      as (o & n' & evs2 & Hk & HR2). simpl in *.
    exists o, n', (evs1 ++ evs2). rewrite app_assoc. split; [done|].
    by eapply SeqNext.
  - exists (Exit c), n1, evs1. split; [done|]. by apply SeqExit.
Qed.

Lemma behaves_ret {A : Type} (a : A) : behaves (ret a) skipRun.
Proof.
  intros st. exists (Return a), (reponum st), []. rewrite app_nil_r.
  split; [by destruct st | constructor].
Qed.

Lemma seqRun_skip_r R n o n' evs : seqRun R skipRun n o n' evs -> R n o n' evs.
Proof.
  intros H. destruct H as [|n n1 evs1 o n' evs2 H1 H2]; [done|].
  destruct H2. by rewrite app_nil_r.
Qed.

Lemma behaves_then_ret {A B : Type} (m : M A) (b : B) R :
  behaves m R -> behaves (bind m (fun _ => ret b)) R.
Proof.
  intros H st.
  destruct (behaves_seq m (fun _ => ret b) R skipRun H (fun _ => behaves_ret b) st)
    as (o & n' & evs & Hrun & HR).
  exists o, n', evs. split; [done|]. by apply seqRun_skip_r.
Qed.

Section Behaviours.
Variable world : World.

Lemma cloneOne_behaves repo limit dir :
  behaves (cloneOne world repo limit dir) (cloneOneRun limit dir repo).
Proof.
  intros st. destruct (included repo limit) eqn:Hin.
  - destruct (cloneOne_cases world repo limit dir st Hin)
      as [(out & w & ->)|(e & ->)]; eexists _, _, _;
      (split; [reflexivity|]); simpl; by constructor.
  - rewrite cloneOne_skip by done. exists (Return tt), (reponum st), [].
    rewrite app_nil_r. split; [by destruct st | by constructor].
Qed.

Lemma cloneSeq_behaves limit dir repos :
  behaves (cloneSeq world repos limit dir) (cloneRun limit dir repos).
Proof.
  induction repos as [|repo repos IH]; simpl.
  - apply behaves_ret.
  - apply behaves_seq; [apply cloneOne_behaves | done].
Qed.

Lemma ownedSeq_behaves dir user maxrepo limit :
  behaves (ownedSeq world dir user maxrepo limit)
    (ownedRun dir user maxrepo limit).
Proof.
  intros st.
  destruct (ownedSeq_cases world dir user maxrepo limit st)
    as [(out & ->)|(e & ->)].
  - destruct (behaves_then_ret _ (parsedRepos out) _
                (cloneSeq_behaves limit dir (parsedRepos out))
                (addEvents st [ECall (ghCall user maxrepo) (Success out)]))
      as (o & n' & evs & -> & HR). simpl in *.
    exists o, n', (ECall (ghCall user maxrepo) (Success out) :: evs).
    rewrite <- app_assoc. split; [done|]. by constructor.
  - eexists _, _, _. split; [reflexivity|]. constructor.
Qed.

Lemma starredSeq_behaves dir user maxrepo limit :
  behaves (starredSeq world dir user maxrepo limit)
    (starredRun dir user maxrepo limit).
Proof.
  intros st.
  destruct (starredSeq_cases world dir user maxrepo limit st)
    as [(x & body & jsonData & Hu & ->)
       |(evs & -> & [(e & ->)|[(x & e & ->)|(x & body & e & Hu & ->)]])].
  - destruct (behaves_then_ret _ (map FullName jsonData) _
                (cloneSeq_behaves limit dir (map FullName jsonData))
                (addEvents st
                   [ECall (HttpGet (starredURL user maxrepo)) (Success x);
                    ECall (ReadAll (starredURL user maxrepo)) (Success body)]))
      as (o & n' & evs & -> & HR). simpl in *.
    eexists o, n', (_ :: _ :: evs).
    rewrite <- app_assoc. split; [done|]. by econstructor.
  - eexists _, _, _. split; [reflexivity|]. constructor.
  - eexists _, _, _. split; [reflexivity|]. constructor.
  - eexists _, _, _. split; [reflexivity|]. by constructor.
Qed.

Lemma bodySeq_behaves fl limit user :
  behaves (bodySeq world fl limit user) (bodyRun fl limit user).
Proof.
  unfold bodySeq, bodyRun. apply behaves_seq.
  - unfold optRun. destruct (negb (starsonly fl)).
    + apply behaves_then_ret, ownedSeq_behaves.
    + apply behaves_ret.
  - intros _. unfold optRun. destruct (stars fl || starsonly fl).
    + apply behaves_then_ret, starredSeq_behaves.
    + apply behaves_ret.
Qed.

Lemma loopSeq_behaves fl limit users :
  behaves (loopSeq world fl limit users) (loopRun fl limit users).
Proof.
  induction users as [|u us IH]; simpl.
  - apply behaves_ret.
  - apply behaves_seq; [apply bodySeq_behaves | done].
Qed.

Lemma mainSeq_behaves fl : behaves (mainSeq world fl) (mainRun fl).
Proof. apply loopSeq_behaves. Qed.

End Behaviours.

(** ** The behaviours of the program *)

Section ConcreteBehaviours.
Variable slack : nat -> nat.
Variable world : World.

Lemma forget_inv {A : Type} (o o' : Outcome A) st n evs t :
  (o, mkState n [] (t ++ evs)) = (o', forget st) ->
  o = o' /\ reponum st = n /\ trace st = t ++ evs.
Proof. destruct st. unfold forget. simpl. by intros [= -> -> ->]. Qed.

(** What [main] does is a behaviour of [mainRun]. *)
Lemma main_behaves fl st :
  exists evs,
    trace (snd (main slack world fl st)) = trace st ++ evs
    /\ mainRun fl (reponum st) (fst (main slack world fl st))
         (reponum (snd (main slack world fl st))) evs.
Proof.
  pose proof (main_sim slack world fl st) as Hsim.
  destruct (mainSeq_behaves world fl (forget st)) as (o & n' & evs & Hrun & HR).
  rewrite Hrun in Hsim. apply forget_inv in Hsim as (Ho & Hn & Ht).
  simpl in *. exists evs. split; [done|]. rewrite <- Ho, Hn.
  by destruct o as [[]|].
Qed.

Lemma cloneRepos_behaves repos limit dir st :
  wfSlice (heap st) repos ->
  exists evs,
    trace (snd (cloneRepos slack world repos limit dir st)) = trace st ++ evs
    /\ cloneRun limit dir (elems (heap st) repos) (reponum st)
         (void (fst (cloneRepos slack world repos limit dir st)))
         (reponum (snd (cloneRepos slack world repos limit dir st))) evs.
Proof.
  intros Hwf.
  destruct (cloneRepos_sim slack world repos limit dir st Hwf)
    as (o & st' & Hr & Hs & _).
  destruct (cloneSeq_behaves world limit dir (elems (heap st) repos) (forget st))
    as (o' & n' & evs & Hrun & HR).
  rewrite Hrun in Hs. apply forget_inv in Hs as (Ho & Hn & Ht). simpl in *.
  rewrite Hr. simpl. exists evs. split; [done|].
  rewrite <- Ho, Hn. by destruct o' as [[]|].
Qed.

Lemma void_outElems h (o : Outcome slice) : void (outElems h o) = void o.
Proof. by destruct o. Qed.

Lemma getRepos_behaves dir user maxrepo limit st :
  exists evs,
    trace (snd (getRepos slack world dir user maxrepo limit st))
      = trace st ++ evs
    /\ ownedRun dir user maxrepo limit (reponum st)
         (void (fst (getRepos slack world dir user maxrepo limit st)))
         (reponum (snd (getRepos slack world dir user maxrepo limit st))) evs.
Proof.
  destruct (getRepos_sim slack world dir user maxrepo limit st)
    as (o & st' & Hr & Hs).
  destruct (ownedSeq_behaves world dir user maxrepo limit (forget st))
    as (o' & n' & evs & Hrun & HR).
  rewrite Hrun in Hs. apply forget_inv in Hs as (Ho & Hn & Ht). simpl in *.
  rewrite Hr. simpl. exists evs. split; [done|].
  by rewrite <- (void_outElems (heap st')), <- Ho, Hn.
Qed.

Lemma getStars_behaves dir user maxrepo limit st :
  exists evs,
    trace (snd (getStars slack world dir user maxrepo limit st))
      = trace st ++ evs
    /\ starredRun dir user maxrepo limit (reponum st)
         (void (fst (getStars slack world dir user maxrepo limit st)))
         (reponum (snd (getStars slack world dir user maxrepo limit st))) evs.
Proof.
  destruct (getStars_sim slack world dir user maxrepo limit st)
    as (o & st' & Hr & Hs).
  destruct (starredSeq_behaves world dir user maxrepo limit (forget st))
    as (o' & n' & evs & Hrun & HR).
  rewrite Hrun in Hs. apply forget_inv in Hs as (Ho & Hn & Ht). simpl in *.
  rewrite Hr. simpl. exists evs. split; [done|].
  by rewrite <- (void_outElems (heap st')), <- Ho, Hn.
Qed.

End ConcreteBehaviours.

(** ** Invariants of the behaviours *)

Section Invariant.

(** A property of runs that holds of each elementary run and is kept by
    sequencing holds of every run of [main]. *)
Variable fl : Flags.
Variable I : Z -> Outcome unit -> Z -> list Event -> Prop.

Hypothesis I_skip : forall n, I n (Return tt) n [].
Hypothesis I_seq : forall n n1 evs1 o n' evs2,
  I n (Return tt) n1 evs1 -> I n1 o n' evs2 -> I n o n' (evs1 ++ evs2).
Hypothesis I_clone : forall limit repo n o n' evs,
  cloneOneRun limit (output fl) repo n o n' evs -> I n o n' evs.
Hypothesis I_gh : forall n user out,
  I n (Return tt) n [ECall (ghCall user (maxrepo fl)) (Success out)].
Hypothesis I_gh_fatal : forall n user e,
  I n (Exit 1) n [ECall (ghCall user (maxrepo fl)) (Failure e);
                  ELogFatal [AErr e]].
Hypothesis I_quiet : forall n evs,
  Forall (fun e => isQuiet e = true) evs -> I n (Return tt) n evs.

Lemma seqRun_inv (R1 R2 : Behaviour) :
  (forall n o n' evs, R1 n o n' evs -> I n o n' evs) ->
  (forall n o n' evs, R2 n o n' evs -> I n o n' evs) ->
  forall n o n' evs, seqRun R1 R2 n o n' evs -> I n o n' evs.
Proof.
  intros H1 H2 n o n' evs H. destruct H; [by apply H1|].
  eapply I_seq; [by apply H1 | by apply H2].
Qed.

Lemma skipRun_inv n o n' evs : skipRun n o n' evs -> I n o n' evs.
Proof. intros []. apply I_skip. Qed.

Lemma cloneRun_inv limit repos : forall n o n' evs,
  cloneRun limit (output fl) repos n o n' evs -> I n o n' evs.
Proof.
  induction repos as [|repo repos IH]; simpl.
  - apply skipRun_inv.
  - apply seqRun_inv; [apply I_clone | done].
Qed.

Lemma ownedRun_inv limit user n o n' evs :
  ownedRun (output fl) user (maxrepo fl) limit n o n' evs -> I n o n' evs.
Proof.
  intros H. inversion H; subst; [apply I_gh_fatal|].
  match goal with |- I _ _ _ (?a :: ?evs') =>
    change (I n o n' ([a] ++ evs')) end.
  eapply I_seq; [apply I_gh | by eapply cloneRun_inv].
Qed.

Lemma starredRun_inv limit user n o n' evs :
  starredRun (output fl) user (maxrepo fl) limit n o n' evs -> I n o n' evs.
Proof.
  intros H. inversion H; subst.
  - apply I_quiet. by repeat constructor.
  - apply I_quiet. by repeat constructor.
  - apply I_quiet. by repeat constructor.
  - match goal with |- I _ _ _ (?a :: ?b :: ?evs') =>
      change (I n o n' ([a; b] ++ evs')) end.
    eapply I_seq; [|by eapply cloneRun_inv].
    apply I_quiet. by repeat constructor.
Qed.

Lemma loopRun_inv limit users : forall n o n' evs,
  loopRun fl limit users n o n' evs -> I n o n' evs.
Proof.
  induction users as [|u us IH]; simpl.
  - apply skipRun_inv.
  - apply seqRun_inv; [|done]. unfold bodyRun.
    apply seqRun_inv; unfold optRun.
    + destruct (negb (starsonly fl)); [apply ownedRun_inv | apply skipRun_inv].
    + destruct (stars fl || starsonly fl);
        [apply starredRun_inv | apply skipRun_inv].
Qed.

Lemma mainRun_inv n o n' evs : mainRun fl n o n' evs -> I n o n' evs.
Proof. apply loopRun_inv. Qed.

End Invariant.

(** *** Fatal errors end the run *)

Lemma fatalShape_seq evs1 o evs2 :
  fatalShape (Return tt) evs1 -> fatalShape o evs2 ->
  fatalShape o (evs1 ++ evs2).
Proof.
  intros H1 H2. inversion H1; subst. destruct H2.
  - constructor. by apply Forall_app.
  - rewrite app_assoc. constructor. by apply Forall_app.
Qed.

Lemma quiet_not_failed evs :
  Forall (fun e => isQuiet e = true) evs ->
  Forall (fun e => isFailedOutput e = false) evs.
Proof.
  intros H. eapply Forall_impl; [exact H|].
  intros [[] []| | |]; simpl; congruence.
Qed.

Lemma mainRun_fatalShape fl n o n' evs :
  mainRun fl n o n' evs -> fatalShape o evs.
Proof.
  apply (mainRun_inv fl (fun _ o _ evs => fatalShape o evs)).
  - intros _. constructor. constructor.
  - intros _ _ evs1 o' _ evs2. apply fatalShape_seq.
  - intros limit repo m o' m' evs' H. destruct H.
    + constructor. constructor.
    + constructor. by repeat constructor.
    + apply (FatalLast [_]). by repeat constructor.
  - intros _ user out. constructor. by repeat constructor.
  - intros _ user e. apply (FatalLast []). constructor.
  - intros _ evs' H. constructor. by apply quiet_not_failed.
Qed.

Lemma fatalShape_split o evs :
  fatalShape o evs ->
  forall t1 t2 name args e,
    evs = t1 ++ ECall (CmdOutput name args) (Failure e) :: t2 ->
    o = Exit 1 /\ t2 = [ELogFatal [AErr e]]
    /\ Forall (fun e => isFailedOutput e = false) t1.
Proof.
  intros H t1 t2 name args e Heq. destruct H as [evs HF|evs name' args' e' HF].
  - subst evs. apply Forall_app in HF as [_ HF].
    apply Forall_cons in HF as [HF _]. done.
  - split; [done|]. revert t1 Heq.
    induction HF as [|x evs Hx HF IH]; intros t1 Heq; simpl in *.
    + destruct t1 as [|a [|b t1]]; simpl in *.
      * injection Heq as <- <- <- <-. done.
      * injection Heq as _ Heq _. done.
      * injection Heq as _ _ Heq. by destruct t1.
    + destruct t1 as [|a t1]; simpl in *.
      * injection Heq as -> _. done.
      * injection Heq as <- Heq. destruct (IH t1 Heq) as [? ?].
        split; [done|]. by constructor.
Qed.

(** *** The progress counter *)

Lemma countersFrom_app n a : forall b,
  countersFrom n (a + b) = countersFrom n a ++ countersFrom (bump n a) b.
Proof.
  revert n. induction a as [|a IH]; intros n b; simpl; [done|].
  by rewrite IH.
Qed.

Lemma bump_add n a : forall b, bump n (a + b) = bump (bump n a) b.
Proof. revert n. induction a as [|a IH]; intros n b; simpl; [done|]. apply IH. Qed.

Lemma wrap64_small z : (- 2 ^ 63 <= z < 2 ^ 63)%Z -> wrap64 z = z.
Proof. intros H. unfold wrap64. rewrite Z.mod_small; lia. Qed.

Lemma countersFrom_small k : forall n,
  (- 2 ^ 63 <= n)%Z -> (n + Z.of_nat k < 2 ^ 63)%Z ->
  countersFrom n k = map (fun i => (n + Z.of_nat i)%Z) (seq 1 k)
  /\ bump n k = (n + Z.of_nat k)%Z.
Proof.
  induction k as [|k IH]; intros n Hlo Hhi; simpl.
  - split; [done | lia].
  - rewrite wrap64_small by lia.
    destruct (IH (n + 1)%Z) as [-> ->]; [lia | lia |]. split; [|lia].
    f_equal. rewrite <- (seq_shift k 1), map_map.
    apply map_ext. intros i. lia.
Qed.

Lemma progress_app t1 t2 : progress (t1 ++ t2) = progress t1 ++ progress t2.
Proof. apply omap_app. Qed.

Lemma mainClones_app t1 t2 :
  mainClones (t1 ++ t2) = mainClones t1 ++ mainClones t2.
Proof. apply omap_app. Qed.

Lemma discoveries_app t1 t2 :
  discoveries (t1 ++ t2) = discoveries t1 ++ discoveries t2.
Proof. apply omap_app. Qed.

Lemma quiet_silent evs :
  Forall (fun e => isQuiet e = true) evs ->
  progress evs = [] /\ mainClones evs = [].
Proof.
  induction 1 as [|e evs He _ [IH1 IH2]]; [done|].
  by destruct e as [[] ?| | |].
Qed.

Lemma mainRun_tally fl n o n' evs :
  mainRun fl n o n' evs -> tallyInv (output fl) n n' evs.
Proof.
  apply (mainRun_inv fl (fun n _ n' evs => tallyInv (output fl) n n' evs)).
  - intros m. by repeat split.
  - intros m m1 evs1 _ m' evs2 (H1 & -> & H1') (H2 & -> & H2').
    unfold tallyInv. rewrite progress_app, mainClones_app, length_app, !map_app.
    rewrite countersFrom_app, bump_add, H1, H2, H1', H2'. done.
  - intros limit repo m o' m' evs' H. destruct H; by repeat split.
  - intros m user out. by repeat split.
  - intros m user e. by repeat split.
  - intros m evs' H. destruct (quiet_silent evs' H) as [Hp Hm].
    unfold tallyInv. rewrite Hp, Hm. by repeat split.
Qed.

(** *** Projections of a run that follow a plan *)

Lemma follows_seq {X : Type} (f : Event -> option X) (R1 R2 : Behaviour)
    plan1 plan2 :
  (forall n o n' evs, R1 n o n' evs -> follows f plan1 o evs) ->
  (forall n o n' evs, R2 n o n' evs -> follows f plan2 o evs) ->
  forall n o n' evs,
    seqRun R1 R2 n o n' evs -> follows f (plan1 ++ plan2) o evs.
Proof.
  intros H1 H2 n o n' evs H. destruct H as [n c n' evs H|n n1 evs1 o n' evs2 Ha Hb].
  - destruct (H1 _ _ _ _ H) as [Hp _]. split; [|done].
    by apply prefix_app_r.
  - destruct (H1 _ _ _ _ Ha) as [_ He]. destruct (H2 _ _ _ _ Hb) as [Hp He2].
    rewrite <- (He eq_refl). split.
    + rewrite omap_app. by apply prefix_app.
    + intros Ho. rewrite omap_app. by rewrite (He2 Ho).
Qed.

Lemma follows_skip {X : Type} (f : Event -> option X) n o n' evs :
  skipRun n o n' evs -> follows f [] o evs.
Proof. intros []. by split. Qed.

Lemma cloneOneRun_mainClones limit dir repo n o n' evs :
  cloneOneRun limit dir repo n o n' evs ->
  follows mainCloneOf (clonePlan limit dir [repo]) o evs.
Proof.
  unfold clonePlan. intros H. destruct H as [? Hin|? ? ? Hin|? ? Hin]; simpl;
    rewrite Hin; simpl; by split.
Qed.

Lemma clonePlan_cons limit dir repo repos :
  clonePlan limit dir (repo :: repos)
  = clonePlan limit dir [repo] ++ clonePlan limit dir repos.
Proof. unfold clonePlan. simpl. by destruct (included repo limit). Qed.

Lemma cloneRun_mainClones limit dir repos : forall n o n' evs,
  cloneRun limit dir repos n o n' evs ->
  follows mainCloneOf (clonePlan limit dir repos) o evs.
Proof.
  induction repos as [|repo repos IH]; simpl.
  - apply follows_skip.
  - rewrite clonePlan_cons. apply follows_seq; [|done].
    apply cloneOneRun_mainClones.
Qed.

Lemma cloneRun_discoveries limit dir repos : forall n o n' evs,
  cloneRun limit dir repos n o n' evs -> discoveries evs = [].
Proof.
  induction repos as [|repo repos IH]; simpl; intros n o n' evs H.
  - by destruct H.
  - destruct H as [n c n' evs H|n n1 evs1 o n' evs2 Ha Hb].
    + by destruct H.
    + rewrite discoveries_app, (IH _ _ _ _ Hb). by destruct Ha.
Qed.

Lemma ownedRun_discoveries dir user maxrepo limit n o n' evs :
  ownedRun dir user maxrepo limit n o n' evs ->
  follows discoveryOf [Owned user] o evs.
Proof.
  intros H. destruct H as [|n out o n' evs H]; [by split|].
  unfold follows. change (omap discoveryOf (?a :: evs))
    with (Owned user :: discoveries evs).
  rewrite (cloneRun_discoveries _ _ _ _ _ _ _ H). by split.
Qed.

Lemma starredRun_discoveries dir user maxrepo limit n o n' evs :
  starredRun dir user maxrepo limit n o n' evs ->
  follows discoveryOf [Starred (starredURL user maxrepo)] o evs.
Proof.
  intros H. destruct H as [| | |n x body jsonData o n' evs Hu H];
    [by split..|].
  unfold follows. change (omap discoveryOf (?a :: ?b :: evs))
    with (Starred (starredURL user maxrepo) :: discoveries evs).
  rewrite (cloneRun_discoveries _ _ _ _ _ _ _ H). by split.
Qed.

Lemma bodyRun_discoveries fl limit user n o n' evs :
  bodyRun fl limit user n o n' evs ->
  follows discoveryOf (discoveryPlanFor fl user) o evs.
Proof.
  unfold bodyRun, discoveryPlanFor. apply follows_seq; unfold optRun.
  - destruct (negb (starsonly fl));
      [apply ownedRun_discoveries | apply follows_skip].
  - destruct (stars fl || starsonly fl);
      [apply starredRun_discoveries | apply follows_skip].
Qed.

Lemma loopRun_discoveries fl limit users : forall n o n' evs,
  loopRun fl limit users n o n' evs ->
  follows discoveryOf (concat (map (discoveryPlanFor fl) users)) o evs.
Proof.
  induction users as [|u us IH]; simpl.
  - apply follows_skip.
  - apply follows_seq; [apply bodyRun_discoveries | done].
Qed.

(** *** Wiki clones do not matter *)

Section Wiki.
Variables w1 w2 : World.
Hypothesis Hsame : sameButWiki w1 w2.

Lemma alike_bind {A B A' B' : Type} (m1 : M A) (m2 : M A')
    (k1 : A -> M B) (k2 : A' -> M B') st1 st2 :
  alikeRuns (m1 st1) (m2 st2) ->
  (forall a a' st1' st2', alike st1' st2' -> alikeRuns (k1 a st1') (k2 a' st2')) ->
  alikeRuns (bind m1 k1 st1) (bind m2 k2 st2).
Proof.
  unfold alikeRuns, bind. intros [Ho Hst] Hk.
  destruct (m1 st1) as [[a|c] st1'], (m2 st2) as [[a'|c'] st2']; simpl in *.
  - by apply Hk.
  - done.
  - done.
  - done.
Qed.

Lemma alike_ret {A B : Type} (a : A) (b : B) st1 st2 :
  alike st1 st2 -> alikeRuns (ret a st1) (ret b st2).
Proof. by split. Qed.

Lemma alike_add st1 st2 evs1 evs2 :
  alike st1 st2 -> map eraseWiki evs1 = map eraseWiki evs2 ->
  alike (addEvents st1 evs1) (addEvents st2 evs2).
Proof.
  intros [Hn Ht] He. split; [done|]. simpl. rewrite !map_app. congruence.
Qed.

Lemma cloneOne_wiki repo limit dir st1 st2 :
  alike st1 st2 ->
  alikeRuns (cloneOne w1 repo limit dir st1) (cloneOne w2 repo limit dir st2).
Proof.
  intros [Hn Ht]. unfold cloneOne.
  destruct (included repo limit); simpl; [|by split].
  unfold bind, incrReponum, getReponum, emit, call, logFatal. simpl.
  rewrite Hn.
  rewrite (Hsame (trace st1 ++ [EPrintf progressFormat
                                  [AInt (wrap64 (reponum st2 + 1)); AStr repo]])
             (trace st2 ++ [EPrintf progressFormat
                              [AInt (wrap64 (reponum st2 + 1)); AStr repo]])
             (CmdOutput "git" (mainCloneArgs repo dir)) eq_refl)
    by (rewrite !map_app; congruence).
  destruct (w2 _ _) as [out|e]; simpl.
  - split; [done|]. split; [done|]. simpl. rewrite !map_app. simpl. congruence.
  - split; [done|]. split; [done|]. simpl. rewrite !map_app. simpl. congruence.
Qed.

Lemma cloneSeq_wiki limit dir repos : forall st1 st2,
  alike st1 st2 ->
  alikeRuns (cloneSeq w1 repos limit dir st1) (cloneSeq w2 repos limit dir st2).
Proof.
  induction repos as [|repo repos IH]; intros st1 st2 H; simpl.
  - by apply alike_ret.
  - apply alike_bind; [by apply cloneOne_wiki|]. intros _ _. apply IH.
Qed.

Lemma alike_call c st1 st2 :
  isWikiCall c = false -> alike st1 st2 ->
  w1 (trace st1) c = w2 (trace st2) c
  /\ alike (mkState (reponum st1) (heap st1)
              (trace st1 ++ [ECall c (w1 (trace st1) c)]))
           (mkState (reponum st2) (heap st2)
              (trace st2 ++ [ECall c (w2 (trace st2) c)])).
Proof.
  intros Hc [Hn Ht]. pose proof (Hsame _ _ c Hc Ht) as Hr.
  split; [done|]. split; [done|]. simpl. rewrite !map_app, Hr. congruence.
Qed.

Lemma ownedSeq_wiki dir user maxrepo limit st1 st2 :
  alike st1 st2 ->
  alikeRuns (ownedSeq w1 dir user maxrepo limit st1)
            (ownedSeq w2 dir user maxrepo limit st2).
Proof.
  intros H. unfold ownedSeq. rewrite !bind_call.
  destruct (alike_call (CmdOutput "gh" (ghListArgs user maxrepo)) st1 st2
              eq_refl H) as [Hr H'].
  rewrite Hr in *. destruct (w2 _ _) as [out|e].
  - apply alike_bind; [by apply cloneSeq_wiki|].
    intros _ _ ? ? ?. by apply alike_ret.
  - destruct H' as [Hn Ht]. split; [done|]. split; [done|]. simpl in *.
    rewrite !map_app in *. congruence.
Qed.

Lemma starredSeq_wiki dir user maxrepo limit st1 st2 :
  alike st1 st2 ->
  alikeRuns (starredSeq w1 dir user maxrepo limit st1)
            (starredSeq w2 dir user maxrepo limit st2).
Proof.
  intros H. unfold starredSeq. rewrite !bind_call.
  destruct (alike_call (HttpGet (starredURL user maxrepo)) st1 st2 eq_refl H)
    as [Hr H1].
  rewrite Hr in *. destruct (w2 (trace st2) _) as [x|e].
  2:{ rewrite !bind_emit. apply alike_ret. 
      destruct H1 as [Hn Ht]. split; [done|]. simpl in *.
      rewrite !map_app in *. congruence. }
  rewrite !bind_call.
  destruct (alike_call (ReadAll (starredURL user maxrepo)) _ _ eq_refl H1)
    as [Hr2 H2].
  simpl in Hr2, H2. simpl. rewrite Hr2 in *. destruct (w2 _ _) as [body|e].
  2:{ rewrite !bind_emit. apply alike_ret.
      destruct H2 as [Hn Ht]. split; [done|]. simpl in *.
      rewrite !map_app in *. congruence. }
  destruct (Unmarshal body) as [jsonData|e].
  - apply alike_bind; [by apply cloneSeq_wiki|].
    intros _ _ ? ? ?. by apply alike_ret.
  - rewrite !bind_emit. apply alike_ret.
    destruct H2 as [Hn Ht]. split; [done|]. simpl in *.
    rewrite !map_app in *. congruence.
Qed.

Lemma bodySeq_wiki fl limit user st1 st2 :
  alike st1 st2 ->
  alikeRuns (bodySeq w1 fl limit user st1) (bodySeq w2 fl limit user st2).
Proof.
  intros H. unfold bodySeq. apply alike_bind.
  - destruct (negb (starsonly fl)); [|by apply alike_ret].
    apply alike_bind; [by apply ownedSeq_wiki|].
    intros _ _ ? ? ?. by apply alike_ret.
  - intros _ _ st1' st2' H'.
    destruct (stars fl || starsonly fl); [|by apply alike_ret].
    apply alike_bind; [by apply starredSeq_wiki|].
    intros _ _ ? ? ?. by apply alike_ret.
Qed.

Lemma loopSeq_wiki fl limit users : forall st1 st2,
  alike st1 st2 ->
  alikeRuns (loopSeq w1 fl limit users st1) (loopSeq w2 fl limit users st2).
Proof.
  induction users as [|u us IH]; intros st1 st2 H; simpl.
  - by apply alike_ret.
  - apply alike_bind; [by apply bodySeq_wiki|]. intros _ _. apply IH.
Qed.

End Wiki.

(** ** Runs in which the invocations through [Output()] succeed *)

Lemma outputsSucceed_clones world dir :
  outputsSucceed world -> mainClonesSucceed world dir.
Proof. intros H t repo. apply H. Qed.

Lemma returns_ret {A : Type} (a : A) : returns (ret a).
Proof. intros st. by exists a. Qed.

Lemma returns_bind {A B : Type} (m : M A) (k : A -> M B) :
  returns m -> (forall a, returns (k a)) -> returns (bind m k).
Proof.
  intros Hm Hk st. destruct (Hm st) as [a Ha].
  rewrite (bind_run _ _ st _ _ (surjective_pairing _)), Ha. apply Hk.
Qed.

Lemma returns_emit e : returns (emit e).
Proof. intros st. by exists tt. Qed.

Lemma returns_call world c : returns (call world c).
Proof. intros st. by eexists. Qed.

Lemma cloneOne_returns world repo limit dir :
  mainClonesSucceed world dir -> returns (cloneOne world repo limit dir).
Proof.
  intros Hok. unfold cloneOne.
  destruct (included repo limit); simpl; [|apply returns_ret].
  apply returns_bind; [intros st; by exists tt|]. intros _.
  apply returns_bind; [intros st; by eexists|]. intros n.
  apply returns_bind; [apply returns_emit|]. intros _.
  intros st. rewrite bind_call.
  destruct (Hok (trace st) repo) as [out Hout].
  unfold mainCloneCall in Hout. rewrite Hout, bind_call. by eexists.
Qed.

Lemma cloneSeq_returns world repos limit dir :
  mainClonesSucceed world dir -> returns (cloneSeq world repos limit dir).
Proof.
  intros Hok. induction repos as [|repo repos IH]; simpl; [apply returns_ret|].
  apply returns_bind; [by apply cloneOne_returns | done].
Qed.

Section NoFailedOutput.
Variable world : World.
Hypothesis Hok : outputsSucceed world.

Lemma returns_output {B : Type} name args (k : Response -> M B) :
  (forall out, returns (k (Success out))) ->
  returns (bind (call world (CmdOutput name args)) k).
Proof.
  intros Hk st. rewrite bind_call.
  destruct (Hok (trace st) name args) as [out ->]. apply Hk.
Qed.

Lemma ownedSeq_returns dir user maxrepo limit :
  returns (ownedSeq world dir user maxrepo limit).
Proof.
  unfold ownedSeq. apply returns_output. intros out.
  apply returns_bind; [|intros _; apply returns_ret].
  apply cloneSeq_returns. by apply outputsSucceed_clones.
Qed.

Lemma starredSeq_returns dir user maxrepo limit :
  returns (starredSeq world dir user maxrepo limit).
Proof.
  unfold starredSeq. apply returns_bind; [apply returns_call|].
  intros [x|e];
    [|apply returns_bind; [apply returns_emit | intros _; apply returns_ret]].
  apply returns_bind; [apply returns_call|].
  intros [body|e];
    [|apply returns_bind; [apply returns_emit | intros _; apply returns_ret]].
  destruct (Unmarshal body) as [jsonData|e];
    [|apply returns_bind; [apply returns_emit | intros _; apply returns_ret]].
  apply returns_bind; [|intros _; apply returns_ret].
  apply cloneSeq_returns. by apply outputsSucceed_clones.
Qed.

Lemma loopSeq_returns fl limit users : returns (loopSeq world fl limit users).
Proof.
  induction users as [|u us IH]; simpl; [apply returns_ret|].
  apply returns_bind; [|done]. unfold bodySeq.
  apply returns_bind; [|intros _].
  - destruct (negb (starsonly fl)); [|apply returns_ret].
    apply returns_bind; [apply ownedSeq_returns|]. intros _. apply returns_ret.
  - destruct (stars fl || starsonly fl); [|apply returns_ret].
    apply returns_bind; [apply starredSeq_returns|]. intros _.
    apply returns_ret.
Qed.

End NoFailedOutput.

Lemma main_returns slack world fl st :
  outputsSucceed world -> fst (main slack world fl st) = Return tt.
Proof.
  intros Hok. pose proof (main_sim slack world fl st) as Hsim.
  destruct (loopSeq_returns world Hok fl (parseLimit fl) (parseUsers fl)
              (forget st)) as [[] Ha].
  unfold mainSeq in Hsim. rewrite Hsim in Ha. exact Ha.
Qed.

(** ** The filter *)

Lemma inSlise_spec el ar :
  inSlise el ar = true <-> exists a, a ∈ ar /\ TrimSpace a = el.
Proof.
  induction ar as [|a ar IH]; simpl.
  - split; [done|]. intros (a & Ha & _). by apply elem_of_nil in Ha.
  - destruct (String.eqb (TrimSpace a) el) eqn:E.
    + apply String.eqb_eq in E. split; [|done]. intros _. exists a.
      split; [apply list_elem_of_here | done].
    + apply String.eqb_neq in E. rewrite IH. split.
      * intros (b & Hb & Ht). exists b. split; [by apply list_elem_of_further | done].
      * intros (b & Hb & Ht). apply elem_of_cons in Hb as [->|Hb]; [done|].
        by exists b.
Qed.

(** C3.  Every repository is included when the allow-list is empty; with an
    allow-list that is not empty, a repository is included exactly when it
    equals an entry with the white space around the entry trimmed.  Neither a
    substring nor a glob pattern matches, and the repository itself is not
    trimmed. *)
Theorem included_spec :
  (forall r, included r [] = true)
  /\ (forall r limit, limit <> [] ->
        (included r limit = true <-> exists e, e ∈ limit /\ TrimSpace e = r))
  /\ included "a/b" ["a/bc"; "xa/b"; "a/*"; "*"; "a"] = false
  /\ included "a/b" ["c/d"; String TAB "  a/b " ++ String LF ""]%string = true
  /\ included " a/b" ["a/b"] = false.
Proof.
  split; [done|]. split; [|by vm_compute].
  intros r limit Hne. unfold included.
  destruct limit as [|a l]; [done|].
  change (inSlise r (a :: l) = true
          <-> exists e, e ∈ a :: l /\ TrimSpace e = r).
  apply inSlise_spec.
Qed.

Lemma included_spec_witness :
  included "a/b" [" a/b "] = true
  <-> exists e, e ∈ [" a/b "] /\ TrimSpace e = "a/b".
Proof. apply (proj1 (proj2 included_spec)). discriminate. Defined.

(** ** Owned discovery *)

Section Discovery.
Variable slack : nat -> nat.
Variable world : World.

Lemma getRepos_returns dir user maxrepo limit st s :
  fst (getRepos slack world dir user maxrepo limit st) = Return s ->
  exists out,
    world (trace st) (ghCall user maxrepo) = Success out
    /\ elems (heap (snd (getRepos slack world dir user maxrepo limit st))) s
       = parsedRepos out.
Proof.
  intros Hret.
  destruct (getRepos_sim slack world dir user maxrepo limit st)
    as (o & st' & Hr & Hs).
  rewrite Hr in *. simpl in *. subst o.
  unfold ownedSeq in Hs. rewrite bind_call in Hs. simpl in Hs.
  fold (ghCall user maxrepo) in Hs.
  destruct (world (trace st) (ghCall user maxrepo)) as [out|e]; [|done].
  exists out. split; [done|].
  unfold bind in Hs. destruct (cloneSeq _ _ _ _ _) as [[[]|c] st2]; [|done].
  unfold ret in Hs. by injection Hs as <- _.
Qed.

Lemma getStars_listed dir user maxrepo limit st x body jsonData :
  world (trace st) (HttpGet (starredURL user maxrepo)) = Success x ->
  world (trace st ++ [ECall (HttpGet (starredURL user maxrepo)) (Success x)])
    (ReadAll (starredURL user maxrepo)) = Success body ->
  Unmarshal body = inl jsonData ->
  (exists evs,
      trace (snd (getStars slack world dir user maxrepo limit st))
      = trace st
          ++ [ECall (HttpGet (starredURL user maxrepo)) (Success x);
              ECall (ReadAll (starredURL user maxrepo)) (Success body)]
          ++ evs
      /\ cloneRun limit dir (map FullName jsonData) (reponum st)
           (void (fst (getStars slack world dir user maxrepo limit st)))
           (reponum (snd (getStars slack world dir user maxrepo limit st)))
           evs)
  /\ (forall s,
        fst (getStars slack world dir user maxrepo limit st) = Return s ->
        elems (heap (snd (getStars slack world dir user maxrepo limit st))) s
        = map FullName jsonData).
Proof.
  intros Hget Hread Hjson.
  destruct (getStars_sim slack world dir user maxrepo limit st)
    as (o & st' & Hr & Hs).
  rewrite Hr. simpl.
  unfold starredSeq in Hs. rewrite bind_call in Hs. simpl in Hs.
  rewrite Hget in Hs. rewrite bind_call in Hs. simpl in Hs.
  rewrite Hread, Hjson in Hs.
  match type of Hs with bind _ _ ?st1 = _ =>
    destruct (cloneSeq_behaves world limit dir (map FullName jsonData) st1)
      as (o1 & n1 & evs & Hc & HR) end.
  rewrite (bind_run _ _ _ _ _ Hc) in Hs. simpl in *.
  assert (void o = o1 /\ reponum st' = n1
          /\ trace st' = ((trace st
               ++ [ECall (HttpGet (starredURL user maxrepo)) (Success x)])
               ++ [ECall (ReadAll (starredURL user maxrepo)) (Success body)])
               ++ evs
          /\ (forall s, o = Return s ->
                elems (heap st') s = map FullName jsonData))
    as (Ho & Hn & Ht & He).
  { destruct o1 as [[]|c]; simpl in Hs; unfold ret in Hs;
      apply forget_inv in Hs as (Ho & Hn & Ht).
    - destruct o as [s|]; [|done]. simpl in Ho. injection Ho as Ho.
      repeat split; try done. by intros s' [= <-].
    - destruct o as [|c']; [done|]. simpl in Ho. injection Ho as ->.
      repeat split; done. }
  split.
  - exists evs. split; [by rewrite Ht, <- !app_assoc|].
    rewrite Ho, Hn. by destruct o1 as [[]|].
  - done.
Qed.

End Discovery.

Lemma firstField_spec line :
  occurs TAB (firstField line) = false
  /\ (line = firstField line
      \/ exists rest, line = (firstField line ++ String TAB rest)%string).
Proof.
  unfold firstField. pose proof (Join_Split line TAB) as HJ.
  pose proof (Split_pieces line TAB) as HP.
  destruct (Split line TAB) as [|w [|w' ws]]; simpl in *.
  - split; [done|]. by left.
  - apply Forall_cons in HP as [Hw _]. split; [done|]. by left.
  - apply Forall_cons in HP as [Hw _]. split; [done|]. right.
    eexists. by rewrite <- HJ.
Qed.

(** C4.  From the output of [gh repo list], [getRepos] keeps the first
    tab-delimited field of each line that is not empty, in order, and nothing
    else: this is the slice its loop builds and the slice it returns.  The
    first field of a line holds no tab and is the whole line or what stands
    before its first tab.  The output
    a/b<TAB>public<LF>c/d<TAB>private<LF><LF> gives a/b and c/d. *)
Theorem getRepos_parses_first_fields (slack : nat -> nat) (world : World) :
  (forall out st,
      exists s h,
        getRepos_parse slack (Split out LF) nilSlice st
        = (Return s, mkState (reponum st) h (trace st))
        /\ elems h s = parsedRepos out)
  /\ (forall dir user maxrepo limit st s,
        fst (getRepos slack world dir user maxrepo limit st) = Return s ->
        exists out,
          world (trace st) (ghCall user maxrepo) = Success out
          /\ elems (heap (snd (getRepos slack world dir user maxrepo limit st)))
               s = parsedRepos out)
  /\ (forall line,
        occurs TAB (firstField line) = false
        /\ (line = firstField line
            \/ exists rest,
                 line = (firstField line ++ String TAB rest)%string))
  /\ parsedRepos ghOutputExample = ["a/b"; "c/d"].
Proof.
  split; [|split; [|split; [apply firstField_spec | reflexivity]]].
  - intros out st.
    destruct (getRepos_parse_spec slack (Split out LF) nilSlice st
                (wfSlice_nil _)) as (s & h & Hrun & _ & Hel & _).
    exists s, h. split; [done|]. by rewrite Hel.
  - intros dir user maxrepo limit st s. apply getRepos_returns.
Qed.

Lemma getRepos_parses_first_fields_witness :
  exists out,
    worldOK ghOutputExample "" (trace initState) (ghCall "u" "1000")
    = Success out
    /\ elems (heap (snd (getRepos doubling (worldOK ghOutputExample "")
                           "repos" "u" "1000" [] initState)))
         (mkSlice (Some 0%nat) 2)
       = parsedRepos out.
Proof.
  apply (proj1 (proj2 (getRepos_parses_first_fields doubling
                         (worldOK ghOutputExample "")))).
  reflexivity.
Defined.

(** ** Starred discovery *)

Lemma storeMember_other d m :
  foldName (fst m) <> "full_name" -> storeMember (Some d) m = Some d.
Proof.
  intros H. unfold storeMember.
  destruct (String.eqb (foldName (fst m)) "full_name") eqn:E; [|done].
  by apply String.eqb_eq in E.
Qed.

Lemma decodeElement_without_full_name ms :
  Forall (fun m => foldName (fst m) <> "full_name") ms ->
  decodeElement (Object ms) = Some (mkStarsData "").
Proof.
  intros H. cbn [decodeElement]. generalize (mkStarsData "").
  induction H as [|m ms Hm _ IH]; intros d; cbn [foldl]; [done|].
  rewrite storeMember_other by done. apply IH.
Qed.

(** C1, as the code has it.  An entry of the array without a [full_name] field
    is neither an error nor skipped: it decodes to the empty name, and
    [getStars] mirrors and returns one name for each entry of the array, in
    order.  For the body of the example these are x/y, the empty name and
    p/q. *)
Theorem getStars_keeps_every_entry (slack : nat -> nat) (world : World) :
  (forall dir user maxrepo limit st x body jsonData,
      world (trace st) (HttpGet (starredURL user maxrepo)) = Success x ->
      world (trace st
               ++ [ECall (HttpGet (starredURL user maxrepo)) (Success x)])
        (ReadAll (starredURL user maxrepo)) = Success body ->
      Unmarshal body = inl jsonData ->
      (exists evs,
          trace (snd (getStars slack world dir user maxrepo limit st))
          = trace st
              ++ [ECall (HttpGet (starredURL user maxrepo)) (Success x);
                  ECall (ReadAll (starredURL user maxrepo)) (Success body)]
              ++ evs
          /\ cloneRun limit dir (map FullName jsonData) (reponum st)
               (void (fst (getStars slack world dir user maxrepo limit st)))
               (reponum (snd (getStars slack world dir user maxrepo limit st)))
               evs)
      /\ (forall s,
            fst (getStars slack world dir user maxrepo limit st) = Return s ->
            elems (heap (snd (getStars slack world dir user maxrepo limit st)))
              s = map FullName jsonData))
  /\ (forall ms,
        Forall (fun m => foldName (fst m) <> "full_name") ms ->
        decodeElement (Object ms) = Some (mkStarsData ""))
  /\ Unmarshal starredBodyExample
     = inl [mkStarsData "x/y"; mkStarsData ""; mkStarsData "p/q"].
Proof.
  split; [|split; [|by vm_compute]].
  - intros dir user maxrepo limit st x body jsonData.
    apply getStars_listed.
  - apply decodeElement_without_full_name.
Qed.

Lemma getStars_keeps_every_entry_witness :
  elems (heap (snd (getStars doubling (worldOK "" starredBodyExample)
                      "repos" "u" "1000" ["x/y"] initState)))
    (mkSlice (Some 1%nat) 3)
  = map FullName [mkStarsData "x/y"; mkStarsData ""; mkStarsData "p/q"].
Proof.
  apply (proj2 (proj1 (getStars_keeps_every_entry doubling
                         (worldOK "" starredBodyExample))
                  "repos" "u" "1000" ["x/y"] initState "" starredBodyExample
                  [mkStarsData "x/y"; mkStarsData ""; mkStarsData "p/q"]
                  eq_refl eq_refl ltac:(vm_compute; reflexivity))
           (mkSlice (Some 1%nat) 3)).
  vm_compute. reflexivity.
Defined.

(** C1 as stated fails: on the body of the example, the list that [getStars]
    builds and returns has three names, the second one empty. *)
Lemma getStars_skips_nothing_counterexample :
  exists s,
    fst (getStars doubling (worldOK "" starredBodyExample) "repos" "u" "1000"
           [] initState) = Return s
    /\ elems (heap (snd (getStars doubling (worldOK "" starredBodyExample)
                           "repos" "u" "1000" [] initState))) s
       = ["x/y"; ""; "p/q"]
    /\ elems (heap (snd (getStars doubling (worldOK "" starredBodyExample)
                           "repos" "u" "1000" [] initState))) s
       <> ["x/y"; "p/q"].
Proof.
  eexists. split; [vm_compute; reflexivity|].
  split; [vm_compute; reflexivity|]. vm_compute. discriminate.
Qed.

(** ** The mirror driver *)

(** C2, the code at the input of the example.  [cloneRepos] on a/b and c/d
    with the allow-list a/b prints one progress record, invokes one main clone
    and one wiki clone, all for a/b, and returns the nil slice, not a/b; and
    whatever the input, it returns nothing but the nil slice. *)
Theorem cloneRepos_returns_nil :
  cloneRepos noSlack (worldOK "" "") (mkSlice (Some 0%nat) 2) ["a/b"] "repos"
    (mkState 0 [["a/b"; "c/d"]] [])
  = (Return nilSlice,
     mkState 1 [["a/b"; "c/d"]; ["a/b"; "c/d"; "a/b"]]
       [progressEvent 1 "a/b";
        ECall (mainCloneCall "a/b" "repos") (Success "");
        ECall (wikiCloneCall "a/b" "repos") (Success "")])
  /\ elems [["a/b"; "c/d"]; ["a/b"; "c/d"; "a/b"]] nilSlice = []
  /\ progress [progressEvent 1 "a/b";
               ECall (mainCloneCall "a/b" "repos") (Success "");
               ECall (wikiCloneCall "a/b" "repos") (Success "")]
     = [(1%Z, "a/b")]
  /\ mainClones [progressEvent 1 "a/b";
                 ECall (mainCloneCall "a/b" "repos") (Success "");
                 ECall (wikiCloneCall "a/b" "repos") (Success "")]
     = [mainCloneArgs "a/b" "repos"]
  /\ wikiClones [progressEvent 1 "a/b";
                 ECall (mainCloneCall "a/b" "repos") (Success "");
                 ECall (wikiCloneCall "a/b" "repos") (Success "")]
     = [wikiCloneArgs "a/b" "repos"]
  /\ (forall slack world repos limit dir st,
        fst (cloneRepos slack world repos limit dir st) = Return nilSlice
        \/ exists c, fst (cloneRepos slack world repos limit dir st) = Exit c).
Proof.
  split; [by vm_compute|]. do 4 (split; [done|]).
  intros slack world repos limit dir st. unfold cloneRepos, bind.
  destruct (cloneRepos_range _ _ _ _ _ _ _ _) as [[s|c] st']; simpl.
  - by left.
  - right. by exists c.
Qed.

(** ** Fatal errors *)

Lemma getRepos_fatal slack world dir user maxrepo limit st e :
  world (trace st) (ghCall user maxrepo) = Failure e ->
  getRepos slack world dir user maxrepo limit st
  = (Exit 1, addEvents st [ECall (ghCall user maxrepo) (Failure e);
                           ELogFatal [AErr e]]).
Proof.
  intros H. unfold getRepos. rewrite bind_call.
  fold (ghCall user maxrepo). rewrite H.
  unfold logFatal, addEvents. simpl. by rewrite <- app_assoc.
Qed.

Lemma cloneRepos_body_fatal slack world repo repos limit dir st e :
  included repo limit = true ->
  world (trace st ++ [progressEvent (wrap64 (reponum st + 1)) repo])
    (mainCloneCall repo dir) = Failure e ->
  fst (cloneRepos_body slack world repo repos limit dir st) = Exit 1
  /\ trace (snd (cloneRepos_body slack world repo repos limit dir st))
     = trace st ++ [progressEvent (wrap64 (reponum st + 1)) repo;
                    ECall (mainCloneCall repo dir) (Failure e);
                    ELogFatal [AErr e]].
Proof.
  intros Hin Hmain.
  assert (exists h,
    cloneRepos_body slack world repo repos limit dir st
    = (Exit 1,
       mkState (wrap64 (reponum st + 1)) h
         (trace st ++ [progressEvent (wrap64 (reponum st + 1)) repo;
                       ECall (mainCloneCall repo dir) (Failure e);
                       ELogFatal [AErr e]]))) as (h & ->); [|done].
  unfold cloneRepos_body. rewrite Hin. simpl.
  unfold bind at 1. unfold incrReponum. unfold bind at 1. unfold getReponum.
  rewrite bind_emit. simpl.
  match goal with |- context [bind (append slack repos repo) _ ?st1] =>
    destruct (append_spec slack repos repo st1) as (s1 & h1 & Happ & _) end.
  rewrite (bind_run _ _ _ _ _ Happ). simpl. rewrite bind_call. simpl.
  unfold progressEvent, mainCloneCall in *. rewrite Hmain.
  unfold logFatal. simpl. exists h1. by rewrite <- !app_assoc.
Qed.

(** C5.  When the listing by [gh] fails, [getRepos] logs the error and exits
    with status 1; when the mirror clone of an included repository fails, the
    round of [cloneRepos] does the same.  So in the trace of a run of [main],
    a failed invocation of either kind is followed by the message of
    [log.Fatal] and by nothing else, no repository and no account, and the
    process has exited with status 1. *)
Theorem fatal_errors_abort (slack : nat -> nat) (world : World) (fl : Flags) :
  (forall dir user maxrepo limit st e,
      world (trace st) (ghCall user maxrepo) = Failure e ->
      getRepos slack world dir user maxrepo limit st
      = (Exit 1, addEvents st [ECall (ghCall user maxrepo) (Failure e);
                               ELogFatal [AErr e]]))
  /\ (forall repo repos limit dir st e,
        included repo limit = true ->
        world (trace st ++ [progressEvent (wrap64 (reponum st + 1)) repo])
          (mainCloneCall repo dir) = Failure e ->
        fst (cloneRepos_body slack world repo repos limit dir st) = Exit 1
        /\ trace (snd (cloneRepos_body slack world repo repos limit dir st))
           = trace st ++ [progressEvent (wrap64 (reponum st + 1)) repo;
                          ECall (mainCloneCall repo dir) (Failure e);
                          ELogFatal [AErr e]])
  /\ (forall t1 t2 user e,
        trace (snd (main slack world fl initState))
        = t1 ++ ECall (ghCall user (maxrepo fl)) (Failure e) :: t2 ->
        fst (main slack world fl initState) = Exit 1
        /\ exitStatus (fst (main slack world fl initState)) <> 0%Z
        /\ t2 = [ELogFatal [AErr e]])
  /\ (forall t1 t2 repo e,
        trace (snd (main slack world fl initState))
        = t1 ++ ECall (mainCloneCall repo (output fl)) (Failure e) :: t2 ->
        fst (main slack world fl initState) = Exit 1
        /\ exitStatus (fst (main slack world fl initState)) <> 0%Z
        /\ t2 = [ELogFatal [AErr e]]).
Proof.
  split; [intros; by apply getRepos_fatal|].
  split; [intros; by apply cloneRepos_body_fatal|].
  destruct (main_behaves slack world fl initState) as (evs & Ht & HR).
  simpl in Ht. apply mainRun_fatalShape in HR.
  split.
  - intros t1 t2 user e Heq. rewrite Ht in Heq.
    destruct (fatalShape_split _ _ HR _ _ _ _ _ Heq) as (Ho & H2 & _).
    rewrite Ho. by repeat split.
  - intros t1 t2 repo e Heq. rewrite Ht in Heq.
    destruct (fatalShape_split _ _ HR _ _ _ _ _ Heq) as (Ho & H2 & _).
    rewrite Ho. by repeat split.
Qed.

Lemma fatal_errors_abort_witness :
  fst (main noSlack worldGhFails flagsExample initState) = Exit 1
  /\ exitStatus (fst (main noSlack worldGhFails flagsExample initState)) <> 0%Z
  /\ [ELogFatal [AErr (ExternalError "exit status 1")]]
     = [ELogFatal [AErr (ExternalError "exit status 1")]].
Proof.
  apply (proj1 (proj2 (proj2 (fatal_errors_abort noSlack worldGhFails
                                flagsExample)))
           [] [ELogFatal [AErr (ExternalError "exit status 1")]] "u"
           (ExternalError "exit status 1")).
  reflexivity.
Defined.

(** ** Wiki clones *)

Section WikiConcrete.
Variable slack : nat -> nat.
Variables w1 w2 : World.
Hypothesis Hsame : sameButWiki w1 w2.

Lemma alike_forget st : alike (forget st) (forget st).
Proof. by split. Qed.

Lemma cloneRepos_wiki repos limit dir st :
  wfSlice (heap st) repos ->
  fst (cloneRepos slack w1 repos limit dir st)
  = fst (cloneRepos slack w2 repos limit dir st)
  /\ alike (snd (cloneRepos slack w1 repos limit dir st))
           (snd (cloneRepos slack w2 repos limit dir st)).
Proof.
  intros Hwf.
  destruct (cloneRepos_sim slack w1 repos limit dir st Hwf)
    as (o1 & st1 & -> & Hs1 & _ & Hn1).
  destruct (cloneRepos_sim slack w2 repos limit dir st Hwf)
    as (o2 & st2 & -> & Hs2 & _ & Hn2).
  pose proof (cloneSeq_wiki w1 w2 Hsame limit dir (elems (heap st) repos)
                _ _ (alike_forget st)) as [Ho Ha].
  rewrite Hs1, Hs2 in Ho, Ha. simpl in *.
  split; [|done].
  destruct o1 as [s1|c1], o2 as [s2|c2]; simpl in Ho; try done.
  - by rewrite (Hn1 s1 eq_refl), (Hn2 s2 eq_refl).
  - by injection Ho as ->.
Qed.

Lemma main_wiki fl st :
  fst (main slack w1 fl st) = fst (main slack w2 fl st)
  /\ alike (snd (main slack w1 fl st)) (snd (main slack w2 fl st)).
Proof.
  pose proof (loopSeq_wiki w1 w2 Hsame fl (parseLimit fl) (parseUsers fl)
                _ _ (alike_forget st)) as [Ho Ha].
  fold (mainSeq w1 fl) in Ho, Ha. fold (mainSeq w2 fl) in Ho, Ha.
  rewrite (main_sim slack w1 fl st), (main_sim slack w2 fl st) in Ho, Ha.
  simpl in *. split; [|done].
  by destruct (fst (main slack w1 fl st)) as [[]|],
              (fst (main slack w2 fl st)) as [[]|].
Qed.

End WikiConcrete.

Lemma cloneRepos_body_done slack world repo repos limit dir st out :
  included repo limit = true ->
  world (trace st ++ [progressEvent (wrap64 (reponum st + 1)) repo])
    (mainCloneCall repo dir) = Success out ->
  exists s h,
    cloneRepos_body slack world repo repos limit dir st
    = (Return s,
       mkState (wrap64 (reponum st + 1)) h
         (trace st
            ++ [progressEvent (wrap64 (reponum st + 1)) repo;
                ECall (mainCloneCall repo dir) (Success out);
                ECall (wikiCloneCall repo dir)
                  (world
                     (trace st
                        ++ [progressEvent (wrap64 (reponum st + 1)) repo;
                            ECall (mainCloneCall repo dir) (Success out)])
                     (wikiCloneCall repo dir))])).
Proof.
  intros Hin Hmain. unfold cloneRepos_body. rewrite Hin. simpl.
  unfold bind at 1. unfold incrReponum. unfold bind at 1. unfold getReponum.
  rewrite bind_emit. simpl.
  match goal with |- context [bind (append slack repos repo) _ ?st1] =>
    destruct (append_spec slack repos repo st1) as (s1 & h1 & Happ & _) end.
  rewrite (bind_run _ _ _ _ _ Happ). simpl. rewrite bind_call. simpl.
  unfold progressEvent, mainCloneCall, wikiCloneCall in *. rewrite Hmain.
  rewrite bind_call. simpl. exists s1, h1. unfold ret.
  by rewrite <- !app_assoc.
Qed.

Lemma cloneRepos_body_wiki_failure slack world repo repos limit dir st out e :
  included repo limit = true ->
  world (trace st ++ [progressEvent (wrap64 (reponum st + 1)) repo])
    (mainCloneCall repo dir) = Success out ->
  world (trace st ++ [progressEvent (wrap64 (reponum st + 1)) repo;
                      ECall (mainCloneCall repo dir) (Success out)])
    (wikiCloneCall repo dir) = Failure e ->
  exists s,
    fst (cloneRepos_body slack world repo repos limit dir st) = Return s
    /\ trace (snd (cloneRepos_body slack world repo repos limit dir st))
       = trace st ++ [progressEvent (wrap64 (reponum st + 1)) repo;
                      ECall (mainCloneCall repo dir) (Success out);
                      ECall (wikiCloneCall repo dir) (Failure e)].
Proof.
  intros Hin Hmain Hwiki.
  destruct (cloneRepos_body_done slack world repo repos limit dir st out
              Hin Hmain) as (s & h & ->).
  exists s. simpl. by rewrite Hwiki.
Qed.

Lemma cloneRepos_range_goes_on slack world i idx rng repo repos limit dir st
    out e :
  index rng i st = (Return repo, st) ->
  included repo limit = true ->
  world (trace st ++ [progressEvent (wrap64 (reponum st + 1)) repo])
    (mainCloneCall repo dir) = Success out ->
  world (trace st ++ [progressEvent (wrap64 (reponum st + 1)) repo;
                      ECall (mainCloneCall repo dir) (Success out)])
    (wikiCloneCall repo dir) = Failure e ->
  exists s h,
    cloneRepos_range slack world (i :: idx) rng repos limit dir st
    = cloneRepos_range slack world idx rng s limit dir
        (mkState (wrap64 (reponum st + 1)) h
           (trace st ++ [progressEvent (wrap64 (reponum st + 1)) repo;
                         ECall (mainCloneCall repo dir) (Success out);
                         ECall (wikiCloneCall repo dir) (Failure e)])).
Proof.
  intros Hidx Hin Hmain Hwiki.
  destruct (cloneRepos_body_done slack world repo repos limit dir st out
              Hin Hmain) as (s & h & Hbody).
  rewrite Hwiki in Hbody. exists s, h. simpl.
  rewrite (bind_run _ _ _ _ _ Hidx). simpl.
  by rewrite (bind_run _ _ _ _ _ Hbody).
Qed.

Lemma cloneRun_wikiClones limit dir repos : forall n o n' evs,
  cloneRun limit dir repos n o n' evs ->
  follows wikiCloneOf (wikiPlan limit dir repos) o evs.
Proof.
  induction repos as [|repo repos IH]; simpl.
  - apply follows_skip.
  - change (wikiPlan limit dir (repo :: repos))
      with (map (fun repo => wikiCloneArgs repo dir)
              (List.filter (fun repo => included repo limit)
                 ([repo] ++ repos))).
    rewrite List.filter_app, map_app. apply follows_seq; [|exact IH].
    intros n o n' evs H. destruct H as [? Hin|? ? ? Hin|? ? Hin]; simpl;
      rewrite Hin; simpl; split; try done. apply prefix_nil.
Qed.

Lemma cloneRepos_all_cloned slack world repos limit dir st :
  wfSlice (heap st) repos ->
  mainClonesSucceed world dir ->
  fst (cloneRepos slack world repos limit dir st) = Return nilSlice
  /\ exists evs,
       trace (snd (cloneRepos slack world repos limit dir st))
       = trace st ++ evs
       /\ mainClones evs = clonePlan limit dir (elems (heap st) repos)
       /\ wikiClones evs = wikiPlan limit dir (elems (heap st) repos).
Proof.
  intros Hwf Hok.
  assert (fst (cloneRepos slack world repos limit dir st) = Return nilSlice)
    as Hret.
  { destruct (cloneRepos_sim slack world repos limit dir st Hwf)
      as (o & st' & Hr & Hs & _ & Hn).
    destruct (cloneSeq_returns world (elems (heap st) repos) limit dir Hok
                (forget st)) as [[] Ha].
    rewrite Hs in Ha. rewrite Hr. simpl in *.
    destruct o as [s|c]; [|done]. by rewrite (Hn s eq_refl). }
  split; [done|].
  destruct (cloneRepos_behaves slack world repos limit dir st Hwf)
    as (evs & Ht & HR).
  rewrite Hret in HR. simpl in HR. exists evs. split; [done|]. split.
  - apply cloneRun_mainClones in HR as [_ HR]. by apply HR.
  - apply cloneRun_wikiClones in HR as [_ HR]. by apply HR.
Qed.

(** C6.  A failed wiki clone changes nothing but its own record in the trace,
    in any world.  The round of an included repository whose wiki clone fails
    returns, without a message, and the loop of [cloneRepos] goes on with the
    elements that remain.  When no mirror clone fails, [cloneRepos] returns
    (the nil slice, as always) after the mirror clone and the wiki clone of
    every included element, and [main] ends with status 0 when no invocation
    through [Output()] fails, whatever the wiki clones do.  And a world that
    differs in the results of the wiki clones only gives the same outcome of
    [cloneRepos] (the same returned slice, the same exit status), the same
    counter and the same trace up to these results, and the same for the
    whole of [main]. *)
Theorem wiki_failures_are_swallowed (slack : nat -> nat) (world : World) :
  (forall repo repos limit dir st out e,
      included repo limit = true ->
      world (trace st ++ [progressEvent (wrap64 (reponum st + 1)) repo])
        (mainCloneCall repo dir) = Success out ->
      world (trace st ++ [progressEvent (wrap64 (reponum st + 1)) repo;
                          ECall (mainCloneCall repo dir) (Success out)])
        (wikiCloneCall repo dir) = Failure e ->
      exists s,
        fst (cloneRepos_body slack world repo repos limit dir st) = Return s
        /\ trace (snd (cloneRepos_body slack world repo repos limit dir st))
           = trace st ++ [progressEvent (wrap64 (reponum st + 1)) repo;
                          ECall (mainCloneCall repo dir) (Success out);
                          ECall (wikiCloneCall repo dir) (Failure e)])
  /\ (forall i idx rng repo repos limit dir st out e,
        index rng i st = (Return repo, st) ->
        included repo limit = true ->
        world (trace st ++ [progressEvent (wrap64 (reponum st + 1)) repo])
          (mainCloneCall repo dir) = Success out ->
        world (trace st ++ [progressEvent (wrap64 (reponum st + 1)) repo;
                            ECall (mainCloneCall repo dir) (Success out)])
          (wikiCloneCall repo dir) = Failure e ->
        exists s h,
          cloneRepos_range slack world (i :: idx) rng repos limit dir st
          = cloneRepos_range slack world idx rng s limit dir
              (mkState (wrap64 (reponum st + 1)) h
                 (trace st
                    ++ [progressEvent (wrap64 (reponum st + 1)) repo;
                        ECall (mainCloneCall repo dir) (Success out);
                        ECall (wikiCloneCall repo dir) (Failure e)])))
  /\ (forall repos limit dir st,
        wfSlice (heap st) repos ->
        mainClonesSucceed world dir ->
        fst (cloneRepos slack world repos limit dir st) = Return nilSlice
        /\ exists evs,
             trace (snd (cloneRepos slack world repos limit dir st))
             = trace st ++ evs
             /\ mainClones evs = clonePlan limit dir (elems (heap st) repos)
             /\ wikiClones evs = wikiPlan limit dir (elems (heap st) repos))
  /\ (forall fl,
        outputsSucceed world ->
        fst (main slack world fl initState) = Return tt
        /\ exitStatus (fst (main slack world fl initState)) = 0%Z)
  /\ (forall w2 repos limit dir st,
        sameButWiki world w2 ->
        wfSlice (heap st) repos ->
        fst (cloneRepos slack world repos limit dir st)
        = fst (cloneRepos slack w2 repos limit dir st)
        /\ reponum (snd (cloneRepos slack world repos limit dir st))
           = reponum (snd (cloneRepos slack w2 repos limit dir st))
        /\ map eraseWiki
             (trace (snd (cloneRepos slack world repos limit dir st)))
           = map eraseWiki
               (trace (snd (cloneRepos slack w2 repos limit dir st))))
  /\ (forall w2 fl,
        sameButWiki world w2 ->
        exitStatus (fst (main slack world fl initState))
        = exitStatus (fst (main slack w2 fl initState))
        /\ reponum (snd (main slack world fl initState))
           = reponum (snd (main slack w2 fl initState))
        /\ map eraseWiki (trace (snd (main slack world fl initState)))
           = map eraseWiki (trace (snd (main slack w2 fl initState)))).
Proof.
  split; [|split; [|split; [|split; [|split]]]].
  - intros repo repos limit dir st out e.
    apply cloneRepos_body_wiki_failure.
  - intros. by eapply cloneRepos_range_goes_on.
  - intros. by apply cloneRepos_all_cloned.
  - intros fl Hok. by rewrite (main_returns slack world fl initState Hok).
  - intros w2 repos limit dir st Hsame Hwf.
    destruct (cloneRepos_wiki slack world w2 Hsame repos limit dir st Hwf)
      as (Ho & Hn & Ht). done.
  - intros w2 fl Hsame.
    destruct (main_wiki slack world w2 Hsame fl initState) as (Ho & Hn & Ht).
    by rewrite Ho.
Qed.

Lemma sameButWiki_example ghout body :
  sameButWiki (worldNoWiki ghout body) (worldOK ghout body).
Proof. intros t1 t2 c Hc _. by destruct c. Qed.

(** Every wiki clone fails: after the round of the first element the loop
    goes on with the second, and both elements are cloned. *)
Lemma wiki_failures_are_swallowed_witness :
  (exists s h,
     cloneRepos_range noSlack (worldNoWiki "" "") [0; 1]%nat twoRepos twoRepos
       [] "repos" roomyState
     = cloneRepos_range noSlack (worldNoWiki "" "") [1%nat] twoRepos s []
         "repos"
         (mkState (wrap64 (reponum roomyState + 1)) h
            (trace roomyState
               ++ [progressEvent (wrap64 (reponum roomyState + 1)) "a/b";
                   ECall (mainCloneCall "a/b" "repos") (Success "");
                   ECall (wikiCloneCall "a/b" "repos")
                     (Failure (ExternalError "exit status 128"))])))
  /\ fst (cloneRepos noSlack (worldNoWiki "" "") twoRepos [] "repos"
            roomyState)
     = Return nilSlice
  /\ exists evs,
       trace (snd (cloneRepos noSlack (worldNoWiki "" "") twoRepos [] "repos"
                     roomyState))
       = trace roomyState ++ evs
       /\ mainClones evs
          = clonePlan [] "repos" (elems (heap roomyState) twoRepos)
       /\ wikiClones evs
          = wikiPlan [] "repos" (elems (heap roomyState) twoRepos)
       /\ exitStatus (fst (main noSlack (worldNoWiki "" "") flagsExample
                             initState))
          = exitStatus (fst (main noSlack (worldOK "" "") flagsExample
                               initState)).
Proof.
  split.
  - apply (proj1 (proj2 (wiki_failures_are_swallowed noSlack
                           (worldNoWiki "" "")))
             0%nat [1%nat] twoRepos "a/b" twoRepos [] "repos" roomyState ""
             (ExternalError "exit status 128")); reflexivity.
  - destruct (proj1 (proj2 (proj2 (wiki_failures_are_swallowed noSlack
                                     (worldNoWiki "" "")))) twoRepos []
                "repos" roomyState) as [Hret (evs & Ht & Hm & Hw)].
    + unfold wfSlice. vm_compute. lia.
    + intros t repo. by eexists.
    + split; [exact Hret|]. exists evs.
      split; [exact Ht|]. split; [exact Hm|]. split; [exact Hw|].
      apply (proj2 (proj2 (proj2 (proj2 (proj2
               (wiki_failures_are_swallowed noSlack (worldNoWiki "" ""))))))
               (worldOK "" "") flagsExample
               (sameButWiki_example "" "")).
Defined.

(** ** Errors of the starred discovery *)

Section StarredErrors.
Variable slack : nat -> nat.
Variable world : World.

Lemma getStars_http_error dir user maxrepo limit st e :
  world (trace st) (HttpGet (starredURL user maxrepo)) = Failure e ->
  getStars slack world dir user maxrepo limit st
  = (Return nilSlice,
     addEvents st [ECall (HttpGet (starredURL user maxrepo)) (Failure e);
                   httpErrorLog user e]).
Proof.
  intros H. unfold getStars. rewrite bind_call, H, bind_emit.
  unfold ret, addEvents. simpl. by rewrite <- app_assoc.
Qed.

Lemma getStars_read_error dir user maxrepo limit st x e :
  world (trace st) (HttpGet (starredURL user maxrepo)) = Success x ->
  world (trace st ++ [ECall (HttpGet (starredURL user maxrepo)) (Success x)])
    (ReadAll (starredURL user maxrepo)) = Failure e ->
  getStars slack world dir user maxrepo limit st
  = (Return nilSlice,
     addEvents st [ECall (HttpGet (starredURL user maxrepo)) (Success x);
                   ECall (ReadAll (starredURL user maxrepo)) (Failure e);
                   readErrorLog e]).
Proof.
  intros H1 H2. unfold getStars. rewrite bind_call, H1, bind_call. simpl.
  rewrite H2, bind_emit. unfold ret, addEvents. simpl.
  by rewrite <- !app_assoc.
Qed.

Lemma getStars_json_error dir user maxrepo limit st x body e :
  world (trace st) (HttpGet (starredURL user maxrepo)) = Success x ->
  world (trace st ++ [ECall (HttpGet (starredURL user maxrepo)) (Success x)])
    (ReadAll (starredURL user maxrepo)) = Success body ->
  Unmarshal body = inr e ->
  getStars slack world dir user maxrepo limit st
  = (Return nilSlice,
     addEvents st [ECall (HttpGet (starredURL user maxrepo)) (Success x);
                   ECall (ReadAll (starredURL user maxrepo)) (Success body);
                   jsonErrorLog e body]).
Proof.
  intros H1 H2 H3. unfold getStars. rewrite bind_call, H1, bind_call. simpl.
  rewrite H2, H3, bind_emit. unfold ret, addEvents. simpl.
  by rewrite <- !app_assoc.
Qed.

Lemma main_loop_goes_on fl limit user users st evs :
  starsonly fl = true ->
  getStars slack world (output fl) (TrimSpace user) (maxrepo fl) limit st
  = (Return nilSlice, addEvents st evs) ->
  main_loop slack world fl limit (user :: users) st
  = main_loop slack world fl limit users (addEvents st evs).
Proof.
  intros Hso Hget. simpl. unfold main_body. rewrite Hso. simpl.
  rewrite orb_true_r. unfold bind, ret. by rewrite Hget.
Qed.

Lemma main_loop_goes_on_after_owned fl limit user users st s st1 evs :
  starsonly fl = false -> stars fl = true ->
  getRepos slack world (output fl) (TrimSpace user) (maxrepo fl) limit st
  = (Return s, st1) ->
  getStars slack world (output fl) (TrimSpace user) (maxrepo fl) limit st1
  = (Return nilSlice, addEvents st1 evs) ->
  main_loop slack world fl limit (user :: users) st
  = main_loop slack world fl limit users (addEvents st1 evs).
Proof.
  intros Hso Hs Hrepos Hget. simpl. unfold main_body. rewrite Hso, Hs. simpl.
  unfold bind, ret. by rewrite Hrepos, Hget.
Qed.

End StarredErrors.

(** C7.  When the HTTP request fails, when the body of the response cannot be
    read, or when the body does not decode, [getStars] logs one message, with
    the account and the error, with the error, or with the error and the body,
    and returns the nil slice; it invokes no clone, the counter does not move,
    and the loop of [main] goes on with the accounts that remain, whether the
    starred discovery runs alone or after the owned one. *)
Theorem getStars_errors_are_logged (slack : nat -> nat) (world : World) :
  (forall dir user maxrepo limit st e,
      world (trace st) (HttpGet (starredURL user maxrepo)) = Failure e ->
      getStars slack world dir user maxrepo limit st
      = (Return nilSlice,
         addEvents st [ECall (HttpGet (starredURL user maxrepo)) (Failure e);
                       httpErrorLog user e]))
  /\ (forall dir user maxrepo limit st x e,
        world (trace st) (HttpGet (starredURL user maxrepo)) = Success x ->
        world (trace st
                 ++ [ECall (HttpGet (starredURL user maxrepo)) (Success x)])
          (ReadAll (starredURL user maxrepo)) = Failure e ->
        getStars slack world dir user maxrepo limit st
        = (Return nilSlice,
           addEvents st
             [ECall (HttpGet (starredURL user maxrepo)) (Success x);
              ECall (ReadAll (starredURL user maxrepo)) (Failure e);
              readErrorLog e]))
  /\ (forall dir user maxrepo limit st x body e,
        world (trace st) (HttpGet (starredURL user maxrepo)) = Success x ->
        world (trace st
                 ++ [ECall (HttpGet (starredURL user maxrepo)) (Success x)])
          (ReadAll (starredURL user maxrepo)) = Success body ->
        Unmarshal body = inr e ->
        getStars slack world dir user maxrepo limit st
        = (Return nilSlice,
           addEvents st
             [ECall (HttpGet (starredURL user maxrepo)) (Success x);
              ECall (ReadAll (starredURL user maxrepo)) (Success body);
              jsonErrorLog e body]))
  /\ (forall fl limit user users st evs,
        starsonly fl = true ->
        getStars slack world (output fl) (TrimSpace user) (maxrepo fl) limit st
        = (Return nilSlice, addEvents st evs) ->
        main_loop slack world fl limit (user :: users) st
        = main_loop slack world fl limit users (addEvents st evs))
  /\ (forall fl limit user users st s st1 evs,
        starsonly fl = false -> stars fl = true ->
        getRepos slack world (output fl) (TrimSpace user) (maxrepo fl) limit st
        = (Return s, st1) ->
        getStars slack world (output fl) (TrimSpace user) (maxrepo fl) limit
          st1
        = (Return nilSlice, addEvents st1 evs) ->
        main_loop slack world fl limit (user :: users) st
        = main_loop slack world fl limit users (addEvents st1 evs)).
Proof.
  split; [|split; [|split; [|split]]].
  - intros. by apply getStars_http_error.
  - intros. by apply getStars_read_error.
  - intros. by apply getStars_json_error.
  - intros. by apply main_loop_goes_on.
  - intros. by eapply main_loop_goes_on_after_owned.
Qed.

Lemma getStars_errors_are_logged_witness :
  getStars noSlack worldHttpFails "repos" "u" "1000" [] initState
  = (Return nilSlice,
     addEvents initState
       [ECall (HttpGet (starredURL "u" "1000"))
          (Failure (ExternalError "no such host"));
        httpErrorLog "u" (ExternalError "no such host")])
  /\ getStars noSlack worldReadFails "repos" "u" "1000" [] initState
     = (Return nilSlice,
        addEvents initState
          [ECall (HttpGet (starredURL "u" "1000")) (Success "");
           ECall (ReadAll (starredURL "u" "1000"))
             (Failure (ExternalError "unexpected EOF"));
           readErrorLog (ExternalError "unexpected EOF")])
  /\ getStars noSlack (worldOK "" "{}") "repos" "u" "1000" [] initState
     = (Return nilSlice,
        addEvents initState
          [ECall (HttpGet (starredURL "u" "1000")) (Success "");
           ECall (ReadAll (starredURL "u" "1000")) (Success "{}");
           jsonErrorLog UnmarshalTypeError "{}"])
  /\ main_loop noSlack worldHttpFails starsOnlyExample [] ["u"; "v"] initState
     = main_loop noSlack worldHttpFails starsOnlyExample [] ["v"]
         (addEvents initState
            [ECall (HttpGet (starredURL "u" "1000"))
               (Failure (ExternalError "no such host"));
             httpErrorLog "u" (ExternalError "no such host")]).
Proof.
  split; [|split; [|split]].
  - apply (proj1 (getStars_errors_are_logged noSlack worldHttpFails)).
    reflexivity.
  - apply (proj1 (proj2 (getStars_errors_are_logged noSlack worldReadFails)));
      reflexivity.
  - apply (proj1 (proj2 (proj2 (getStars_errors_are_logged noSlack
                                  (worldOK "" "{}")))));
      reflexivity.
  - apply (proj1 (proj2 (proj2 (proj2 (getStars_errors_are_logged noSlack
                                         worldHttpFails))))); reflexivity.
Defined.

(** ** Which discoveries run *)

Lemma discoveryPlan_owned fl u :
  Owned u ∈ discoveryPlan fl
  <-> starsonly fl = false
      /\ exists user, user ∈ parseUsers fl /\ TrimSpace user = u.
Proof.
  unfold discoveryPlan. generalize (parseUsers fl). intros users.
  induction users as [|x users IH]; simpl.
  - split; [by intros ?%elem_of_nil|]. by intros (_ & ? & ?%elem_of_nil & _).
  - rewrite elem_of_app, IH. unfold discoveryPlanFor. split.
    + intros [H|(Hs & user & Hu & Ht)].
      * destruct (starsonly fl), (stars fl); simpl in H;
          repeat (apply elem_of_cons in H as [H|H]; try done);
          try (by apply elem_of_nil in H);
          injection H as ->; (split; [done|]); exists x;
          (split; [apply list_elem_of_here | done]).
      * split; [done|]. exists user. split; [by apply list_elem_of_further|done].
    + intros (Hs & user & Hu & Ht). apply elem_of_cons in Hu as [->|Hu].
      * left. rewrite Hs, Ht. simpl. apply list_elem_of_here.
      * right. split; [done|]. by exists user.
Qed.

Lemma discoveryPlan_starred fl url :
  Starred url ∈ discoveryPlan fl
  <-> stars fl || starsonly fl = true
      /\ exists user, user ∈ parseUsers fl
                      /\ starredURL (TrimSpace user) (maxrepo fl) = url.
Proof.
  unfold discoveryPlan. generalize (parseUsers fl). intros users.
  induction users as [|x users IH]; simpl.
  - split; [by intros ?%elem_of_nil|]. by intros (_ & ? & ?%elem_of_nil & _).
  - rewrite elem_of_app, IH. unfold discoveryPlanFor. split.
    + intros [H|(Hs & user & Hu & Ht)].
      * destruct (starsonly fl), (stars fl); simpl in H;
          repeat (apply elem_of_cons in H as [H|H]; try done);
          try (by apply elem_of_nil in H);
          injection H as ->; (split; [done|]); exists x;
          (split; [apply list_elem_of_here | done]).
      * split; [done|]. exists user. split; [by apply list_elem_of_further|done].
    + intros (Hs & user & Hu & Ht). apply elem_of_cons in Hu as [->|Hu].
      * left. rewrite Hs, Ht. apply elem_of_app. right. apply list_elem_of_here.
      * right. split; [done|]. by exists user.
Qed.

(** C8, as the code has it.  The discoveries of a run are, in order, those
    that the flags call for, account after account: an initial part of them
    in every run, and all of them when the run is not aborted.  So in a run
    that ends normally the owned discovery of an account of the list is
    invoked exactly when [starsonly] is false, and its starred discovery
    exactly when [stars] or [starsonly] is true; and with [starsonly] no owned
    discovery is invoked in any run. *)
Theorem discoveries_follow_flags (slack : nat -> nat) (world : World)
    (fl : Flags) :
  discoveries (trace (snd (main slack world fl initState)))
    `prefix_of` discoveryPlan fl
  /\ (fst (main slack world fl initState) = Return tt ->
      discoveries (trace (snd (main slack world fl initState)))
      = discoveryPlan fl
      /\ forall user, user ∈ parseUsers fl ->
           (Owned (TrimSpace user)
              ∈ discoveries (trace (snd (main slack world fl initState)))
            <-> starsonly fl = false)
           /\ (Starred (starredURL (TrimSpace user) (maxrepo fl))
                 ∈ discoveries (trace (snd (main slack world fl initState)))
               <-> stars fl || starsonly fl = true))
  /\ (starsonly fl = true ->
      forall user,
        Owned user ∉ discoveries (trace (snd (main slack world fl initState)))).
Proof.
  destruct (main_behaves slack world fl initState) as (evs & Ht & HR).
  simpl in Ht. rewrite Ht.
  apply loopRun_discoveries in HR as [Hpre Hret].
  fold (discoveryPlan fl) in Hpre, Hret. fold (discoveries evs) in Hpre, Hret.
  split; [done|]. split.
  - intros Ho. rewrite (Hret Ho). split; [done|]. intros user Hu. split.
    + rewrite discoveryPlan_owned. split; [by intros [? _]|].
      intros Hs. split; [done|]. by exists user.
    + rewrite discoveryPlan_starred. split; [by intros [? _]|].
      intros Hs. split; [done|]. by exists user.
  - intros Hs user Hin. destruct Hpre as [k Hk].
    assert (Owned user ∈ discoveryPlan fl) as Hp
      by (rewrite Hk; apply elem_of_app; by left).
    apply discoveryPlan_owned in Hp as [Hf _]. congruence.
Qed.

Lemma discoveries_follow_flags_witness :
  discoveries
    (trace (snd (main noSlack (worldOK ghOutputExample "[]") flagsExample
                   initState)))
  = discoveryPlan flagsExample
  /\ forall user, user ∈ parseUsers flagsExample ->
       (Owned (TrimSpace user)
          ∈ discoveries
              (trace (snd (main noSlack (worldOK ghOutputExample "[]")
                             flagsExample initState)))
        <-> starsonly flagsExample = false)
       /\ (Starred (starredURL (TrimSpace user) (maxrepo flagsExample))
             ∈ discoveries
                 (trace (snd (main noSlack (worldOK ghOutputExample "[]")
                                flagsExample initState)))
           <-> stars flagsExample || starsonly flagsExample = true).
Proof.
  apply (proj1 (proj2 (discoveries_follow_flags noSlack
                         (worldOK ghOutputExample "[]") flagsExample))).
  reflexivity.
Defined.

(** C8 as stated fails: when [gh] fails for the first account, the owned
    discovery of the second is not invoked although [starsonly] is false. *)
Lemma discovery_of_every_account_counterexample :
  " v" ∈ parseUsers flagsExample
  /\ starsonly flagsExample = false
  /\ Owned (TrimSpace " v")
       ∉ discoveries
           (trace (snd (main noSlack worldGhFails flagsExample initState))).
Proof.
  split; [|split; [done|]].
  - vm_compute. apply list_elem_of_further, list_elem_of_here.
  - vm_compute. intros H. apply elem_of_cons in H as [H|H]; [done|].
    by apply elem_of_nil in H.
Qed.

(** ** The progress counter *)

Lemma cloneRepos_body_counts slack world repo repos limit dir st :
  included repo limit = true ->
  reponum (snd (cloneRepos_body slack world repo repos limit dir st))
  = wrap64 (reponum st + 1)
  /\ exists evs,
       trace (snd (cloneRepos_body slack world repo repos limit dir st))
       = trace st ++ progressEvent (wrap64 (reponum st + 1)) repo :: evs
       /\ progress evs = [].
Proof.
  intros Hin.
  destruct (cloneRepos_body_sim slack world repo repos limit dir st)
    as (o & st' & -> & Hs & _).
  destruct (cloneOne_cases world repo limit dir (forget st) Hin)
    as [(out & w & Hc)|(e & Hc)]; rewrite Hc in Hs;
    apply forget_inv in Hs as (_ & Hn & Ht); simpl in *;
    (split; [done|]); eexists; (split; [exact Ht|]); done.
Qed.

(** C9.  There is one counter for the whole run.  A round of [cloneRepos] for
    a repository that is not included changes nothing; a round for an included
    repository adds one to the counter (in 64-bit arithmetic) and prints one
    record with the new value and the repository; so in a run of [main],
    over all accounts and both discoveries, the counters printed are the
    successive values of one counter that starts at 0, that is 1, 2, 3, ...
    as long as the 64-bit counter does not overflow; the counter ends at the
    number of records, and the records are those of the main clones
    invoked. *)
Theorem progress_counter_is_one_tally (slack : nat -> nat) (world : World)
    (fl : Flags) :
  (forall repo repos limit dir st,
      included repo limit = false ->
      cloneRepos_body slack world repo repos limit dir st = (Return repos, st))
  /\ (forall repo repos limit dir st,
      included repo limit = true ->
      reponum (snd (cloneRepos_body slack world repo repos limit dir st))
      = wrap64 (reponum st + 1)
      /\ exists evs,
           trace (snd (cloneRepos_body slack world repo repos limit dir st))
           = trace st ++ progressEvent (wrap64 (reponum st + 1)) repo :: evs
           /\ progress evs = [])
  /\ map fst (progress (trace (snd (main slack world fl initState))))
     = countersFrom 0
         (length (progress (trace (snd (main slack world fl initState)))))
  /\ reponum (snd (main slack world fl initState))
     = bump 0 (length (progress (trace (snd (main slack world fl initState)))))
  /\ map (fun p => mainCloneArgs (snd p) (output fl))
       (progress (trace (snd (main slack world fl initState))))
     = mainClones (trace (snd (main slack world fl initState)))
  /\ ((Z.of_nat
         (length (progress (trace (snd (main slack world fl initState)))))
       < 2 ^ 63)%Z ->
      map fst (progress (trace (snd (main slack world fl initState))))
      = map Z.of_nat
          (seq 1
             (length (progress (trace (snd (main slack world fl initState))))))
      /\ reponum (snd (main slack world fl initState))
         = Z.of_nat
             (length (progress (trace (snd (main slack world fl initState)))))).
Proof.
  split.
  { intros repo repos limit dir st Hin. unfold cloneRepos_body.
    by rewrite Hin. }
  split; [intros; by apply cloneRepos_body_counts|].
  destruct (main_behaves slack world fl initState) as (evs & Ht & HR).
  simpl in Ht. rewrite Ht. apply mainRun_tally in HR as (Hc & Hn & Hm).
  simpl in *. split; [done|]. split; [done|]. split; [done|].
  intros Hsmall. rewrite Hc, Hn.
  destruct (countersFrom_small (length (progress evs)) 0) as [-> ->];
    [lia | lia |].
  split; [|lia]. apply map_ext. intros i. lia.
Qed.

Lemma progress_counter_is_one_tally_witness :
  map fst
    (progress (trace (snd (main doubling
                             (worldOK ghOutputExample starredBodyExample)
                             flagsExample initState))))
  = map Z.of_nat [1; 2; 3; 4; 5; 6; 7; 8; 9; 10]%nat
  /\ reponum (snd (main doubling
                     (worldOK ghOutputExample starredBodyExample)
                     flagsExample initState))
     = 10%Z.
Proof.
  apply (proj2 (proj2 (proj2 (proj2 (proj2
           (progress_counter_is_one_tally doubling
              (worldOK ghOutputExample starredBodyExample) flagsExample)))))).
  vm_compute. reflexivity.
Defined.

(** ** The range of the loop of [cloneRepos] *)

(** C10, as the code has it.  The loop of [cloneRepos] ranges over the elements
    that the slice has at loop entry, whatever the rounds append: the arrays
    of the store are left unchanged below the length of the slice, and the
    main clones invoked are, in order and one for each element, those of the
    elements that the filter accepts, up to the first that fails; when the
    call returns, they are those of all the accepted elements, and as
    many. *)
Theorem cloneRepos_ranges_over_the_input (slack : nat -> nat) (world : World)
    (repos : slice) (limit : list string) (dir : string) (st : State) :
  wfSlice (heap st) repos ->
  agreeBelow (len repos) (heap st)
    (heap (snd (cloneRepos slack world repos limit dir st)))
  /\ exists evs,
       trace (snd (cloneRepos slack world repos limit dir st))
       = trace st ++ evs
       /\ mainClones evs
            `prefix_of` clonePlan limit dir (elems (heap st) repos)
       /\ (forall s,
             fst (cloneRepos slack world repos limit dir st) = Return s ->
             mainClones evs = clonePlan limit dir (elems (heap st) repos)
             /\ length (mainClones evs)
                = length (List.filter (fun repo => included repo limit)
                            (elems (heap st) repos))).
Proof.
  intros Hwf. split.
  - destruct (cloneRepos_sim slack world repos limit dir st Hwf)
      as (o & st' & -> & _ & Hag & _). done.
  - destruct (cloneRepos_behaves slack world repos limit dir st Hwf)
      as (evs & Ht & HR).
    exists evs. split; [done|].
    apply cloneRun_mainClones in HR as [Hpre Hret].
    split; [done|]. intros s Hs. rewrite Hs in Hret. simpl in Hret.
    fold (mainClones evs) in Hret. rewrite (Hret eq_refl).
    split; [done|]. unfold clonePlan. by rewrite length_map.
Qed.

Lemma cloneRepos_ranges_over_the_input_witness :
  agreeBelow 2 [["a/b"; "c/d"; ""; ""]]
    (heap (snd (cloneRepos noSlack (worldOK "" "") twoRepos [] "repos"
                  roomyState)))
  /\ exists evs,
       trace (snd (cloneRepos noSlack (worldOK "" "") twoRepos [] "repos"
                     roomyState))
       = [] ++ evs
       /\ mainClones evs `prefix_of` clonePlan [] "repos" ["a/b"; "c/d"]
       /\ (forall s,
             fst (cloneRepos noSlack (worldOK "" "") twoRepos [] "repos"
                    roomyState) = Return s ->
             mainClones evs = clonePlan [] "repos" ["a/b"; "c/d"]
             /\ length (mainClones evs)
                = length (List.filter (fun repo => included repo [])
                            ["a/b"; "c/d"])).
Proof.
  apply (cloneRepos_ranges_over_the_input noSlack (worldOK "" "") twoRepos []
           "repos" roomyState).
  unfold wfSlice. vm_compute. lia.
Defined.

(** The appends of the example above write the two names after the two
    elements of the shared array, and the loop makes its two rounds. *)
Example cloneRepos_appends_in_place :
  heap (snd (cloneRepos noSlack (worldOK "" "") twoRepos [] "repos"
               roomyState))
  = [["a/b"; "c/d"; "a/b"; "c/d"]]
  /\ mainClones (trace (snd (cloneRepos noSlack (worldOK "" "") twoRepos []
                              "repos" roomyState)))
     = [mainCloneArgs "a/b" "repos"; mainCloneArgs "c/d" "repos"].
Proof. by vm_compute. Qed.

(** C10 as stated fails: on a/b, a/b, c/d, all accepted, the main clone of a/b
    is invoked twice, the second one fails because the first one has made the
    destination, and c/d is never considered: two main clones for three
    accepted elements. *)
Lemma cloneRepos_aborted_counterexample :
  fst (cloneRepos noSlack worldOnce threeRepos [] "repos" repeatedState)
  = Exit 1
  /\ mainClones
       (trace (snd (cloneRepos noSlack worldOnce threeRepos [] "repos"
                      repeatedState)))
     = [mainCloneArgs "a/b" "repos"; mainCloneArgs "a/b" "repos"]
  /\ length (mainClones
               (trace (snd (cloneRepos noSlack worldOnce threeRepos [] "repos"
                              repeatedState)))) = 2%nat
  /\ length (List.filter (fun repo => included repo [])
               (elems (heap repeatedState) threeRepos)) = 3%nat.
Proof. by vm_compute. Qed.

(** * Further properties of the program *)

(** ** The flags *)

(** X1.  The allow-list of a run is off exactly when the [-limit] flag is
    blank (empty or white space only): then every repository is included.
    Otherwise the allow-list is the list of the comma-separated pieces of the
    flag, which is never empty, and a repository is included exactly when it
    equals one of the pieces with the white space around it trimmed. *)
Theorem limit_flag_sets_the_filter (fl : Flags) :
  (String.length (TrimSpace (limitslist fl)) = 0%nat ->
   parseLimit fl = [] /\ forall r, included r (parseLimit fl) = true)
  /\ (String.length (TrimSpace (limitslist fl)) <> 0%nat ->
      parseLimit fl <> []
      /\ Join (parseLimit fl) COMMA = limitslist fl
      /\ Forall (fun e => occurs COMMA e = false) (parseLimit fl)
      /\ forall r,
           included r (parseLimit fl) = true
           <-> exists e, e ∈ parseLimit fl /\ TrimSpace e = r).
Proof.
  unfold parseLimit. split; intros H.
  - apply Nat.eqb_eq in H. rewrite H. by split.
  - apply Nat.eqb_neq in H. rewrite H. simpl.
    pose proof (Split_not_nil (limitslist fl) COMMA) as Hne.
    split; [done|]. split; [apply Join_Split|]. split; [apply Split_pieces|].
    intros r. unfold included.
    destruct (Split (limitslist fl) COMMA) as [|a l] eqn:E; [done|].
    change (inSlise r (a :: l) = true
            <-> exists e, e ∈ a :: l /\ TrimSpace e = r).
    apply inSlise_spec.
Qed.

Lemma limit_flag_sets_the_filter_witness :
  parseLimit limitExample <> []
  /\ Join (parseLimit limitExample) COMMA = limitslist limitExample
  /\ Forall (fun e => occurs COMMA e = false) (parseLimit limitExample)
  /\ forall r,
       included r (parseLimit limitExample) = true
       <-> exists e, e ∈ parseLimit limitExample /\ TrimSpace e = r.
Proof.
  apply (proj2 (limit_flag_sets_the_filter limitExample)).
  vm_compute. discriminate.
Defined.



(** ** How a run ends *)

(** The part of [main] after [flag.Parse] returns or exits with status 1. *)
Lemma main_outcome (slack : nat -> nat) (world : World) (fl : Flags) :
  (fst (main slack world fl initState) = Return tt
   \/ fst (main slack world fl initState) = Exit 1)
  /\ (exitStatus (fst (main slack world fl initState)) = 0%Z
      \/ exitStatus (fst (main slack world fl initState)) = 1%Z)
  /\ (fst (main slack world fl initState) = Return tt
      <-> Forall (fun e => isFailedOutput e = false)
            (trace (snd (main slack world fl initState))))
  /\ (fst (main slack world fl initState) = Exit 1
      <-> exists t name args e,
            trace (snd (main slack world fl initState))
            = t ++ [ECall (CmdOutput name args) (Failure e);
                    ELogFatal [AErr e]]).
Proof.
  destruct (main_behaves slack world fl initState) as (evs & Ht & HR).
  simpl in Ht. rewrite Ht. apply mainRun_fatalShape in HR.
  destruct HR as [evs HF|evs name args e HF].
  - split; [by left|]. split; [by left|]. split; [done|]. split; [done|].
    intros (t & name & args & e & ->). apply Forall_app in HF as [_ HF].
    by apply Forall_cons in HF as [HF _].
  - split; [by right|]. split; [by right|]. split.
    + split; [done|]. intros HF'. apply Forall_app in HF' as [_ HF'].
      by apply Forall_cons in HF' as [HF' _].
    + split; [|done]. intros _. by exists evs, name, args, e.
Qed.

(** X3.  A run of the program never panics.  It exits with status 2 exactly
    when its command line does not parse, with status 0 without returning
    exactly when the usage was asked for, and with status 1 exactly when its
    trace ends with an invocation through [Output()] that failed and the
    message of [log.Fatal] for its error.  It returns (exit status 0) exactly
    when the command line parses and no invocation through [Output()] failed,
    whatever the wiki clones, the HTTP requests and the decoding did. *)
Theorem main_exit_status (slack : nat -> nat) (world : World)
    (args : list string) :
  (fst (main_of_args slack world args initState) = Return tt
   \/ fst (main_of_args slack world args initState) = Exit 0
   \/ fst (main_of_args slack world args initState) = Exit 1
   \/ fst (main_of_args slack world args initState) = Exit 2)
  /\ (fst (main_of_args slack world args initState) = Exit 2
      <-> exists e,
            GoFlag.Parse commandLine defaultFlags args = GoFlag.Failed e)
  /\ (fst (main_of_args slack world args initState) = Exit 0
      <-> GoFlag.Parse commandLine defaultFlags args = GoFlag.ErrHelp)
  /\ (fst (main_of_args slack world args initState) = Exit 1
      <-> exists t name args' e,
            trace (snd (main_of_args slack world args initState))
            = t ++ [ECall (CmdOutput name args') (Failure e);
                    ELogFatal [AErr e]])
  /\ (fst (main_of_args slack world args initState) = Return tt
      <-> (exists fl rest,
             GoFlag.Parse commandLine defaultFlags args
             = GoFlag.Parsed fl rest)
          /\ Forall (fun e => isFailedOutput e = false)
               (trace (snd (main_of_args slack world args initState)))).
Proof.
  unfold main_of_args.
  destruct (GoFlag.Parse commandLine defaultFlags args) as [fl rest| |e].
  - destruct (main_outcome slack world fl) as (Ho & _ & Hret & Hexit).
    split; [destruct Ho as [->| ->]; auto|].
    split; [split; [|by intros [? ?]]; by destruct Ho as [->| ->]|].
    split; [split; [|done]; by destruct Ho as [->| ->]|].
    split; [exact Hexit|]. rewrite Hret. split; [|by intros [_ ?]].
    intros HF. split; [by eexists _, _ | done].
  - simpl. split; [auto|]. split; [split; [done | by intros [? ?]]|].
    split; [done|]. split.
    + split; [done|]. intros (t & ? & ? & ? & Ht). by destruct t.
    + split; [done|]. by intros [(? & ? & ?) _].
  - simpl. split; [auto|]. split; [split; [by eexists | done]|].
    split; [done|]. split.
    + split; [done|]. intros (t & ? & ? & ? & Ht). by destruct t.
    + split; [done|]. by intros [(? & ? & ?) _].
Qed.
(** Every invocation through [Output()] succeeds and prints one name, so
    [gh] lists one repository and its mirror clone succeeds; the wiki clones
    and the HTTP requests fail. *)
Definition worldBare : World :=
  fun _ c =>
    match c with
    | CmdOutput _ _ => Success "a/b"
    | CmdRun _ _ => Failure (ExternalError "exit status 128")
    | HttpGet _ => Failure (ExternalError "no route to host")
    | ReadAll _ => Success EmptyString
    end.

(** X4.  When the command line parses and no invocation through [Output()]
    fails, that is, [gh] lists every account and every mirror clone succeeds,
    a run of the program returns, exit status 0, after every discovery that
    the flags call for: failed wiki clones, failed HTTP requests, unreadable
    and undecodable bodies do not end it. *)
Theorem main_returns_when_outputs_succeed (slack : nat -> nat)
    (world : World) (args : list string) (fl : Flags) (rest : list string) :
  GoFlag.Parse commandLine defaultFlags args = GoFlag.Parsed fl rest ->
  outputsSucceed world ->
  fst (main_of_args slack world args initState) = Return tt
  /\ exitStatus (fst (main_of_args slack world args initState)) = 0%Z
  /\ discoveries (trace (snd (main_of_args slack world args initState)))
     = discoveryPlan fl.
Proof.
  intros Hparse Hok. unfold main_of_args. rewrite Hparse.
  pose proof (main_returns slack world fl initState Hok) as Hret.
  destruct (main_behaves slack world fl initState) as (evs & Ht & HR).
  simpl in Ht. rewrite Ht. rewrite Hret in *. split; [done|]. split; [done|].
  apply loopRun_discoveries in HR as [_ HR]. by apply HR.
Qed.

Lemma main_returns_when_outputs_succeed_witness :
  fst (main_of_args noSlack worldBare argsExample initState) = Return tt
  /\ exitStatus (fst (main_of_args noSlack worldBare argsExample initState))
     = 0%Z
  /\ discoveries
       (trace (snd (main_of_args noSlack worldBare argsExample initState)))
     = discoveryPlan flagsExample.
Proof.
  apply (main_returns_when_outputs_succeed noSlack worldBare argsExample
           flagsExample []).
  - reflexivity.
  - intros t name args. exists "a/b"%string. reflexivity.
Defined.

(** ** Where the clones go *)

Lemma length_append (a b : string) :
  String.length (a ++ b)%string = (String.length a + String.length b)%nat.
Proof.
  induction a as [|c a IH]; [done|].
  change (S (String.length (a ++ b)%string)
          = S (String.length a + String.length b)). by rewrite IH.
Qed.

Lemma append_inj_l (p : string) : forall a b : string,
  (p ++ a = p ++ b)%string -> a = b.
Proof.
  induction p as [|c p IH]; intros a b H; [exact H|].
  change (String c (p ++ a) = String c (p ++ b))%string in H.
  injection H as H. by apply IH.
Qed.

Lemma append_inj_r (s : string) : forall a b : string,
  (a ++ s = b ++ s)%string -> a = b.
Proof.
  induction a as [|c a IH]; intros [|d b] H.
  - done.
  - apply (f_equal String.length) in H.
    change (String.length s = S (String.length (b ++ s)%string)) in H.
    rewrite (length_append b s) in H. lia.
  - apply (f_equal String.length) in H.
    change (S (String.length (a ++ s)%string) = String.length s) in H.
    rewrite (length_append a s) in H. lia.
  - change (String c (a ++ s) = String d (b ++ s))%string in H.
    injection H as -> H. by rewrite (IH b H).
Qed.

Lemma mainCloneArgs_inj repo repo' dir dir' :
  mainCloneArgs repo dir = mainCloneArgs repo' dir' -> repo = repo'.
Proof.
  unfold mainCloneArgs. intros H. injection H as H _.
  apply append_inj_l in H. by apply append_inj_r in H.
Qed.

(** ** Wiki clones and mirror clones *)

Lemma wikiAfterMain_app dir evs1 evs2 :
  wikiAfterMain dir evs1 -> wikiAfterMain dir evs2 ->
  wikiAfterMain dir (evs1 ++ evs2).
Proof.
  intros H1 H2 t1 name args w t2 Heq.
  apply app_eq_inv in Heq as [(k & He1 & Heq)|(k & -> & Heq)].
  - destruct k as [|x k]; simpl in Heq.
    + destruct (H2 [] name args w t2 (eq_sym Heq))
        as (t0 & n & repo & out & Ht & ?). by destruct t0.
    + injection Heq as <- ->.
      destruct (H1 t1 name args w k He1) as (t0 & n & repo & out & Ht & ?).
      by exists t0, n, repo, out.
  - destruct (H2 k name args w t2 Heq) as (t0 & n & repo & out & -> & ?).
    exists (evs1 ++ t0), n, repo, out. by rewrite app_assoc.
Qed.

Lemma mainBeforeWiki_app dir evs1 evs2 :
  mainBeforeWiki dir evs1 -> mainBeforeWiki dir evs2 ->
  mainBeforeWiki dir (evs1 ++ evs2).
Proof.
  intros H1 H2 t1 repo out t2 Heq.
  apply app_eq_inv in Heq as [(k & He1 & Heq)|(k & -> & Heq)].
  - destruct k as [|x k]; simpl in Heq.
    + by apply (H2 [] repo out t2).
    + injection Heq as <- ->.
      destruct (H1 t1 repo out k He1) as (w & t2' & ->).
      by exists w, (t2' ++ evs2).
  - by apply (H2 k repo out t2).
Qed.

Lemma noGit_wiki dir evs :
  noGit evs -> wikiAfterMain dir evs /\ mainBeforeWiki dir evs.
Proof.
  intros H. split.
  - intros t1 name args w t2 ->. apply Forall_app in H as [_ H].
    apply Forall_cons in H as [H _]. by destruct (H name args w) as [H' _].
  - intros t1 repo out t2 ->. apply Forall_app in H as [_ H].
    apply Forall_cons in H as [H _].
    by destruct (H EmptyString (mainCloneArgs repo dir) (Success out))
      as [_ H'].
Qed.

Lemma mainRun_wiki fl n o n' evs :
  mainRun fl n o n' evs ->
  wikiAfterMain (output fl) evs /\ mainBeforeWiki (output fl) evs.
Proof.
  apply (mainRun_inv fl (fun _ _ _ evs =>
           wikiAfterMain (output fl) evs /\ mainBeforeWiki (output fl) evs)).
  - intros _. apply noGit_wiki. constructor.
  - intros _ _ evs1 _ _ evs2 [H1 H1'] [H2 H2'].
    split; [by apply wikiAfterMain_app | by apply mainBeforeWiki_app].
  - intros limit repo m o' m' evs' H. destruct H.
    + apply noGit_wiki. constructor.
    + split.
      * intros t1 name args w' t2 Heq.
        destruct t1 as [|a [|b [|c t1]]]; simpl in Heq; try done.
        -- injection Heq as <- <- <- <- <-. by exists [], (wrap64 (n0 + 1)), repo, out.
        -- injection Heq as _ _ _ Heq. by destruct t1.
      * intros t1 repo' out' t2 Heq.
        destruct t1 as [|a [|b [|c t1]]]; simpl in Heq; try done.
        -- assert (mainCloneArgs repo (output fl)
                   = mainCloneArgs repo' (output fl)
                   /\ t2 = [ECall (wikiCloneCall repo (output fl)) w])
             as [Hm ->] by (unfold mainCloneCall in Heq; split; congruence).
           apply mainCloneArgs_inj in Hm as <-. by eexists _, _.
        -- injection Heq as _ _ _ Heq. by destruct t1.
    + split.
      * intros t1 name args w' t2 Heq.
        destruct t1 as [|a [|b [|c t1]]]; simpl in Heq; try done.
        injection Heq as _ _ _ Heq. by destruct t1.
      * intros t1 repo' out' t2 Heq.
        destruct t1 as [|a [|b [|c t1]]]; simpl in Heq; try done.
        injection Heq as _ _ _ Heq. by destruct t1.
  - intros _ user out. apply noGit_wiki. by repeat constructor.
  - intros _ user e. apply noGit_wiki. by repeat constructor.
  - intros _ evs' H. apply noGit_wiki. eapply Forall_impl; [exact H|].
    intros [[] ?| | |]; simpl; try done.
Qed.

(** X5.  In every run of [main], the wiki clones are the only invocations
    through [Run()], and they go with the successful mirror clones one to
    one: a wiki clone comes right after the progress record and the successful
    mirror clone of its repository, into the same directory, and a successful
    mirror clone is followed at once by the wiki clone of its repository.  So
    a wiki is never cloned without its repository, nor after a failed
    clone. *)
Theorem wiki_clone_follows_each_main_clone (slack : nat -> nat)
    (world : World) (fl : Flags) :
  (forall t1 name args w t2,
      trace (snd (main slack world fl initState))
      = t1 ++ ECall (CmdRun name args) w :: t2 ->
      exists t0 n repo out,
        t1 = t0 ++ [progressEvent n repo;
                    ECall (mainCloneCall repo (output fl)) (Success out)]
        /\ name = "git"%string /\ args = wikiCloneArgs repo (output fl))
  /\ (forall t1 repo out t2,
        trace (snd (main slack world fl initState))
        = t1 ++ ECall (mainCloneCall repo (output fl)) (Success out) :: t2 ->
        exists w t2', t2 = ECall (wikiCloneCall repo (output fl)) w :: t2').
Proof.
  destruct (main_behaves slack world fl initState) as (evs & Ht & HR).
  simpl in Ht. rewrite Ht. apply mainRun_wiki in HR as [H1 H2].
  split; [exact H1 | exact H2].
Qed.

(** ** What is cloned *)

Lemma clonesDue_app limit dir t1 t2 :
  clonesDue limit dir (t1 ++ t2)
  = clonesDue limit dir t1 ++ clonesDue limit dir t2.
Proof. unfold clonesDue. by rewrite map_app, concat_app. Qed.

Lemma cloneRun_lists_nothing limit dir repos : forall n o n' evs,
  cloneRun limit dir repos n o n' evs -> Forall (fun e => listedOf e = []) evs.
Proof.
  induction repos as [|repo repos IH]; intros n o n' evs H; simpl in H.
  - inversion H. constructor.
  - assert (forall n o n' evs,
              cloneOneRun limit dir repo n o n' evs ->
              Forall (fun e => listedOf e = []) evs) as Hone.
    { intros ? ? ? ? []; by repeat constructor. }
    inversion H; subst; [by eapply Hone|].
    apply Forall_app. split; [by eapply Hone | by eapply IH].
Qed.

Lemma clonesDue_nothing limit dir evs :
  Forall (fun e => listedOf e = []) evs -> clonesDue limit dir evs = [].
Proof.
  induction 1 as [|e evs He _ IH]; [done|].
  unfold clonesDue in *. simpl. by rewrite He, IH.
Qed.

Section Discoveries.

(** A property of runs that holds of each discovery and is kept by sequencing
    holds of every run of [main]. *)
Variable fl : Flags.
Variable I : Outcome unit -> list Event -> Prop.

Hypothesis I_nothing : I (Return tt) [].
Hypothesis I_then : forall evs1 o evs2,
  I (Return tt) evs1 -> I o evs2 -> I o (evs1 ++ evs2).
Hypothesis I_owned : forall user n o n' evs,
  ownedRun (output fl) user (maxrepo fl) (parseLimit fl) n o n' evs -> I o evs.
Hypothesis I_starred : forall user n o n' evs,
  starredRun (output fl) user (maxrepo fl) (parseLimit fl) n o n' evs ->
  I o evs.

Lemma seqRun_discovery_inv (R1 R2 : Behaviour) :
  (forall n o n' evs, R1 n o n' evs -> I o evs) ->
  (forall n o n' evs, R2 n o n' evs -> I o evs) ->
  forall n o n' evs, seqRun R1 R2 n o n' evs -> I o evs.
Proof.
  intros H1 H2 n o n' evs H. destruct H; [by eapply H1|].
  eapply I_then; [by eapply H1 | by eapply H2].
Qed.

Lemma mainRun_discovery_inv n o n' evs : mainRun fl n o n' evs -> I o evs.
Proof.
  unfold mainRun. revert n o n' evs.
  induction (parseUsers fl) as [|u us IH]; simpl.
  - intros ? ? ? ? []. apply I_nothing.
  - apply seqRun_discovery_inv; [|done]. unfold bodyRun.
    apply seqRun_discovery_inv; unfold optRun.
    + destruct (negb (starsonly fl)); [apply I_owned|].
      intros ? ? ? ? []. apply I_nothing.
    + destruct (stars fl || starsonly fl); [apply I_starred|].
      intros ? ? ? ? []. apply I_nothing.
Qed.

End Discoveries.

Lemma clonesDue_cons limit dir e t :
  clonesDue limit dir (e :: t)
  = clonePlan limit dir (listedOf e) ++ clonesDue limit dir t.
Proof. reflexivity. Qed.

Lemma listedOf_gh user maxrepo out :
  listedOf (ECall (ghCall user maxrepo) (Success out)) = parsedRepos out.
Proof. reflexivity. Qed.

Lemma listedOf_read url body :
  listedOf (ECall (ReadAll url) (Success body))
  = match Unmarshal body with
    | inl jsonData => map FullName jsonData
    | inr _ => []
    end.
Proof. reflexivity. Qed.

Lemma listedOf_http url r : listedOf (ECall (HttpGet url) r) = [].
Proof. reflexivity. Qed.

Lemma elem_of_clonesDue limit dir args t :
  args ∈ clonesDue limit dir t ->
  exists e, e ∈ t /\ args ∈ clonePlan limit dir (listedOf e).
Proof.
  induction t as [|e t IH]; [by intros ?%elem_of_nil|].
  rewrite clonesDue_cons. intros [H|H]%elem_of_app.
  - exists e. split; [by left | done].
  - destruct (IH H) as (e' & ? & ?). exists e'. split; [by right | done].
Qed.

Lemma mainRun_clonesDue fl n o n' evs :
  mainRun fl n o n' evs ->
  follows mainCloneOf (clonesDue (parseLimit fl) (output fl) evs) o evs.
Proof.
  apply (mainRun_discovery_inv fl (fun o evs =>
           follows mainCloneOf (clonesDue (parseLimit fl) (output fl) evs)
             o evs)).
  - by split.
  - intros evs1 o' evs2 [_ H1] [H2 H2']. unfold follows.
    rewrite omap_app, clonesDue_app, (H1 eq_refl). split.
    + by apply prefix_app.
    + intros Ho. by rewrite (H2' Ho).
  - intros user m o' m' evs' H. inversion H; subst; [by split|].
    match goal with Hc : cloneRun _ _ _ _ _ _ _ |- _ =>
      pose proof (cloneRun_lists_nothing _ _ _ _ _ _ _ Hc) as Hn;
      apply cloneRun_mainClones in Hc as Hc' end.
    rewrite clonesDue_cons, listedOf_gh.
    rewrite (clonesDue_nothing _ _ _ Hn), app_nil_r. exact Hc'.
  - intros user m o' m' evs' H. inversion H; subst; try by split.
    + rewrite !clonesDue_cons, listedOf_http, listedOf_read.
      match goal with He : Unmarshal _ = inr _ |- _ => rewrite He end.
      by split.
    + match goal with Hc : cloneRun _ _ _ _ _ _ _ |- _ =>
        pose proof (cloneRun_lists_nothing _ _ _ _ _ _ _ Hc) as Hn;
        apply cloneRun_mainClones in Hc as Hc' end.
      rewrite !clonesDue_cons, listedOf_http, listedOf_read.
      match goal with He : Unmarshal _ = inl _ |- _ => rewrite He end.
      rewrite (clonesDue_nothing _ _ _ Hn), app_nil_r. exact Hc'.
Qed.

(** X6.  The mirror clones of a run of [main] are those that its listings
    call for, in their order and one per listed name: for each successful
    [gh repo list] and each decoded body in turn, the included repositories of
    the listing, a repository that is listed twice (by two accounts, or as
    owned and as starred) being cloned twice.  A run that aborts has done an
    initial part of them, a run that returns all of them. *)
Theorem main_clones_what_is_listed (slack : nat -> nat) (world : World)
    (fl : Flags) :
  mainClones (trace (snd (main slack world fl initState)))
  `prefix_of` clonesDue (parseLimit fl) (output fl)
                (trace (snd (main slack world fl initState)))
  /\ (fst (main slack world fl initState) = Return tt ->
      mainClones (trace (snd (main slack world fl initState)))
      = clonesDue (parseLimit fl) (output fl)
          (trace (snd (main slack world fl initState)))).
Proof.
  destruct (main_behaves slack world fl initState) as (evs & Ht & HR).
  simpl in Ht. rewrite Ht. by apply mainRun_clonesDue in HR.
Qed.

(** X7.  A run of [main] never clones a repository that the allow-list
    excludes, nor one that no listing of the run names: every mirror clone in
    the trace is the clone, into the output directory, of an included
    repository that an earlier or later event of the trace lists. *)
Theorem main_clones_only_listed_and_included (slack : nat -> nat)
    (world : World) (fl : Flags) (args : list string) :
  args ∈ mainClones (trace (snd (main slack world fl initState))) ->
  exists repo e,
    args = mainCloneArgs repo (output fl)
    /\ included repo (parseLimit fl) = true
    /\ e ∈ trace (snd (main slack world fl initState))
    /\ repo ∈ listedOf e.
Proof.
  destruct (main_behaves slack world fl initState) as (evs & Ht & HR).
  simpl in Ht. rewrite Ht. apply mainRun_clonesDue in HR as [HR _].
  intros Hin. apply (elem_of_prefix _ _ _ Hin) in HR.
  apply elem_of_clonesDue in HR as (e & He & Hl).
  unfold clonePlan in Hl.
  apply list_elem_of_In, in_map_iff in Hl as (repo & <- & Hr).
  apply filter_In in Hr as [Hr Hi]. apply list_elem_of_In in Hr.
  by exists repo, e.
Qed.

Lemma main_clones_only_listed_and_included_witness :
  exists repo e,
    mainCloneArgs "a/b" "repos" = mainCloneArgs repo (output flagsExample)
    /\ included repo (parseLimit flagsExample) = true
    /\ e ∈ trace (snd (main noSlack worldBare flagsExample initState))
    /\ repo ∈ listedOf e.
Proof.
  apply (main_clones_only_listed_and_included noSlack worldBare flagsExample
           (mainCloneArgs "a/b" "repos")).
  apply list_elem_of_In. vm_compute. left. reflexivity.
Defined.

(** ** Listings without repositories *)

Lemma getRepos_parse_blank slack strs repos st :
  Forall (fun line => String.length line = 0%nat) strs ->
  getRepos_parse slack strs repos st = (Return repos, st).
Proof.
  induction 1 as [|line strs Hl _ IH]; simpl; [done|]. by rewrite Hl.
Qed.

Lemma parsedRepos_nil_blank out :
  parsedRepos out = [] ->
  Forall (fun line => String.length line = 0%nat) (Split out LF).
Proof.
  unfold parsedRepos. intros H. apply map_eq_nil in H.
  induction (Split out LF) as [|line strs IH]; [constructor|].
  simpl in H. destruct (String.length line) eqn:E; simpl in H; [|done].
  constructor; [done | by apply IH].
Qed.

(** X8.  A listing without repositories is no error.  When [gh] succeeds and
    its output has no line of non-zero length, [getRepos] returns the nil
    slice having done nothing but the call; when the body of the HTTP
    response decodes to the empty array (as do [[]] and [null]), [getStars]
    does the same after the request and the reading: no message, no clone,
    the counter as it was. *)
Theorem empty_listings_clone_nothing (slack : nat -> nat) (world : World)
    (dir user maxrepo : string) (limit : list string) (st : State) :
  (forall out,
      world (trace st) (ghCall user maxrepo) = Success out ->
      parsedRepos out = [] ->
      getRepos slack world dir user maxrepo limit st
      = (Return nilSlice,
         addEvents st [ECall (ghCall user maxrepo) (Success out)]))
  /\ (forall x body,
        world (trace st) (HttpGet (starredURL user maxrepo)) = Success x ->
        world (trace st
                 ++ [ECall (HttpGet (starredURL user maxrepo)) (Success x)])
          (ReadAll (starredURL user maxrepo)) = Success body ->
        Unmarshal body = inl [] ->
        getStars slack world dir user maxrepo limit st
        = (Return nilSlice,
           addEvents st
             [ECall (HttpGet (starredURL user maxrepo)) (Success x);
              ECall (ReadAll (starredURL user maxrepo)) (Success body)])).
Proof.
  split.
  - intros out Hw Hnil. unfold getRepos. rewrite bind_call.
    unfold ghCall in Hw. rewrite Hw.
    rewrite (bind_run _ _ _ _ _
               (getRepos_parse_blank slack _ nilSlice _
                  (parsedRepos_nil_blank out Hnil))).
    reflexivity.
  - intros x body Hx Hb Hj. unfold getStars. rewrite bind_call, Hx.
    rewrite bind_call. simpl. rewrite Hb, Hj. unfold addEvents.
    by rewrite <- app_assoc.
Qed.

Lemma empty_listings_clone_nothing_witness :
  getRepos noSlack (worldOK (String LF "") "null") "repos" "u" "1000" []
    initState
  = (Return nilSlice,
     addEvents initState [ECall (ghCall "u" "1000") (Success (String LF ""))])
  /\ getStars noSlack (worldOK "" "[]") "repos" "u" "1000" [] initState
     = (Return nilSlice,
        addEvents initState
          [ECall (HttpGet (starredURL "u" "1000")) (Success "");
           ECall (ReadAll (starredURL "u" "1000")) (Success "[]")]).
Proof.
  split.
  - apply (proj1 (empty_listings_clone_nothing noSlack
                    (worldOK (String LF "") "null") "repos" "u" "1000" []
                    initState)); reflexivity.
  - apply (proj2 (empty_listings_clone_nothing noSlack (worldOK "" "[]")
                    "repos" "u" "1000" [] initState)); reflexivity.
Defined.

(** ** How a discovery ends the process *)

Lemma cloneRun_exit limit dir repos : forall n c n' evs,
  cloneRun limit dir repos n (Exit c) n' evs ->
  c = 1%Z
  /\ exists t m repo e,
       evs = t ++ [progressEvent m repo;
                   ECall (mainCloneCall repo dir) (Failure e);
                   ELogFatal [AErr e]]
       /\ repo ∈ repos /\ included repo limit = true.
Proof.
  induction repos as [|r repos IH]; intros n c n' evs H; simpl in H.
  - inversion H.
  - inversion H as [? ? ? ? H1|? ? ? ? ? ? H1 H2]; subst.
    + inversion H1; subst. split; [done|].
      exists [], (wrap64 (n + 1)), r, e. split; [done|]. split; [by left|done].
    + apply IH in H2 as (-> & t & m & repo & e & -> & Hin & Hi).
      split; [done|]. exists (evs1 ++ t), m, repo, e.
      rewrite app_assoc. split; [done|]. split; [by right | done].
Qed.

(** X9.  A discovery ends the process in two ways only, both with status 1
    and the message of [log.Fatal] last in the trace: [getRepos] when [gh]
    itself fails or when the mirror clone of one of the listed, included
    repositories fails; [getStars] only in the second way, after a request
    and a reading that succeeded and a body that was decoded.  No failure of
    the HTTP request, of the reading, of the decoding or of a wiki clone ends
    it. *)
Theorem discovery_exits_only_on_fatal (slack : nat -> nat) (world : World)
    (dir user maxrepo : string) (limit : list string) (st : State) :
  (forall c,
      fst (getRepos slack world dir user maxrepo limit st) = Exit c ->
      c = 1%Z
      /\ ((exists e,
             trace (snd (getRepos slack world dir user maxrepo limit st))
             = trace st ++ [ECall (ghCall user maxrepo) (Failure e);
                            ELogFatal [AErr e]])
          \/ (exists out t m repo e,
                trace (snd (getRepos slack world dir user maxrepo limit st))
                = trace st
                    ++ ECall (ghCall user maxrepo) (Success out)
                    :: t ++ [progressEvent m repo;
                             ECall (mainCloneCall repo dir) (Failure e);
                             ELogFatal [AErr e]]
                /\ repo ∈ parsedRepos out
                /\ included repo limit = true)))
  /\ (forall c,
        fst (getStars slack world dir user maxrepo limit st) = Exit c ->
        c = 1%Z
        /\ exists x body jsonData t m repo e,
             trace (snd (getStars slack world dir user maxrepo limit st))
             = trace st
                 ++ ECall (HttpGet (starredURL user maxrepo)) (Success x)
                 :: ECall (ReadAll (starredURL user maxrepo)) (Success body)
                 :: t ++ [progressEvent m repo;
                          ECall (mainCloneCall repo dir) (Failure e);
                          ELogFatal [AErr e]]
             /\ Unmarshal body = inl jsonData
             /\ repo ∈ map FullName jsonData
             /\ included repo limit = true).
Proof.
  split; intros c Hc.
  - destruct (getRepos_behaves slack world dir user maxrepo limit st)
      as (evs & Ht & HR).
    rewrite Ht, Hc in *. simpl in HR. inversion HR; subst.
    + split; [done|]. left. by eexists.
    + match goal with H : cloneRun _ _ _ _ _ _ _ |- _ =>
        apply cloneRun_exit in H as (-> & t & m & repo & e & -> & Hin & Hi) end.
      split; [done|]. right. by exists out, t, m, repo, e.
  - destruct (getStars_behaves slack world dir user maxrepo limit st)
      as (evs & Ht & HR).
    rewrite Ht, Hc in *. simpl in HR. inversion HR; subst.
    match goal with H : cloneRun _ _ _ _ _ _ _ |- _ =>
      apply cloneRun_exit in H as (-> & t & m & repo & e & -> & Hin & Hi) end.
    split; [done|]. by exists x, body, jsonData, t, m, repo, e.
Qed.

Lemma discovery_exits_only_on_fatal_witness :
  1%Z = 1%Z
  /\ exists x body jsonData t m repo e,
       trace (snd (getStars noSlack (worldCloneFails "" starredBodyExample)
                     "repos" "u" "1000" [] initState))
       = trace initState
           ++ ECall (HttpGet (starredURL "u" "1000")) (Success x)
           :: ECall (ReadAll (starredURL "u" "1000")) (Success body)
           :: t ++ [progressEvent m repo;
                    ECall (mainCloneCall repo "repos") (Failure e);
                    ELogFatal [AErr e]]
       /\ Unmarshal body = inl jsonData
       /\ repo ∈ map FullName jsonData
       /\ included repo [] = true.
Proof.
  apply (proj2 (discovery_exits_only_on_fatal noSlack
                  (worldCloneFails "" starredBodyExample) "repos" "u" "1000"
                  [] initState) 1%Z).
  reflexivity.
Defined.

(** ** The allow-list as a set *)

Lemma inSlise_trimmed el ar :
  inSlise el ar = true <-> el ∈ map TrimSpace ar.
Proof.
  rewrite inSlise_spec, list_elem_of_In, in_map_iff. split.
  - intros (a & Ha & <-). exists a. by rewrite <- list_elem_of_In.
  - intros (a & <- & Ha). exists a. by rewrite list_elem_of_In.
Qed.

(** X10.  The allow-list counts as the set of its trimmed entries: two
    allow-lists with the same trimmed entries, in whatever order, with
    whatever repetitions and white space around the entries, include the same
    repositories; and an allow-list that is not empty only includes more when
    entries are added to it.  (Adding an entry to the empty allow-list is what
    turns the filter on.) *)
Theorem allow_list_is_a_set (l1 l2 : list string) :
  ((forall x, x ∈ map TrimSpace l1 <-> x ∈ map TrimSpace l2) ->
   forall r, included r l1 = included r l2)
  /\ (l1 <> [] ->
      forall r, included r l1 = true ->
                included r (l1 ++ l2) = true /\ included r (l2 ++ l1) = true).
Proof.
  split.
  - intros H r. unfold included.
    destruct l1 as [|a l1], l2 as [|b l2]; [done| | |].
    + exfalso. apply (elem_of_nil (TrimSpace b)). apply H. by left.
    + exfalso. apply (elem_of_nil (TrimSpace a)). apply H. by left.
    + simpl length. simpl orb.
      change (inSlise r (a :: l1) = inSlise r (b :: l2)).
      pose proof (inSlise_trimmed r (a :: l1)) as H1.
      pose proof (inSlise_trimmed r (b :: l2)) as H2.
      destruct (inSlise r (a :: l1)), (inSlise r (b :: l2)); try done.
      * symmetry. apply H2, H, H1. done.
      * apply H1, H, H2. done.
  - intros Hne r Hin. unfold included in *.
    destruct l1 as [|a l1]; [done|]. simpl in Hin.
    change (inSlise r (a :: l1) = true) in Hin.
    apply inSlise_trimmed in Hin.
    assert (forall l, r ∈ map TrimSpace l -> l <> [] ->
                      (length l =? 0)%nat || inSlise r l = true) as Hl.
    { intros l Hr _. apply inSlise_trimmed in Hr. rewrite Hr.
      apply orb_true_r. }
    split; (apply Hl; [|by destruct l2]); rewrite map_app;
      apply elem_of_app; first [by left | by right].
Qed.

Lemma allow_list_is_a_set_witness :
  included "c/d" ["a/b"; " c/d"]
  = included "c/d" [String TAB "c/d "; "a/b"; "a/b "; "c/d"].
Proof.
  apply (proj1 (allow_list_is_a_set ["a/b"; " c/d"]
                  [String TAB "c/d "; "a/b"; "a/b "; "c/d"])).
  intros x. rewrite !list_elem_of_In. vm_compute. tauto.
Defined.

Lemma append_assoc (a b c : string) :
  ((a ++ b) ++ c = a ++ (b ++ c))%string.
Proof.
  induction a as [|x a IH]; [done|].
  change (String x ((a ++ b) ++ c) = String x (a ++ (b ++ c)))%string.
  by rewrite IH.
Qed.

Lemma wikiCloneArgs_main repo dir :
  wikiCloneArgs repo dir = mainCloneArgs (repo ++ ".wiki")%string dir.
Proof.
  unfold wikiCloneArgs, mainCloneArgs.
  by rewrite (append_assoc repo ".wiki" ".git").
Qed.

(** X11.  Where the clones go.  The mirror clones of two different
    repositories never have the same arguments, so never the same directory
    under the output directory, and neither do their wiki clones.  But the
    wiki clone of a repository is, argument for argument, the mirror clone of
    the repository of that name with [.wiki] added: the wiki of [a/b] and a
    repository [a/b.wiki] are cloned from the same address into the same
    directory, and these are the only collisions. *)
Theorem clone_destinations (repo repo' dir : string) :
  (mainCloneArgs repo dir = mainCloneArgs repo' dir <-> repo = repo')
  /\ (wikiCloneArgs repo dir = wikiCloneArgs repo' dir <-> repo = repo')
  /\ (wikiCloneArgs repo dir = mainCloneArgs repo' dir
      <-> repo' = (repo ++ ".wiki")%string).
Proof.
  split; [|split].
  - split; [apply mainCloneArgs_inj | by intros ->].
  - split; [|by intros ->]. rewrite !wikiCloneArgs_main.
    intros H%mainCloneArgs_inj. by apply append_inj_r in H.
  - rewrite wikiCloneArgs_main. split; [|by intros ->].
    by intros H%mainCloneArgs_inj.
Qed.

(** ** The output of [gh], line by line *)

Lemma Split_app (a b : string) (sep : ascii) :
  Split (a ++ String sep b) sep = Split a sep ++ Split b sep.
Proof.
  induction a as [|c a IH].
  - change (Split (String sep b) sep = [EmptyString] ++ Split b sep).
    simpl. by rewrite Ascii.eqb_refl.
  - change (Split (String c (a ++ String sep b)) sep
            = Split (String c a) sep ++ Split b sep).
    simpl. destruct (Ascii.eqb c sep); [by rewrite IH|].
    rewrite IH. pose proof (Split_not_nil a sep) as Hne.
    by destruct (Split a sep).
Qed.

Lemma Split_without (s : string) (sep : ascii) :
  occurs sep s = false -> Split s sep = [s].
Proof.
  induction s as [|c s IH]; simpl; [done|]. intros H.
  apply orb_false_iff in H as [Hc Hs]. rewrite Hc, (IH Hs). done.
Qed.

Lemma occurs_append (c : ascii) (a b : string) :
  occurs c (a ++ b) = occurs c a || occurs c b.
Proof.
  induction a as [|x a IH]; [done|].
  change (Ascii.eqb x c || occurs c (a ++ b)
          = Ascii.eqb x c || occurs c a || occurs c b).
  by rewrite IH, orb_assoc.
Qed.

Lemma parsedRepos_app (a b : string) :
  parsedRepos (a ++ String LF b) = parsedRepos a ++ parsedRepos b.
Proof.
  unfold parsedRepos. by rewrite Split_app, List.filter_app, map_app.
Qed.

(** X12.  [getRepos] reads the output of [gh] line by line: the names parsed
    from two outputs joined by a line feed are those of the first followed by
    those of the second, and a final line feed adds nothing.  A line made of
    a name, a tab and anything else gives back the name, whatever follows the
    tab; and no parsed name holds a tab or a line feed. *)
Theorem gh_output_is_read_line_by_line :
  (forall a b, parsedRepos (a ++ String LF b) = parsedRepos a ++ parsedRepos b)
  /\ (forall a, parsedRepos (a ++ String LF "") = parsedRepos a)
  /\ (forall name rest,
        occurs TAB name = false -> occurs LF name = false ->
        occurs LF rest = false ->
        parsedRepos (name ++ String TAB rest) = [name])
  /\ (forall out,
        Forall (fun r => occurs TAB r = false /\ occurs LF r = false)
          (parsedRepos out)).
Proof.
  split; [apply parsedRepos_app|]. split; [|split].
  - intros a. rewrite parsedRepos_app. apply app_nil_r.
  - intros name rest Ht Hn Hr. unfold parsedRepos.
    rewrite Split_without.
    2:{ rewrite occurs_append. simpl. by rewrite Hn, Hr. }
    assert (String.length (name ++ String TAB rest) <> 0%nat) as Hlen.
    { rewrite length_append. simpl. lia. }
    apply Nat.eqb_neq in Hlen. simpl. rewrite Hlen. simpl.
    unfold firstField. by rewrite Split_app, (Split_without name TAB Ht).
  - intros out. unfold parsedRepos. apply Forall_map.
    pose proof (Split_pieces out LF) as Hp.
    induction Hp as [|line lines Hl _ IH]; [constructor|].
    simpl. destruct (negb _); [|exact IH]. constructor; [|exact IH].
    destruct (firstField_spec line) as [Hf [He|[rest He]]].
    + split; [done|]. by rewrite <- He.
    + split; [done|]. rewrite He, occurs_append in Hl.
      by apply orb_false_iff in Hl as [Hl _].
Qed.

Lemma gh_output_is_read_line_by_line_witness :
  parsedRepos ("a/b" ++ String TAB ("public" ++ String TAB "2 hours ago"))
  = ["a/b"].
Proof.
  apply (proj1 (proj2 (proj2 gh_output_is_read_line_by_line)) "a/b"
           ("public" ++ String TAB "2 hours ago")%string); reflexivity.
Defined.

(** ** The capacity of the slices *)

(** X13.  What a run of [main] does to the outside world does not depend on
    how much spare capacity [append] allocates when it grows a slice: outcome,
    trace and counter are the same for any two growth policies, although
    [cloneRepos] appends to the slice it ranges over, in place when the
    capacity allows it. *)
Theorem main_does_not_depend_on_capacity (slack1 slack2 : nat -> nat)
    (world : World) (fl : Flags) :
  fst (main slack1 world fl initState) = fst (main slack2 world fl initState)
  /\ trace (snd (main slack1 world fl initState))
     = trace (snd (main slack2 world fl initState))
  /\ reponum (snd (main slack1 world fl initState))
     = reponum (snd (main slack2 world fl initState)).
Proof.
  pose proof (main_sim slack1 world fl initState) as H1.
  pose proof (main_sim slack2 world fl initState) as H2.
  rewrite H1 in H2. by injection H2 as -> -> ->.
Qed.

(** ** Without the stars *)

Lemma cloneRun_not_quiet limit dir repos : forall n o n' evs,
  cloneRun limit dir repos n o n' evs ->
  Forall (fun e => isQuiet e = false) evs.
Proof.
  induction repos as [|repo repos IH]; intros n o n' evs H; simpl in H.
  - inversion H. constructor.
  - assert (forall n o n' evs,
              cloneOneRun limit dir repo n o n' evs ->
              Forall (fun e => isQuiet e = false) evs) as Hone.
    { intros ? ? ? ? []; by repeat constructor. }
    inversion H; subst; [by eapply Hone|].
    apply Forall_app. split; [by eapply Hone | by eapply IH].
Qed.

Lemma loopRun_not_quiet fl limit users :
  stars fl = false -> starsonly fl = false ->
  forall n o n' evs,
    loopRun fl limit users n o n' evs ->
    Forall (fun e => isQuiet e = false) evs.
Proof.
  intros Hs Hso.
  assert (forall user n o n' evs,
            bodyRun fl limit user n o n' evs ->
            Forall (fun e => isQuiet e = false) evs) as Hbody.
  { intros user n o n' evs H. unfold bodyRun in H. rewrite Hs, Hso in H.
    simpl in H.
    assert (forall n o n' evs,
              ownedRun (output fl) (TrimSpace user) (maxrepo fl) limit
                n o n' evs ->
              Forall (fun e => isQuiet e = false) evs) as Ho.
    { intros ? ? ? ? Ho. inversion Ho; subst; [by repeat constructor|].
      constructor; [done|]. by eapply cloneRun_not_quiet. }
    inversion H as [? ? ? ? H1|? ? ? ? ? ? H1 H2]; subst; [by eapply Ho|].
    inversion H2; subst. rewrite app_nil_r. by eapply Ho. }
  induction users as [|u us IH]; intros n o n' evs H; simpl in H.
  - inversion H. constructor.
  - inversion H; subst; [by eapply Hbody|].
    apply Forall_app. split; [by eapply Hbody | by eapply IH].
Qed.

(** X14.  Without [-stars] and [-starsonly] a run of [main] makes no HTTP
    request, reads no body and logs no message through [log.Printf]: its
    trace holds only the listings by [gh], the progress records, the clones
    and, last, the message of [log.Fatal] if there is one. *)
Theorem no_stars_no_request (slack : nat -> nat) (world : World)
    (fl : Flags) :
  stars fl = false -> starsonly fl = false ->
  Forall (fun e => isQuiet e = false)
    (trace (snd (main slack world fl initState)))
  /\ forall e, e ∈ trace (snd (main slack world fl initState)) ->
       (exists user r, e = ECall (ghCall user (maxrepo fl)) r)
       \/ (exists n repo, e = progressEvent n repo)
       \/ (exists repo r, e = ECall (mainCloneCall repo (output fl)) r)
       \/ (exists repo r, e = ECall (wikiCloneCall repo (output fl)) r)
       \/ (exists err, e = ELogFatal [AErr err]).
Proof.
  intros Hs Hso.
  destruct (main_behaves slack world fl initState) as (evs & Ht & HR).
  simpl in Ht. rewrite Ht. split.
  - by eapply loopRun_not_quiet.
  - pose proof (loopRun_not_quiet fl _ _ Hs Hso _ _ _ _ HR) as Hq.
    revert Hq. revert HR.
    apply (mainRun_inv fl (fun _ _ _ evs =>
      Forall (fun e => isQuiet e = false) evs ->
      forall e, e ∈ evs ->
       (exists user r, e = ECall (ghCall user (maxrepo fl)) r)
       \/ (exists n repo, e = progressEvent n repo)
       \/ (exists repo r, e = ECall (mainCloneCall repo (output fl)) r)
       \/ (exists repo r, e = ECall (wikiCloneCall repo (output fl)) r)
       \/ (exists err, e = ELogFatal [AErr err]))).
    + intros _ _ e He. by apply elem_of_nil in He.
    + intros _ _ evs1 _ _ evs2 H1 H2 [Hq1 Hq2]%Forall_app e [He|He]%elem_of_app.
      * by apply H1.
      * by apply H2.
    + intros limit repo m o' m' evs' H _ e He. destruct H.
      * by apply elem_of_nil in He.
      * apply elem_of_cons in He as [->|He]; [right; left; by eexists _, _|].
        apply elem_of_cons in He as [->|He];
          [right; right; left; by eexists _, _|].
        apply list_elem_of_singleton in He as ->.
        right; right; right; left; by eexists _, _.
      * apply elem_of_cons in He as [->|He]; [right; left; by eexists _, _|].
        apply elem_of_cons in He as [->|He];
          [right; right; left; by eexists _, _|].
        apply list_elem_of_singleton in He as ->.
        right; right; right; right; by eexists.
    + intros _ user out _ e ->%list_elem_of_singleton. left. by eexists _, _.
    + intros _ user err _ e He.
      apply elem_of_cons in He as [->|He].
      * left. by eexists _, _.
      * apply list_elem_of_singleton in He as ->.
        right; right; right; right. by eexists.
    + intros _ evs' Hquiet Hnot e He. exfalso.
      rewrite Forall_forall in Hquiet, Hnot.
      specialize (Hquiet e He). specialize (Hnot e He). congruence.
Qed.

Lemma no_stars_no_request_witness :
  Forall (fun e => isQuiet e = false)
    (trace (snd (main noSlack worldBare limitExample initState)))
  /\ forall e, e ∈ trace (snd (main noSlack worldBare limitExample initState)) ->
       (exists user r, e = ECall (ghCall user (maxrepo limitExample)) r)
       \/ (exists n repo, e = progressEvent n repo)
       \/ (exists repo r, e = ECall (mainCloneCall repo (output limitExample)) r)
       \/ (exists repo r, e = ECall (wikiCloneCall repo (output limitExample)) r)
       \/ (exists err, e = ELogFatal [AErr err]).
Proof.
  apply (no_stars_no_request noSlack worldBare limitExample); reflexivity.
Defined.
